(** * Quiz Funnel Runner: classifier, dispatcher and driver loop

    A shallow embedding of [classifyScreen] (classifier/classifyScreen.ts),
    [handleStepAction] and its strategies (navigator/stepHandler.ts) and the
    loop of [runFunnel] (runner/runFunnel.ts), with the properties of the
    specification stated over it.

    The browser (Playwright [Page]) and the evidence sink are an interface:
    a state of the outside world, read-only observations of it and actions
    on it, each of which may raise.  The program is written in a state and
    exception monad over that interface, one definition per source function. *)

From Stdlib Require Import String Ascii List Bool Arith NArith Lia QArith DecimalString
  DecimalNat RelationClasses.
Import ListNotations.
Open Scope string_scope.
Open Scope nat_scope.

Set Implicit Arguments.

(** ** Text

    JavaScript strings are modelled by [string] (a sequence of bytes).  On
    ASCII text, lengths, case folding and the character classes below agree
    with JavaScript; text outside ASCII is carried as its UTF-8 bytes and is
    matched literally, without case folding. *)

Module Text.

Definition isUpper (c : ascii) : bool :=
  let n := nat_of_ascii c in (65 <=? n) && (n <=? 90).

Definition lowerChar (c : ascii) : ascii :=
  if isUpper c then ascii_of_nat (nat_of_ascii c + 32) else c.

(** [s.toLowerCase()] *)
Fixpoint toLowerCase (s : string) : string :=
  match s with
  | EmptyString => EmptyString
  | String c s' => String (lowerChar c) (toLowerCase s')
  end.

(** The class [\s]: space, tab, line feed, vertical tab, form feed, carriage return. *)
Definition isSpace (c : ascii) : bool :=
  let n := nat_of_ascii c in (n =? 32) || ((9 <=? n) && (n <=? 13)).

(** The class [\d]. *)
Definition isDigit (c : ascii) : bool :=
  let n := nat_of_ascii c in (48 <=? n) && (n <=? 57).

(** The class [.]: anything but a line terminator. *)
Definition isDot (c : ascii) : bool :=
  let n := nat_of_ascii c in negb ((n =? 10) || (n =? 13)).

Fixpoint trimStart (s : string) : string :=
  match s with
  | String c s' => if isSpace c then trimStart s' else s
  | EmptyString => EmptyString
  end.

Fixpoint rev (s : string) (acc : string) : string :=
  match s with
  | EmptyString => acc
  | String c s' => rev s' (String c acc)
  end.

(** [s.trim()] *)
Definition trim (s : string) : string :=
  rev (trimStart (rev (trimStart s) EmptyString)) EmptyString.

(** [s.replace(/\s+/g, " ")]: every maximal run of white space becomes one space. *)
Fixpoint collapseSpaces (inRun : bool) (s : string) : string :=
  match s with
  | EmptyString => EmptyString
  | String c s' =>
      if isSpace c
      then (if inRun then collapseSpaces true s' else String " " (collapseSpaces true s'))
      else String c (collapseSpaces false s')
  end.

(** [s.startsWith(p)], giving the rest of [s] after [p]. *)
Fixpoint stripPrefix (ci : bool) (p s : string) : option string :=
  match p, s with
  | EmptyString, _ => Some s
  | String a p', String b s' =>
      if (if ci then Ascii.eqb (lowerChar a) (lowerChar b) else Ascii.eqb a b)
      then stripPrefix ci p' s' else None
  | String _ _, EmptyString => None
  end.

(** [s.includes(k)] *)
Fixpoint includes (k s : string) : bool :=
  match stripPrefix false k s with
  | Some _ => true
  | None => match s with
            | EmptyString => false
            | String _ s' => includes k s'
            end
  end.

(** [s.slice(0, n)] *)
Definition slice0 (n : nat) (s : string) : string := substring 0 n s.

(** [String(n)] for a natural number. *)
Definition ofNat (n : nat) : string := NilEmpty.string_of_uint (Nat.to_uint n).

(** [String(n).padStart(2, "0")] *)
Definition pad2 (n : nat) : string :=
  let s := ofNat n in if String.length s <? 2 then "0" ++ s else s.

(** [parts.join(sep)] *)
Definition join (sep : string) (parts : list string) : string := String.concat sep parts.

End Text.

(** ** Regular expressions

    The fragment of JavaScript regular expressions the sources use, with the
    backtracking priorities of JavaScript: alternatives left to right, greedy
    repetition.  [ends] lists, in priority order, the ways an expression can
    match a prefix of the input, each as the rest of the input. *)

Module Regex.

Inductive CharClass := CSpace | CDigit | CDot.

Inductive Re :=
| RLit (s : string)
| RAlt (a b : Re)
| RSeq (a b : Re)
| RStar (c : CharClass)
| RPlus (c : CharClass)
| ROpt (r : Re)
| RBol
| REol.

(** A regular expression with its [i] flag. *)
Record t := mk { body : Re; ignoreCase : bool }.

Definition inClass (c : CharClass) (a : ascii) : bool :=
  match c with
  | CSpace => Text.isSpace a
  | CDigit => Text.isDigit a
  | CDot => Text.isDot a
  end.

(** The rests of [s] after 0, 1, ... characters of the class, shortest first. *)
Fixpoint classRuns (c : CharClass) (s : string) : list string :=
  s :: match s with
       | String a s' => if inClass c a then classRuns c s' else []
       | EmptyString => []
       end.

(** A position: whether it is the start of the input, and the rest of the input. *)
Definition Pos : Type := bool * string.

Fixpoint ends (ci : bool) (r : Re) (p : Pos) : list Pos :=
  let '(bol, s) := p in
  match r with
  | RLit l =>
      match Text.stripPrefix ci l s with
      | Some rest => [(bol && (String.length l =? 0), rest)]
      | None => []
      end
  | RAlt a b => ends ci a p ++ ends ci b p
  | RSeq a b => flat_map (ends ci b) (ends ci a p)
  | RStar c =>
      List.rev (map (fun rest => (bol && (String.length rest =? String.length s), rest)) (classRuns c s))
  | RPlus c =>
      List.rev (map (fun rest => (false, rest)) (tl (classRuns c s)))
  | ROpt a => ends ci a p ++ [p]
  | RBol => if bol then [p] else []
  | REol => match s with EmptyString => [p] | _ => [] end
  end.

(** The first match starting at or after the current position, if any:
    the matched text and the rest of the input after it. *)
Fixpoint search (ci : bool) (r : Re) (bol : bool) (s : string) : option (string * string) :=
  match ends ci r (bol, s) with
  | (_, rest) :: _ => Some (substring 0 (String.length s - String.length rest) s, rest)
  | [] => match s with
          | EmptyString => None
          | String _ s' => search ci r false s'
          end
  end.

(** [re.test(s)] *)
Definition test (re : t) (s : string) : bool :=
  match search (ignoreCase re) (body re) true s with
  | Some _ => true
  | None => false
  end.

(** [s.match(re) ?? []] for a global expression: the successive matches,
    each search resuming where the previous match ended (one character
    further after an empty match). *)
Fixpoint matchAllFuel (fuel : nat) (ci : bool) (r : Re) (bol : bool) (s : string) : list string :=
  match fuel with
  | O => []
  | S fuel' =>
      match search ci r bol s with
      | None => []
      | Some (m, rest) =>
          m :: (if String.length m =? 0
                then match rest with
                     | EmptyString => []
                     | String _ rest' => matchAllFuel fuel' ci r false rest'
                     end
                else matchAllFuel fuel' ci r false rest)
      end
  end.

Definition matchAll (re : t) (s : string) : list string :=
  matchAllFuel (S (String.length s)) (ignoreCase re) (body re) true s.

(** [(a|b|c)] *)
Fixpoint alt (rs : list Re) : Re :=
  match rs with
  | [] => RLit EmptyString
  | [r] => r
  | r :: rs' => RAlt r (alt rs')
  end.

(** [(a|b|c)] over literals. *)
Definition alts (ls : list string) : Re := alt (map RLit ls).

Definition seq (rs : list Re) : Re := fold_right RSeq (RLit EmptyString) rs.

(** [new RegExp(text, "i")] for a text without metacharacters. *)
Definition ofText (text : string) : t := mk (RLit text) true.

End Regex.

(** ** Results and the state and exception monad

    An [await]ed call either returns or raises an error with a message.
    A raise keeps the state reached so far: the world and the module-level
    variables are not rolled back by a [catch]. *)

Inductive Res (A : Type) : Type :=
| Ok (a : A)
| Throw (msg : string).

Arguments Ok {A} a.
Arguments Throw {A} msg.

Definition M (S A : Type) : Type := S -> Res A * S.

Section Monad.
Context {S : Type}.

Definition ret {A} (a : A) : M S A := fun s => (Ok a, s).

Definition bind {A B} (m : M S A) (k : A -> M S B) : M S B :=
  fun s => match m s with
           | (Ok a, s') => k a s'
           | (Throw msg, s') => (Throw msg, s')
           end.

(** [throw new Error(msg)] *)
Definition throw {A} (msg : string) : M S A := fun s => (Throw msg, s).

(** [try { m } catch (e) { h(e.message) }] *)
Definition tryCatch {A} (m : M S A) (h : string -> M S A) : M S A :=
  fun s => match m s with
           | (Ok a, s') => (Ok a, s')
           | (Throw msg, s') => h msg s'
           end.

(** [m.catch(() => d)] *)
Definition orElse {A} (m : M S A) (d : A) : M S A :=
  tryCatch m (fun _ => ret d).

(** [m.catch(() => undefined)] for a call whose value is not used. *)
Definition ignoreErrors {A} (m : M S A) : M S unit :=
  fun s => match m s with
           | (_, s') => (Ok tt, s')
           end.

Definition get : M S S := fun s => (Ok s, s).
Definition gets {A} (f : S -> A) : M S A := fun s => (Ok (f s), s).
Definition modify (f : S -> S) : M S unit := fun s => (Ok tt, f s).

(** A read-only observation of the state that may raise. *)
Definition observe {A} (f : S -> Res A) : M S A := fun s => (f s, s).
End Monad.

Declare Scope monad_scope.
Delimit Scope monad_scope with monad.
Notation "x <- m ;; k" := (bind m (fun x => k))
  (at level 61, m at next level, right associativity) : monad_scope.
Notation "' p <- m ;; k" := (bind m (fun x => let p := x in k))
  (at level 61, p pattern, m at next level, right associativity) : monad_scope.
Notation "m ;; k" := (bind m (fun _ => k))
  (at level 61, right associativity) : monad_scope.
Open Scope monad_scope.

(** The state change of a computation run inside a larger state. *)
Definition zoom {S T A} (proj : T -> S) (upd : S -> T -> T) (m : M S A) : M T A :=
  fun t => match m (proj t) with
           | (r, s') => (r, upd s' t)
           end.

(** ** Documents as the program observes them

    What a query of the page gives for one element: the properties the
    sources read, with the element's ancestors (nearest first) and
    descendants (document order), which selectors and in-page scripts
    inspect. *)

Module Dom.

Record Node := mkNode {
  id : nat;                         (* identity of the node in the page *)
  tagName : string;                 (* upper case, as [el.tagName] *)
  attrs : list (string * string);   (* [el.getAttribute] *)
  textContent : string;
  innerText : string;
  visible : bool;                   (* Playwright's notion of visible *)
  cursor : string;                  (* [getComputedStyle(el).cursor] *)
  width : Q;                        (* [getBoundingClientRect()] *)
  height : Q;
  onclick : bool;                   (* [el.onclick != null] *)
  checked : bool;
  disabled : bool;
  readOnly : bool;
  isHTMLElement : bool              (* [el instanceof HTMLElement] *)
}.

Record Element := mkElement {
  node : Node;
  ancestors : list Node;
  descendants : list Node
}.

Fixpoint lookup (name : string) (l : list (string * string)) : option string :=
  match l with
  | [] => None
  | (k, v) :: l' => if String.eqb k name then Some v else lookup name l'
  end.

(** [el.getAttribute(name)] *)
Definition getAttribute (name : string) (n : Node) : option string :=
  lookup name (attrs n).

(** *** CSS and Playwright selectors, as predicates

    Each selector string of the sources is written as the predicate it
    denotes.  A node predicate is a compound selector; [within] is the
    descendant combinator and [has] the [:has()] pseudo-class. *)

Definition NodeSel := Node -> bool.
Definition Selector := Element -> bool.

(** [tag] *)
Definition tag (t : string) : NodeSel := fun n => String.eqb (tagName n) t.

(** [[name='value']] *)
Definition attrIs (name value : string) : NodeSel :=
  fun n => match getAttribute name n with
           | Some v => String.eqb v value
           | None => false
           end.

(** [[type='value']]: HTML compares the values of [type] without regard to case. *)
Definition typeIs (value : string) : NodeSel :=
  fun n => match getAttribute "type" n with
           | Some v => String.eqb (Text.toLowerCase v) value
           | None => false
           end.

(** [[name*='value']] *)
Definition attrHas (name value : string) : NodeSel :=
  fun n => match getAttribute name n with
           | Some v => Text.includes value v
           | None => false
           end.

(** [[name*='value' i]] *)
Definition attrHasCI (name value : string) : NodeSel :=
  fun n => match getAttribute name n with
           | Some v => Text.includes (Text.toLowerCase value) (Text.toLowerCase v)
           | None => false
           end.

(** [[name]] *)
Definition hasAttr (name : string) : NodeSel :=
  fun n => match getAttribute name n with
           | Some _ => true
           | None => false
           end.

(** The white-space separated tokens of a [class] attribute. *)
Fixpoint tokens (cur : string) (s : string) : list string :=
  match s with
  | EmptyString => [Text.rev cur EmptyString]
  | String c s' =>
      if Text.isSpace c then Text.rev cur EmptyString :: tokens EmptyString s'
      else tokens (String c cur) s'
  end.

(** [.name] *)
Definition class (name : string) : NodeSel :=
  fun n => match getAttribute "class" n with
           | Some v => existsb (String.eqb name) (tokens EmptyString v)
           | None => false
           end.

(** [#name] *)
Definition hasId (name : string) : NodeSel := attrIs "id" name.

(** [:visible] *)
Definition isVisible : NodeSel := visible.

(** [:has-text('t')]: the text occurs in the element, case ignored. *)
Definition hasTextCI (t : string) : NodeSel :=
  fun n => Text.includes (Text.toLowerCase t) (Text.toLowerCase (textContent n)).

Definition and (p q : NodeSel) : NodeSel := fun n => p n && q n.
Definition not (p : NodeSel) : NodeSel := fun n => negb (p n).

(** A compound selector, applied to the element itself. *)
Definition self (p : NodeSel) : Selector := fun e => p (node e).

(** [a b]: [b] below an [a]. *)
Definition within (a : NodeSel) (b : NodeSel) : Selector :=
  fun e => b (node e) && existsb a (ancestors e).

(** [a:has(b)] *)
Definition has (a : NodeSel) (b : NodeSel) : Selector :=
  fun e => a (node e) && existsb b (descendants e).

(** [s1, s2, ...] *)
Definition anyOf (ss : list Selector) : Selector :=
  fun e => existsb (fun s => s e) ss.

(** [text=/re/i]: the smallest elements whose text matches. *)
Definition textMatches (re : Regex.t) : Selector :=
  fun e => Regex.test re (textContent (node e))
           && negb (existsb (fun d => Regex.test re (textContent d)) (descendants e)).

(** [*] *)
Definition all : Selector := fun _ => true.

End Dom.

(** ** Locators

    A Playwright locator is a description, resolved against the page
    each time it is used. *)

Inductive Locator :=
| Loc (sel : Dom.Selector)                    (* [page.locator(sel)] *)
| LFilter (l : Locator) (hasText : Regex.t)   (* [l.filter({ hasText })] *)
| LFirst (l : Locator)                        (* [l.first()] *)
| LNth (l : Locator) (i : nat).               (* [l.nth(i)] *)

Fixpoint resolve (els : list Dom.Element) (l : Locator) : list Dom.Element :=
  match l with
  | Loc sel => filter sel els
  | LFilter l' re => filter (fun e => Regex.test re (Dom.textContent (Dom.node e))) (resolve els l')
  | LFirst l' => firstn 1 (resolve els l')
  | LNth l' i => firstn 1 (skipn i (resolve els l'))
  end.

(** ** The outside world

    Every effect of the program on the browser or on the evidence sink is
    one [Action]; the interface decides whether it succeeds and how the
    world changes. *)

Inductive Action :=
| WaitForTimeout (ms : N)                                 (* [page.waitForTimeout] *)
| Click (l : Locator) (force : bool)                      (* [l.click({ timeout, force })] *)
| ScrollIntoViewIfNeeded (l : Locator)
| Fill (l : Locator) (value : string)                     (* [l.fill(value)] *)
| Check (l : Locator)                                     (* [l.check({ force: true })] *)
| DispatchEvent (l : Locator) (type : string)             (* [l.dispatchEvent(type)] *)
| KeyboardPress (key : string)                            (* [page.keyboard.press] *)
| KeyboardType (text : string)                            (* [page.keyboard.type] *)
| DomClick (node : nat)                                   (* [el.click()] in the page *)
| DomDispatchClick (node : nat)                           (* [el.dispatchEvent(new MouseEvent("click"))] *)
| DomSetValue (node : nat) (value : string)               (* native value setter, then input and change events *)
| DomFormSubmit (node : nat)                              (* [form.submit()] *)
| Goto (url : string) (waitUntil : string) (timeoutMs : N)
| WaitForLoadState (timeoutMs : N)
| RaceTransition (previousUrl : string)                   (* the [Promise.race] of waitForPageTransition *)
| Screenshot (path : string)
| CopyToClassified (type source filename : string)
| LoggerEvent (message : string)
| LoggerStep (step : nat) (type : string) (messages : list string)
| WriteSummary (path url : string) (totalSteps : nat) (detectedTypes : list string)
               (reachedPaywall : bool)
| CloseSession.                                           (* [context.close(); browser.close()] *)

Record Env := mkEnv {
  World : Type;
  isClosed : World -> bool;                    (* [page.isClosed()] *)
  url : World -> string;                       (* [page.url()] *)
  content : World -> Res string;               (* [page.content()] *)
  dom : World -> Res (list Dom.Element);       (* the elements of the page, in document order *)
  now : World -> nat;                          (* [Date.now()] *)
  act : Action -> World -> Res unit * World
}.

Arguments isClosed : clear implicits.
Arguments url : clear implicits.
Arguments content : clear implicits.
Arguments dom : clear implicits.
Arguments now : clear implicits.
Arguments act : clear implicits.

(** ** The classifier (classifier/classifyScreen.ts) *)

Inductive ScreenType := question | info | input | email | paywall | other.

Definition ScreenType_eqb (a b : ScreenType) : bool :=
  match a, b with
  | question, question | info, info | input, input
  | email, email | paywall, paywall | other, other => true
  | _, _ => false
  end.

(** The archetype as the string it is in the sources. *)
Definition typeName (t : ScreenType) : string :=
  match t with
  | question => "question" | info => "info" | input => "input"
  | email => "email" | paywall => "paywall" | other => "other"
  end.

Record ScreenClassification := mkClassification {
  type : ScreenType;
  reason : string
}.

Module Classifier.
Import Regex Dom.

(** [l.count()] on a snapshot of the page. *)
Definition count (els : list Element) (l : Locator) : nat := List.length (resolve els l).

(** [/^(accept|reject|allow|agree|cookie|close|skip|settings?|einstellung|datenschutz|terms|privacy|ablehnen|akzeptieren)/i] *)
Definition navCta : Regex.t :=
  mk (RSeq RBol (alt [RLit "accept"; RLit "reject"; RLit "allow"; RLit "agree"; RLit "cookie";
                      RLit "close"; RLit "skip"; RSeq (RLit "setting") (ROpt (RLit "s"));
                      RLit "einstellung"; RLit "datenschutz"; RLit "terms"; RLit "privacy";
                      RLit "ablehnen"; RLit "akzeptieren"])) true.

(** [/^(english|espanol|español|deutsch|francais|français|italiano|portuguese|português|polski|nederlands|turkce|tuerkce|turkish|ukrainian|русский|russian)$/i] *)
Definition languageOption : Regex.t :=
  mk (RSeq RBol (RSeq (alts ["english"; "espanol"; "español"; "deutsch"; "francais"; "français";
                             "italiano"; "portuguese"; "português"; "polski"; "nederlands";
                             "turkce"; "tuerkce"; "turkish"; "ukrainian"; "русский"; "russian"])
                      REol)) true.

(** ["button:visible, [role='button']:visible"] *)
Definition visibleButtons : Selector :=
  anyOf [self (and (tag "BUTTON") isVisible); self (and (attrIs "role" "button") isVisible)].

(** The loop of [countOptionLikeButtons] over the texts of the buttons:
    the counts of options and of language names. *)
Fixpoint countOptionLoop (texts : list string) (optionCount languageCount : nat) : nat * nat :=
  match texts with
  | [] => (optionCount, languageCount)
  | raw :: rest =>
      let text := Text.trim raw in
      if (0 <? String.length text) && (String.length text <? 40) && negb (test navCta text)
      then if test languageOption text
           then countOptionLoop rest optionCount (languageCount + 1)
           else countOptionLoop rest (optionCount + 1) languageCount
      else countOptionLoop rest optionCount languageCount
  end.

Definition countOptionLikeButtons (els : list Element) : nat :=
  let buttons := resolve els (Loc visibleButtons) in
  let '(optionCount, languageCount) :=
    countOptionLoop (map (fun e => innerText (node e)) (firstn 20 buttons)) 0 0 in
  if (4 <=? languageCount) && (optionCount <=? 2) then 0 else optionCount.

Definition Qgt_bool (a b : Q) : bool := negb (Qle_bool a b).

(** The scan over [document.querySelectorAll("*")] that both
    [countClickableOptionCards] and [clickFirstOptionCard] make: the elements
    with a pointer cursor, short text not seen before and a box above
    40 by 30, that are no button, link, input, select or label. *)
Fixpoint scanCards (seen : list string) (els : list Element) : list Element :=
  match els with
  | [] => []
  | e :: rest =>
      let n := node e in
      if isHTMLElement n
         && String.eqb (cursor n) "pointer"
         && negb (existsb (String.eqb (tagName n)) ["BUTTON"; "A"; "INPUT"; "SELECT"; "LABEL"])
      then
        let text := Text.trim (textContent n) in
        if (0 <? String.length text) && (String.length text <? 60)
           && negb (existsb (String.eqb text) seen)
        then if Qgt_bool (width n) (inject_Z 40) && Qgt_bool (height n) (inject_Z 30)
             then e :: scanCards (text :: seen) rest
             else scanCards seen rest
        else scanCards seen rest
      else scanCards seen rest
  end.

Definition countClickableOptionCards (els : list Element) : nat :=
  List.length (scanCards [] els).

(** [/(\$|€|£|usd|eur)\s*\d+/gi] *)
Definition priceRe : Regex.t :=
  mk (seq [alts ["$"; "€"; "£"; "usd"; "eur"]; RStar CSpace; RPlus CDigit]) true.

Definition paywallKeywords : Regex.t :=
  mk (alts ["subscribe"; "buy now"; "purchase"; "continue to payment"; "start my plan";
            "get my plan"; "unlock"; "try now"; "start plan"; "see your plan"; "show my plan";
            "get plan"; "get access"]) true.

(** ["button, [role='button'], a, input[type='submit']"] *)
Definition ctaControls : Selector :=
  anyOf [self (tag "BUTTON"); self (attrIs "role" "button"); self (tag "A");
         self (and (tag "INPUT") (typeIs "submit"))].

Definition paywallTextRe : Regex.t :=
  mk (alt [RLit "subscription"; seq [RLit "per"; RStar CSpace; RLit "month"]; RLit "your plan";
           RLit "unlock your plan"; RLit "choose your plan"; RLit "personalized plan";
           RLit "show my plan"; RLit "see your plan"; RLit "get your plan"; RLit "premium";
           RLit "trial"]) true.

Definition aggressiveRe : Regex.t :=
  mk (alts ["start"; "subscribe"; "buy"; "continue"; "unlock"; "get access"]) true.

Definition lateStageSoftRe : Regex.t :=
  mk (alts ["subscription"; "per month"; "your plan"; "choose your plan"; "unlock your plan";
            "premium"; "trial"]) true.

Definition lateStagePriceOfferRe : Regex.t :=
  mk (alts ["today"; "limited"; "offer"; "save"; "off"; "discount"; "trial"; "month"; "week";
            "year"; "billed"; "payment"; "checkout"; "access"]) true.

(** [/(your height|your weight|your age|how old|how tall|what.*height|what.*weight|enter your name|your name)/i] *)
Definition inputKeywords : Regex.t :=
  mk (alt [RLit "your height"; RLit "your weight"; RLit "your age"; RLit "how old";
           RLit "how tall"; seq [RLit "what"; RStar CDot; RLit "height"];
           seq [RLit "what"; RStar CDot; RLit "weight"]; RLit "enter your name";
           RLit "your name"]) true.

(** [priceMatches.length] *)
Definition priceCount (content : string) : nat := List.length (matchAll priceRe content).

(** [paywallCtaCount] *)
Definition paywallCtaCount (els : list Element) : nat :=
  count els (LFilter (Loc ctaControls) paywallKeywords).

Definition hasPaywallText (content : string) : bool := test paywallTextRe content.

Definition aggressivePaywall (content : string) (els : list Element) (step : nat) : bool :=
  (10 <=? step) && (1 <=? priceCount content) && (1 <=? paywallCtaCount els)
  && test aggressiveRe content.

Definition lateStageSoftPaywall (content : string) (els : list Element) (step : nat) : bool :=
  (20 <=? step) && (1 <=? paywallCtaCount els) && test lateStageSoftRe content.

Definition lateStagePriceOfferPaywall (content : string) (step : nat) : bool :=
  (15 <=? step) && (1 <=? priceCount content) && test lateStagePriceOfferRe content.

Definition strongPaywallSignal (content : string) (els : list Element) (step : nat) : bool :=
  aggressivePaywall content els step
  || lateStageSoftPaywall content els step
  || ((1 <=? paywallCtaCount els)
      && ((2 <=? priceCount content) || ((1 <=? priceCount content) && hasPaywallText content)))
  || lateStagePriceOfferPaywall content step.

Definition hasEmailType (els : list Element) : bool :=
  0 <? count els (Loc (self (and (tag "INPUT") (typeIs "email")))).
Definition hasEmailAutocomplete (els : list Element) : bool :=
  0 <? count els (Loc (self (and (tag "INPUT") (attrHasCI "autocomplete" "email")))).
Definition hasEmailName (els : list Element) : bool :=
  0 <? count els (Loc (self (and (tag "INPUT") (attrHasCI "name" "email")))).
Definition hasEmailPlaceholder (els : list Element) : bool :=
  0 <? count els (Loc (self (and (tag "INPUT") (attrHasCI "placeholder" "mail")))).

Definition radioCount (els : list Element) : nat :=
  count els (Loc (anyOf [self (and (tag "INPUT") (typeIs "radio")); self (attrIs "role" "radio")])).
Definition checkboxCount (els : list Element) : nat :=
  count els (Loc (anyOf [self (and (tag "INPUT") (typeIs "checkbox"));
                         self (attrIs "role" "checkbox")])).

(** ['input[type="text"]:visible, input[type="number"]:visible'] *)
Definition inputCount (els : list Element) : nat :=
  count els (Loc (anyOf [self (and (and (tag "INPUT") (typeIs "text")) isVisible);
                         self (and (and (tag "INPUT") (typeIs "number")) isVisible)])).

Definition profileHintInputs (els : list Element) : nat :=
  count els (Loc (anyOf [self (and (tag "INPUT") (attrHasCI "placeholder" "height"));
                         self (and (tag "INPUT") (attrHasCI "placeholder" "weight"));
                         self (and (tag "INPUT") (attrHasCI "placeholder" "age"));
                         self (and (tag "INPUT") (attrHasCI "placeholder" "name"))])).

(** [page.innerText("body").catch(() => "")] *)
Definition bodyInnerText (els : list Element) : string :=
  match resolve els (Loc (self (tag "BODY"))) with
  | e :: _ => innerText (node e)
  | [] => EmptyString
  end.

(** [classifyScreen] on one state of the page: its markup and its elements. *)
Definition classify (pageContent : string) (els : list Element) (step : nat)
  : ScreenClassification :=
  let content := Text.toLowerCase pageContent in
  (* 1. PAYWALL *)
  if (1 <? step) && strongPaywallSignal content els step
  then mkClassification paywall
         ("Found " ++ Text.ofNat (priceCount content) ++ " price(s), billing terms, and paywall CTA.")
  (* 2. EMAIL *)
  else if hasEmailType els
  then mkClassification email "Detected input[type=email]."
  else if hasEmailAutocomplete els
  then mkClassification email "Detected input[autocomplete*='email']."
  else if hasEmailName els
  then mkClassification email "Detected input[name*='email']."
  else if hasEmailPlaceholder els
  then mkClassification email "Detected input[placeholder*='mail']."
  else
  let hasRadioOrCheckbox := (1 <=? radioCount els) || (1 <=? checkboxCount els) in
  (* 3. INPUT *)
  let bodyText := Text.trim (Text.collapseSpaces false (bodyInnerText els)) in
  if negb hasRadioOrCheckbox && ((1 <=? inputCount els) || (1 <=? profileHintInputs els))
  then mkClassification input "Found form fields for profile/data (no radio/checkbox)."
  else if negb hasRadioOrCheckbox && test inputKeywords bodyText
  then mkClassification input "Body text mentions profile data input (height/weight/age/name)."
  else
  (* 4. QUESTION *)
  let optionsCount := radioCount els + checkboxCount els in
  if (2 <=? radioCount els) || (2 <=? checkboxCount els) || (2 <=? optionsCount)
  then mkClassification question ("Found " ++ Text.ofNat optionsCount ++ " radio/checkbox options.")
  else
  let optionButtons := countOptionLikeButtons els in
  if 2 <=? optionButtons
  then mkClassification question
         ("Found " ++ Text.ofNat optionButtons ++ " option-like buttons (no radio/checkbox).")
  else
  let optionCards := countClickableOptionCards els in
  if 2 <=? optionCards
  then mkClassification question ("Found " ++ Text.ofNat optionCards ++ " clickable option cards.")
  else
  (* 5. INFO *)
  let hasAnyInput :=
    0 <? count els (Loc (anyOf [self (and (tag "INPUT") isVisible);
                                self (and (tag "TEXTAREA") isVisible);
                                self (and (tag "SELECT") isVisible)])) in
  let ctaCount := count els (Loc visibleButtons) in
  if negb hasAnyInput && (optionsCount =? 0) && (ctaCount =? 1) && (20 <? String.length bodyText)
  then mkClassification info "Text screen with exactly one CTA button and no inputs/options."
  (* 6. OTHER *)
  else mkClassification other "No MVP heuristic matched.".

(** [classifyScreen(page, step)]: the markup is read first, then the
    elements; either read may raise. *)
Definition classifyScreen (E : Env) (w : World E) (step : nat) : Res ScreenClassification :=
  match content E w with
  | Throw msg => Throw msg
  | Ok pageContent =>
      match dom E w with
      | Throw msg => Throw msg
      | Ok els => Ok (classify pageContent els step)
      end
  end.

End Classifier.

(** ** The action strategies and the dispatcher (navigator/stepHandler.ts) *)

Record ActionResult := mkActionResult {
  performed : bool;
  messages : list string
}.

(** [INPUT_DEFAULTS] of config.ts. *)
Module INPUT_DEFAULTS.
Definition name : string := "John".
Definition height : string := "170".
Definition weight : string := "65".
Definition age : string := "30".
Definition email : string := "test@example.com".
End INPUT_DEFAULTS.

(** The double quote, for the messages that quote a text. *)
Definition dq : string := String (ascii_of_nat 34) EmptyString.

(** The message of the error a locator call raises when no element
    appears within the default timeout. *)
Definition timeoutMessage : string := "Timeout 20000ms exceeded.".

(** [messages.push(m)] *)
Definition push (ms : list string) (m : string) : list string := (ms ++ [m])%list.

Section StepHandler.
Variable E : Env.
Import Regex Dom.

(** The state the dispatcher runs in: the outside world and the
    module-level variable [fallbackOptionShift]. *)
Record Sys := mkSys {
  world : World E;
  fallbackOptionShift : nat
}.

Definition perform (a : Action) : M Sys unit :=
  fun s => match act E a (world s) with
           | (r, w') => (r, mkSys w' (fallbackOptionShift s))
           end.

Definition pageDom : M Sys (list Element) := observe (fun s => dom E (world s)).
Definition pageContent : M Sys string := observe (fun s => content E (world s)).
Definition pageUrl : M Sys string := gets (fun s => url E (world s)).

(** [l.count()] *)
Definition count (l : Locator) : M Sys nat :=
  els <- pageDom ;; ret (List.length (resolve els l)).

(** [l.isVisible()] *)
Definition locatorIsVisible (l : Locator) : M Sys bool :=
  els <- pageDom ;;
  ret (match resolve els l with
       | e :: _ => visible (node e)
       | [] => false
       end).

(** The element a locator call acts on; the call raises when there is none. *)
Definition element (l : Locator) : M Sys Element :=
  els <- pageDom ;;
  match resolve els l with
  | e :: _ => ret e
  | [] => throw timeoutMessage
  end.

(** [l.getAttribute(name)] *)
Definition locatorGetAttribute (l : Locator) (name : string) : M Sys (option string) :=
  e <- element l ;; ret (getAttribute name (node e)).

(** [l.innerText()] *)
Definition locatorInnerText (l : Locator) : M Sys string :=
  e <- element l ;; ret (innerText (node e)).

(** [l.isChecked()] *)
Definition locatorIsChecked (l : Locator) : M Sys bool :=
  e <- element l ;; ret (checked (node e)).

(** [page.innerText("body").catch(() => "")] *)
Definition bodyTextOrEmpty : M Sys string :=
  orElse (locatorInnerText (Loc (self (tag "BODY")))) EmptyString.

(** [value ?? ""] *)
Definition orEmpty (v : option string) : string :=
  match v with
  | Some s => s
  | None => EmptyString
  end.

Definition nonEmpty (s : string) : bool := 0 <? String.length s.

(** *** clickLocator *)

Definition clickLocator (l : Locator) : M Sys bool :=
  tryCatch
    (perform (ScrollIntoViewIfNeeded l) ;;
     perform (WaitForTimeout 500%N) ;;
     perform (Click l false) ;;
     ret true)
    (fun _ =>
       tryCatch
         (perform (Click l true) ;; ret true)
         (fun _ =>
            tryCatch
              (e <- element l ;;
               (if isHTMLElement (node e) then perform (DomClick (id (node e))) else ret tt) ;;
               ret true)
              (fun _ => ret false))).

(** *** clickAnyByText, clickFirstVisible, clickByText *)

Fixpoint clickAnyByText (texts : list string) : M Sys bool :=
  match texts with
  | [] => ret false
  | text :: rest =>
      let anyByText := LFirst (Loc (textMatches (ofText text))) in
      c <- count anyByText ;;
      if c =? 0 then clickAnyByText rest
      else
        v <- orElse (locatorIsVisible anyByText) false ;;
        if negb v then clickAnyByText rest
        else
          clicked <- clickLocator anyByText ;;
          if clicked then ret true else clickAnyByText rest
  end.

Fixpoint clickFirstVisible (selectors : list Selector) : M Sys bool :=
  match selectors with
  | [] => ret false
  | selector :: rest =>
      let locator := LFirst (Loc selector) in
      c <- count locator ;;
      if c =? 0 then clickFirstVisible rest
      else
        v <- locatorIsVisible locator ;;
        if negb v then clickFirstVisible rest
        else
          clicked <- clickLocator locator ;;
          if clicked then ret true else clickFirstVisible rest
  end.

Fixpoint clickByText (texts : list string) : M Sys bool :=
  match texts with
  | [] => ret false
  | text :: rest =>
      let button := LFirst (LFilter (Loc Classifier.ctaControls) (ofText text)) in
      c <- count button ;;
      if c =? 0 then clickByText rest
      else
        v <- locatorIsVisible button ;;
        if negb v then clickByText rest
        else
          clicked <- clickLocator button ;;
          if clicked then ret true else clickByText rest
  end.

(** *** closeCommonPopups *)

(** A pattern [/^phrase$/i], with its source text. *)
Definition exactPhrase (phrase : string) : string * Regex.t :=
  ("^" ++ phrase ++ "$", mk (seq [RBol; RLit phrase; REol]) true).

Definition cookiePhrases : list (string * Regex.t) :=
  map exactPhrase
      ["accept all cookies"; "accept all"; "allow all"; "alle akzeptieren"; "got it";
       "continue without accepting"; "continue without"; "alle ablehnen"; "i agree"; "i accept"].

Fixpoint closeByPhrase (patterns : list (string * Regex.t)) : M Sys (list string) :=
  match patterns with
  | [] => ret []
  | (source, pattern) :: rest =>
      let btn := LFirst (LFilter (Loc Classifier.ctaControls) pattern) in
      c <- count btn ;;
      v <- (if 0 <? c then orElse (locatorIsVisible btn) false else ret false) ;;
      if v then
        clicked <- clickLocator btn ;;
        if clicked then
          perform (WaitForTimeout 500%N) ;;
          ret ["Closed cookie/popup via exact phrase: " ++ source]
        else closeByPhrase rest
      else closeByPhrase rest
  end.

Definition consentSelectors : list Selector :=
  [ self (hasId "onetrust-accept-btn-handler");
    self (and (class "cc-btn") (class "cc-allow"));
    self (attrHas "data-testid" "cookie-accept");
    within (class "cookie-banner") (tag "BUTTON");
    within (class "consent-banner") (tag "BUTTON");
    self (hasId "truste-consent-button");
    within (class "truste_overlay") (tag "BUTTON") ].

Definition closeSelectors : list Selector :=
  [ self (attrIs "aria-label" "close");
    self (attrIs "aria-label" "Close");
    self (attrIs "aria-label" "Close dialog");
    self (attrHas "data-testid" "close");
    self (class "modal-close");
    self (class "popup-close") ].

Definition closeCommonPopups : M Sys (list string) :=
  messages <- closeByPhrase cookiePhrases ;;
  consent <- clickFirstVisible consentSelectors ;;
  messages <- (if consent
               then perform (WaitForTimeout 500%N) ;;
                    ret (push messages "Closed consent banner via framework selector.")
               else ret messages) ;;
  closed <- clickFirstVisible closeSelectors ;;
  if closed
  then perform (WaitForTimeout 500%N) ;; ret (push messages "Clicked close icon.")
  else ret messages.

(** *** reactSafeType and fillInputByHints *)

Definition reactSafeType (input : Locator) (value : string) : M Sys unit :=
  ignoreErrors (perform (Click input false)) ;;
  ignoreErrors (perform (Fill input EmptyString)) ;;
  perform (KeyboardType value) ;;
  e <- element input ;;
  (if String.eqb (tagName (node e)) "INPUT"
   then perform (DomSetValue (id (node e)) value)
   else ret tt) ;;
  perform (WaitForTimeout 150%N).

(** The entries of [mapping]: hints, value, label. *)
Definition mapping : list (Regex.t * string * string) :=
  [ (mk (alts ["name"; "first name"; "your name"]) true, INPUT_DEFAULTS.name, "name");
    (mk (alts ["height"; "cm"]) true, INPUT_DEFAULTS.height, "height");
    (mk (alts ["weight"; "kg"; "lbs"]) true, INPUT_DEFAULTS.weight, "weight");
    (mk (alts ["age"; "years old"; "yo"]) true, INPUT_DEFAULTS.age, "age") ].

(** ["input[type='text']:visible, input[type='number']:visible, input:not([type]):visible"] *)
Definition visibleTextInputs : list Selector :=
  [ self (and (and (tag "INPUT") (typeIs "text")) isVisible);
    self (and (and (tag "INPUT") (typeIs "number")) isVisible);
    self (and (and (tag "INPUT") (not (hasAttr "type"))) isVisible) ].

(** The guess of a value from the text of the page, in [fillInputByHints]. *)
Definition guessFromBody (bodyText : string) : string :=
  if test (mk (alts ["height"; "how tall"]) true) bodyText then INPUT_DEFAULTS.height
  else if test (mk (alts ["weight"]) true) bodyText then INPUT_DEFAULTS.weight
  else if test (mk (alts ["age"; "how old"]) true) bodyText then INPUT_DEFAULTS.age
  else if test (mk (alts ["name"]) true) bodyText then INPUT_DEFAULTS.name
  else "1".

Fixpoint fillInputsLoop (inputs : Locator) (indices : list nat) (messages : list string)
  : M Sys (list string) :=
  match indices with
  | [] => ret messages
  | index :: rest =>
      let input := LNth inputs index in
      isDisabled <- orElse
        (e <- element input ;;
         ret (if String.eqb (tagName (node e)) "INPUT" || String.eqb (tagName (node e)) "TEXTAREA"
              then disabled (node e) || readOnly (node e)
              else true))
        true ;;
      if isDisabled then fillInputsLoop inputs rest messages
      else
        placeholder <- locatorGetAttribute input "placeholder" ;;
        name <- locatorGetAttribute input "name" ;;
        ident <- locatorGetAttribute input "id" ;;
        ariaLabel <- locatorGetAttribute input "aria-label" ;;
        let descriptor := orEmpty placeholder ++ " " ++ orEmpty name ++ " " ++ orEmpty ident
                          ++ " " ++ orEmpty ariaLabel in
        let matched := find (fun item => test (fst (fst item)) descriptor) mapping in
        value <- match matched with
                 | Some item => ret (snd (fst item))
                 | None => bodyText <- bodyTextOrEmpty ;;
                           ret (guessFromBody (Text.toLowerCase bodyText))
                 end ;;
        perform (ScrollIntoViewIfNeeded input) ;;
        reactSafeType input value ;;
        let label := match matched with
                     | Some item => snd item
                     | None => "field"
                     end in
        fillInputsLoop inputs rest (push messages ("Filled " ++ label ++ "=" ++ value))
  end.

Definition fillInputByHints : M Sys (list string) :=
  let inputs := Loc (anyOf (visibleTextInputs ++ [self (and (tag "TEXTAREA") isVisible)])%list) in
  c <- count inputs ;;
  fillInputsLoop inputs (List.seq 0 c) [].

(** *** clickContinue and clickQuestionCta *)

Definition clickContinue : M Sys bool :=
  let texts := ["continue"; "next"; "start"; "begin"; "get started"; "unlock"; "let's go";
                "go on"; "submit"; "see"; "get"; "show"; "claim"; "yes"] in
  byText <- clickByText texts ;;
  if byText then ret true
  else
    anyText <- clickAnyByText texts ;;
    if anyText then ret true
    else
      clickFirstVisible
        [ self (and (tag "BUTTON") (typeIs "submit"));
          self (and (tag "INPUT") (typeIs "submit"));
          self (and (tag "BUTTON") (hasTextCI ">"));
          self (attrHas "data-testid" "next");
          self (attrHas "class" "next") ].

Definition clickQuestionCta : M Sys bool :=
  let strictTexts := ["continue"; "next"; "see results"; "get plan"; "show my plan"; "unlock";
                      "start"; "begin"; "get started"; "claim"; "yes"; "submit"] in
  byText <- clickByText strictTexts ;;
  if byText then ret true
  else
    anyText <- clickAnyByText strictTexts ;;
    if anyText then ret true else ret false.

(** *** The email strategies *)

(** [getSnapshot] of runEmailSubmitChain: the address and the length of the markup. *)
Definition getSnapshot : M Sys string :=
  html <- orElse pageContent EmptyString ;;
  u <- pageUrl ;;
  ret (u ++ "|" ++ Text.ofNat (String.length html)).

(** [(await l.count()) > 0 && (await l.isVisible().catch(() => false))] *)
Definition presentAndVisible (l : Locator) : M Sys bool :=
  c <- count l ;;
  if 0 <? c then orElse (locatorIsVisible l) false else ret false.

(** [/(continue|next|see|start|submit|get plan|unlock|send|sign up|register)/i] *)
Definition submitTexts : Regex.t :=
  mk (alts ["continue"; "next"; "see"; "start"; "submit"; "get plan"; "unlock"; "send";
            "sign up"; "register"]) true.

(** One of the two click attempts of runEmailSubmitChain: the messages so
    far, and whether the chain returns here. *)
Definition submitAttempt (l : Locator) (before : string) (clickedMsg transitionMsg : string)
           (messages : list string) : M Sys (bool * list string) :=
  v <- presentAndVisible l ;;
  if v then
    clicked <- clickLocator l ;;
    if clicked then
      perform (WaitForTimeout 1000%N) ;;
      after <- getSnapshot ;;
      if negb (String.eqb after before)
      then ret (true, push (push messages clickedMsg) transitionMsg)
      else ret (false, push messages clickedMsg)
    else ret (false, messages)
  else ret (false, messages).

Definition runEmailSubmitChain : M Sys (list string) :=
  beforeSubmitSnapshot <- getSnapshot ;;
  let email := LFirst (Loc (anyOf [self (and (tag "INPUT") (typeIs "email"));
                                   self (and (tag "INPUT") (attrHasCI "placeholder" "email"))])) in
  v <- presentAndVisible email ;;
  messages <- (if v then
                 perform (ScrollIntoViewIfNeeded email) ;;
                 perform (Fill email INPUT_DEFAULTS.email) ;;
                 ignoreErrors (perform (KeyboardPress "Tab")) ;;
                 perform (WaitForTimeout 300%N) ;;
                 ignoreErrors (perform (KeyboardPress "Enter")) ;;
                 perform (WaitForTimeout 1000%N) ;;
                 ret ["Filled email=" ++ INPUT_DEFAULTS.email; "Triggered blur + Enter."]
               else ret []) ;;
  afterEnterSnapshot <- getSnapshot ;;
  if negb (String.eqb afterEnterSnapshot beforeSubmitSnapshot)
  then ret (push messages "Transition detected after Enter.")
  else
    let submitButton :=
      LFirst (LFilter (Loc (anyOf [self (tag "BUTTON"); self (attrIs "role" "button");
                                   self (and (tag "INPUT") (typeIs "submit"))]))
                      submitTexts) in
    '(returned, messages) <- submitAttempt submitButton beforeSubmitSnapshot
                               "Clicked email submit button."
                               "Transition detected after email CTA click." messages ;;
    if returned then ret messages
    else
      let genericSubmit :=
        LFirst (Loc (anyOf [self (and (tag "BUTTON") (typeIs "submit"));
                            self (and (tag "INPUT") (typeIs "submit"))])) in
      '(returned, messages) <- submitAttempt genericSubmit beforeSubmitSnapshot
                                 "Clicked generic submit control."
                                 "Transition detected after generic submit click." messages ;;
      if returned then ret messages
      else
        submittedByJs <- orElse
          (els <- pageDom ;;
           match resolve els (Loc (self (tag "FORM"))) with
           | form :: _ => perform (DomFormSubmit (id (node form))) ;; ret true
           | [] => ret false
           end)
          false ;;
        if submittedByJs then ret (push messages "Submitted form via JS fallback.")
        else ret messages.

Definition fillEmailByHints : M Sys bool :=
  let emailLike :=
    LFirst (Loc (anyOf [self (and (tag "INPUT") (attrHasCI "name" "email"));
                        self (and (tag "INPUT") (attrHasCI "placeholder" "email"));
                        self (and (tag "INPUT") (attrHasCI "placeholder" "e-mail"));
                        self (and (tag "INPUT") (attrHasCI "aria-label" "email"))])) in
  v <- presentAndVisible emailLike ;;
  if negb v then ret false
  else tryCatch (perform (Fill emailLike INPUT_DEFAULTS.email) ;; ret true) (fun _ => ret false).

Definition submitEmailStep : M Sys (list string) :=
  messages <- runEmailSubmitChain ;;
  c <- count (LFirst (Loc (self (and (tag "INPUT") (typeIs "email"))))) ;;
  if c =? 0 then
    filledByHints <- fillEmailByHints ;;
    if filledByHints then
      ignoreErrors (perform (KeyboardPress "Tab")) ;;
      ignoreErrors (perform (KeyboardPress "Enter")) ;;
      ret (push messages "Filled email-like input by descriptor hints.")
    else ret messages
  else ret messages.

(** *** Option selection *)

Definition SMART_KEYWORDS : list string :=
  ["personal"; "custom"; "plan"; "result"; "my"; "recommend"; "tailored"; "detailed";
   "unlock"; "see"; "show"].

(** [SMART_KEYWORDS.some((k) => text.includes(k))] *)
Definition isSmart (text : string) : bool :=
  existsb (fun k => Text.includes k text) SMART_KEYWORDS.

(** The in-page script of getOptionLabelText, on the element [e] of the page [els]. *)
Definition optionLabelText (els : list Element) (e : Element) : string :=
  if negb (isHTMLElement (node e)) then EmptyString
  else
    let ident := orEmpty (getAttribute "id" (node e)) in
    match (if nonEmpty ident
           then resolve els (Loc (self (and (tag "LABEL") (attrIs "for" ident))))
           else []) with
    | lbl :: _ => Text.toLowerCase (innerText (node lbl))
    | [] =>
        match find (tag "LABEL") (node e :: ancestors e) with
        | Some wrapping => Text.toLowerCase (innerText wrapping)
        | None =>
            match find (fun cur => let text := Text.trim (textContent cur) in
                                   (0 <? String.length text) && (String.length text <? 120))
                       (firstn 4 (ancestors e)) with
            | Some cur => Text.toLowerCase (Text.trim (textContent cur))
            | None => EmptyString
            end
        end
    end.

Definition getOptionLabelText (l : Locator) : M Sys string :=
  orElse (els <- pageDom ;; e <- element l ;; ret (optionLabelText els e)) EmptyString.

(** ["input[type='radio'], input[type='checkbox'], [role='radio'], [role='checkbox']"] *)
Definition radioOrCheckbox : Selector :=
  anyOf [self (and (tag "INPUT") (typeIs "radio")); self (and (tag "INPUT") (typeIs "checkbox"));
         self (attrIs "role" "radio"); self (attrIs "role" "checkbox")].

Fixpoint collectOptionLabels (allInputs : Locator) (indices : list nat)
  : M Sys (list (nat * string)) :=
  match indices with
  | [] => ret []
  | i :: rest =>
      text <- getOptionLabelText (LNth allInputs i) ;;
      more <- collectOptionLabels allInputs rest ;;
      ret ((i, text) :: more)
  end.

(** The message of the error that reading a property of [undefined] raises. *)
Definition undefinedMessage : string := "Cannot read properties of undefined".

(** [fallbackOptionShift += 1] *)
Definition bumpShift : M Sys unit :=
  modify (fun s => mkSys (world s) (fallbackOptionShift s + 1)).

(** The selection of clickOptionWithLabel among the candidates (index and
    label text): the chosen index and the messages. *)
Definition chooseOptionIndex (candidates : list (nat * string))
  : M Sys (option nat * list string) :=
  match find (fun c => isSmart (snd c)) candidates with
  | Some (index, text) =>
      ret (Some index,
           ["SMART: picked option " ++ Text.ofNat index ++ " by keyword match: "
            ++ dq ++ Text.slice0 60 text ++ dq])
  | None =>
      if 2 <=? List.length candidates then
        shift <- gets fallbackOptionShift ;;
        let cap := Nat.min (List.length candidates) 4 in
        let rotateIndex := shift mod cap in
        match nth_error candidates rotateIndex with
        | Some (chosenIndex, _) =>
            bumpShift ;;
            ret (Some chosenIndex,
                 ["SMART: no keyword match, picked rotating option "
                  ++ Text.ofNat (rotateIndex + 1) ++ "/" ++ Text.ofNat (List.length candidates)
                  ++ " (index " ++ Text.ofNat chosenIndex ++ ")."])
        | None => throw undefinedMessage
        end
      else
        match candidates with
        | (index, _) :: _ =>
            ret (Some index,
                 ["SMART: single option, picked first (index " ++ Text.ofNat index ++ ")."])
        | [] => ret (None, [])
        end
  end.

(** The in-page script that clicks the nearest clickable ancestor of the chosen option. *)
Definition clickClickableParent (chosen : Locator) : M Sys bool :=
  e <- element chosen ;;
  match find (fun current => String.eqb (cursor current) "pointer"
                             || String.eqb (tagName current) "LABEL"
                             || attrIs "role" "option" current
                             || onclick current)
             (firstn 5 (ancestors e)) with
  | Some current => perform (DomClick (id current)) ;; ret true
  | None => ret false
  end.

Definition clickOptionWithLabel : M Sys (bool * list string) :=
  let allInputs := Loc radioOrCheckbox in
  total <- count allInputs ;;
  if total =? 0 then ret (false, [])
  else
    candidates <- collectOptionLabels allInputs (List.seq 0 (Nat.min total 20)) ;;
    '(chosenIndex, messages) <- chooseOptionIndex candidates ;;
    match chosenIndex with
    | None => ret (false, messages)
    | Some chosenIndex =>
        let chosen := LNth allInputs chosenIndex in
        role <- orElse (locatorGetAttribute chosen "role") (Some EmptyString) ;;
        inputType <- orElse (locatorGetAttribute chosen "type") (Some EmptyString) ;;
        let role := orEmpty role in
        let inputType := orEmpty inputType in
        done <- (if String.eqb inputType "radio" || String.eqb inputType "checkbox"
                 then tryCatch (perform (Check chosen) ;;
                                ret (Some "Set chosen option via input.check()."))
                               (fun _ => ret None)
                 else if String.eqb role "radio" || String.eqb role "checkbox"
                 then clicked <- clickLocator chosen ;;
                      ret (if clicked then Some "Clicked chosen ARIA radio/checkbox control."
                           else None)
                 else ret None) ;;
        match done with
        | Some m => ret (true, push messages m)
        | None =>
            inputId <- orElse (locatorGetAttribute chosen "id") None ;;
            labelClicked <-
              (if nonEmpty (orEmpty inputId) then
                 let label := LFirst (Loc (self (and (tag "LABEL")
                                                     (attrIs "for" (orEmpty inputId))))) in
                 v <- presentAndVisible label ;;
                 if v then clickLocator label else ret false
               else ret false) ;;
            if labelClicked then ret (true, push messages "Clicked label for chosen option.")
            else
              parentClicked <- clickClickableParent chosen ;;
              if parentClicked
              then ret (true, push messages "Clicked parent container of chosen option.")
              else
                direct <- clickLocator chosen ;;
                if direct
                then ret (true, push messages "Clicked chosen radio/checkbox input directly.")
                else ret (false, messages)
        end
    end.

(** The [navCta] of clickFirstOptionButton, which adds [adjust]. *)
Definition navCtaButtons : Regex.t :=
  mk (RSeq RBol (alt [RLit "accept"; RLit "reject"; RLit "allow"; RLit "agree"; RLit "cookie";
                      RLit "close"; RLit "skip"; RSeq (RLit "setting") (ROpt (RLit "s"));
                      RLit "einstellung"; RLit "datenschutz"; RLit "terms"; RLit "privacy";
                      RLit "ablehnen"; RLit "akzeptieren"; RLit "adjust"])) true.

(** The loop of clickFirstOptionButton: the candidates (button index and
    text) and the count of language names. *)
Fixpoint collectButtons (buttons : Locator) (indices : list nat)
  : M Sys (list (nat * string) * nat) :=
  match indices with
  | [] => ret ([], 0)
  | i :: rest =>
      raw <- orElse (locatorInnerText (LNth buttons i)) EmptyString ;;
      let text := Text.trim raw in
      '(candidates, languageOnlyCount) <- collectButtons buttons rest ;;
      if (0 <? String.length text) && (String.length text <? 60) && negb (test navCtaButtons text)
      then if test Classifier.languageOption text
           then ret (candidates, languageOnlyCount + 1)
           else ret ((i, text) :: candidates, languageOnlyCount)
      else ret (candidates, languageOnlyCount)
  end.

(** The selection of clickFirstOptionButton among the candidates. *)
Definition chooseButton (candidates : list (nat * string))
  : M Sys (option (nat * string) * list string) :=
  match find (fun c => isSmart (Text.toLowerCase (snd c))) candidates with
  | Some c =>
      ret (Some c, ["SMART: picked button by keyword: " ++ dq ++ Text.slice0 60 (snd c) ++ dq])
  | None =>
      if 2 <=? List.length candidates then
        shift <- gets fallbackOptionShift ;;
        let cap := Nat.min (List.length candidates) 4 in
        let rotateIndex := shift mod cap in
        bumpShift ;;
        match nth_error candidates rotateIndex with
        | Some chosen =>
            ret (Some chosen,
                 ["SMART: no keyword match, picked rotating button "
                  ++ Text.ofNat (rotateIndex + 1) ++ "/" ++ Text.ofNat (List.length candidates)
                  ++ ": " ++ dq ++ Text.slice0 60 (snd chosen) ++ dq])
        | None => throw undefinedMessage
        end
      else
        match candidates with
        | chosen :: _ =>
            ret (Some chosen,
                 ["SMART: single candidate, picked first button: "
                  ++ dq ++ Text.slice0 60 (snd chosen) ++ dq])
        | [] => throw undefinedMessage
        end
  end.

Definition clickFirstOptionButton : M Sys (bool * list string) :=
  let buttons := Loc Classifier.visibleButtons in
  c <- count buttons ;;
  '(candidates, languageOnlyCount) <- collectButtons buttons (List.seq 0 (Nat.min c 20)) ;;
  if (List.length candidates =? 0) && (4 <=? languageOnlyCount)
  then ret (false, ["Skipped language switcher buttons; not treating as question options."])
  else if List.length candidates =? 0 then ret (false, [])
  else
    '(chosen, messages) <- chooseButton candidates ;;
    match chosen with
    | None => ret (false, messages)
    | Some (index, text) =>
        clicked <- clickLocator (LNth buttons index) ;;
        if clicked
        then ret (true, push messages ("Clicked option button: " ++ dq ++ text ++ dq ++ "."))
        else ret (false, messages)
    end.

(** The candidates of clickFirstOptionCard: text and index among the cards. *)
Fixpoint indexed (i : nat) (cards : list Element) : list (string * nat) :=
  match cards with
  | [] => []
  | e :: rest => (Text.trim (textContent (node e)), i) :: indexed (i + 1) rest
  end.

(** The selection of clickFirstOptionCard among the candidates. *)
Definition chooseCard (smartKeywords : list string) (results : list (string * nat))
  : option (string * nat) :=
  match find (fun c => existsb (fun k => Text.includes k (Text.toLowerCase (fst c))) smartKeywords)
             results with
  | Some c => Some c
  | None =>
      if 2 <=? List.length results then nth_error results 1
      else if 1 <=? List.length results then nth_error results 0
      else None
  end.

(** The in-page script of clickFirstOptionCard: the text of the card it
    clicked and whether that text has a smart keyword. *)
Definition clickCardScript (smartKeywords : list string) : M Sys (option (string * bool)) :=
  els <- pageDom ;;
  let results := indexed 0 (Classifier.scanCards [] els) in
  match chooseCard smartKeywords results with
  | None => ret None
  | Some chosen =>
      match nth_error (Classifier.scanCards [] els) (snd chosen) with
      | Some e =>
          perform (DomClick (id (node e))) ;;
          let t := Text.trim (textContent (node e)) in
          ret (Some (t, existsb (fun k => Text.includes k (Text.toLowerCase t)) smartKeywords))
      | None => ret None
      end
  end.

Definition clickFirstOptionCard : M Sys (bool * list string) :=
  cards <- clickCardScript SMART_KEYWORDS ;;
  match cards with
  | Some (text, smart) =>
      let label := if smart then "SMART keyword match" else "fallback" in
      ret (true, ["Clicked option card (" ++ label ++ "): " ++ dq ++ text ++ dq ++ "."])
  | None => ret (false, [])
  end.

(** *** clickOtherCta *)

Definition clickOtherCta : M Sys ActionResult :=
  let ctaTexts := ["start"; "continue"; "next"; "begin"; "get started"; "unlock"; "let's go";
                   "go on"; "see"; "get"; "show"; "claim"; "yes"; "submit"] in
  clickedByText <- clickByText ctaTexts ;;
  if clickedByText then
    perform (WaitForTimeout 1500%N) ;;
    ret (mkActionResult true ["Clicked other-screen CTA by text."])
  else
    clickedAnyText <- clickAnyByText ctaTexts ;;
    if clickedAnyText then
      perform (WaitForTimeout 1500%N) ;;
      ret (mkActionResult true ["Clicked other-screen CTA by loose text match."])
    else
      optBtn <- clickFirstOptionButton ;;
      if fst optBtn then ret (mkActionResult true (snd optBtn))
      else
        optCard <- clickFirstOptionCard ;;
        if fst optCard then ret (mkActionResult true (snd optCard))
        else
          clickedFallback <- clickFirstVisible
            [ self (tag "BUTTON"); self (attrIs "role" "button");
              self (and (tag "A") (hasAttr "onclick")); self (and (tag "DIV") (hasAttr "onclick"));
              self (attrHasCI "class" "button"); self (attrHasCI "class" "cta") ] ;;
          if clickedFallback then
            perform (WaitForTimeout 1500%N) ;;
            ret (mkActionResult true ["Clicked other-screen fallback CTA."])
          else ret (mkActionResult false []).

(** *** handleStepAction, one definition per case of the switch *)

Definition handleQuestion (messages : list string) : M Sys ActionResult :=
  radioOrCheckboxCount <- orElse (count (Loc radioOrCheckbox)) 0 ;;
  optionResult <- clickOptionWithLabel ;;
  let messages := (messages ++ snd optionResult)%list in
  let clickedOption := fst optionResult in
  '(clickedOption, messages) <-
    (if negb clickedOption && (radioOrCheckboxCount =? 0) then
       btnResult <- clickFirstOptionButton ;;
       ret (fst btnResult, (messages ++ snd btnResult)%list)
     else ret (clickedOption, messages)) ;;
  '(clickedOption, messages) <-
    (if negb clickedOption && (radioOrCheckboxCount =? 0) then
       cardResult <- clickFirstOptionCard ;;
       ret (fst cardResult, (messages ++ snd cardResult)%list)
     else ret (clickedOption, messages)) ;;
  clickedContinue <- clickQuestionCta ;;
  '(pressedEnterFallback, messages) <-
    (if clickedContinue then ret (false, push messages "Clicked strict question CTA.")
     else
       ignoreErrors (perform (KeyboardPress "Enter")) ;;
       ret (true, push messages "Pressed Enter as question CTA fallback.")) ;;
  ret (mkActionResult (clickedOption || clickedContinue || pressedEnterFallback) messages).

(** The guess of a value from the text of the page, in the input case. *)
Definition guessFromBodyInput (bodyText : string) : string :=
  if test (mk (alts ["height"; "cm"; "how tall"]) true) bodyText then INPUT_DEFAULTS.height
  else if test (mk (alts ["weight"; "kg"; "lbs"]) true) bodyText then INPUT_DEFAULTS.weight
  else if test (mk (alts ["age"; "how old"; "years"]) true) bodyText then INPUT_DEFAULTS.age
  else if test (mk (alts ["name"]) true) bodyText then INPUT_DEFAULTS.name
  else "1".

Fixpoint dispatchInputEvents (allInputs : Locator) (indices : list nat) : M Sys unit :=
  match indices with
  | [] => ret tt
  | i :: rest =>
      ignoreErrors (perform (DispatchEvent (LNth allInputs i) "input")) ;;
      ignoreErrors (perform (DispatchEvent (LNth allInputs i) "change")) ;;
      dispatchInputEvents allInputs rest
  end.

(** The end of the input case, once a field is filled. *)
Definition continueAfterFill (fillMessages messages : list string) : M Sys ActionResult :=
  let messages := push messages "Input filled. Attempting continue." in
  perform (WaitForTimeout 250%N) ;;
  clickedContinue <- clickContinue ;;
  '(clickedContinue, messages) <-
    (if negb clickedContinue then
       let allInputs := Loc (anyOf visibleTextInputs) in
       inputCount <- count allInputs ;;
       dispatchInputEvents allInputs (List.seq 0 inputCount) ;;
       perform (WaitForTimeout 150%N) ;;
       again <- clickContinue ;;
       ret (again, if negb again
                   then push messages "Continue button still disabled after fill."
                   else messages)
     else ret (clickedContinue, messages)) ;;
  let messages := if clickedContinue then push messages "Clicked continue/next." else messages in
  ret (mkActionResult ((0 <? List.length fillMessages) || clickedContinue) messages).

Definition handleInput (messages : list string) : M Sys ActionResult :=
  let messages := push messages "Input screen detected. Filling fields." in
  fillMessages <- fillInputByHints ;;
  let messages := (messages ++ fillMessages)%list in
  if List.length fillMessages =? 0 then
    bodyText <- bodyTextOrEmpty ;;
    let value := guessFromBodyInput (Text.toLowerCase bodyText) in
    let anyInput := LFirst (Loc (anyOf visibleTextInputs)) in
    c <- count anyInput ;;
    if 0 <? c then
      reactSafeType anyInput value ;;
      continueAfterFill fillMessages (push messages ("Filled fallback input=" ++ value))
    else
      let messages := push messages "No input fields found. Treating as info screen." in
      clickedContinue <- clickContinue ;;
      if clickedContinue
      then ret (mkActionResult true (push messages "Clicked continue/next (no-input fallback)."))
      else
        fallback <- clickFirstVisible [Classifier.visibleButtons] ;;
        if fallback
        then ret (mkActionResult true (push messages "Clicked fallback button (no-input screen)."))
        else
          perform (WaitForTimeout 10000%N) ;;
          ret (mkActionResult true
                 (push messages "Waited 10s for animated transition (no inputs, no CTA)."))
  else continueAfterFill fillMessages messages.

(** Strategy 1 of the consent check boxes: click each label that wraps one. *)
Fixpoint clickConsentLabels (labelsWithCb : Locator) (indices : list nat)
           (messages : list string) : M Sys (list string) :=
  match indices with
  | [] => ret messages
  | i :: rest =>
      tryCatch (perform (Click (LNth labelsWithCb i) false))
               (fun _ => ignoreErrors (perform (Click (LNth labelsWithCb i) true))) ;;
      perform (WaitForTimeout 200%N) ;;
      clickConsentLabels labelsWithCb rest
        (push messages ("Clicked consent label " ++ Text.ofNat (i + 1) ++ "."))
  end.

(** The in-page script of strategy 2: a click event on the nearest
    clickable ancestor of the check box, else on the check box. *)
Definition consentAncestorClick (cb : Locator) : M Sys bool :=
  e <- element cb ;;
  match find (fun cur => String.eqb (tagName cur) "LABEL"
                         || String.eqb (cursor cur) "pointer"
                         || attrIs "role" "checkbox" cur)
             (firstn 6 (ancestors e)) with
  | Some cur => perform (DomDispatchClick (id cur)) ;; ret true
  | None => perform (DomDispatchClick (id (node e))) ;; ret true
  end.

Fixpoint clickConsentBoxes (checkboxes : Locator) (indices : list nat)
           (messages : list string) : M Sys (list string) :=
  match indices with
  | [] => ret messages
  | i :: rest =>
      let cb := LNth checkboxes i in
      alreadyChecked <- orElse (locatorIsChecked cb) false ;;
      if alreadyChecked then clickConsentBoxes checkboxes rest messages
      else
        clicked <- consentAncestorClick cb ;;
        if clicked then
          perform (WaitForTimeout 200%N) ;;
          clickConsentBoxes checkboxes rest
            (push messages ("Clicked consent checkbox " ++ Text.ofNat (i + 1) ++ " via ancestor."))
        else clickConsentBoxes checkboxes rest messages
  end.

(** The first part of the email case: fill the email field and submit.
    Gives the messages of the email steps and the messages so far. *)
Definition fillEmail (messages : list string) : M Sys (list string * list string) :=
  let realEmailInput := LFirst (Loc (self (and (tag "INPUT") (typeIs "email")))) in
  hasRealEmail <- presentAndVisible realEmailInput ;;
  if negb hasRealEmail then
    let messages :=
      push messages "Email screen has no input[type=email]. Using email-like text input fallback." in
    let emailLikeInput :=
      LFirst (Loc (anyOf [self (and (and (tag "INPUT") (attrHasCI "placeholder" "email")) isVisible);
                          self (and (and (tag "INPUT") (attrHasCI "name" "email")) isVisible);
                          self (and (and (tag "INPUT") (attrHasCI "aria-label" "email")) isVisible);
                          self (and (and (tag "INPUT") (typeIs "text")) isVisible);
                          self (and (and (tag "INPUT") (not (hasAttr "type"))) isVisible)])) in
    c <- count emailLikeInput ;;
    if 0 <? c then
      reactSafeType emailLikeInput INPUT_DEFAULTS.email ;;
      ignoreErrors (perform (KeyboardPress "Tab")) ;;
      ignoreErrors (perform (KeyboardPress "Enter")) ;;
      ret (["Filled email=" ++ INPUT_DEFAULTS.email ++ " (text input fallback)."], messages)
    else
      fillMessages <- fillInputByHints ;;
      ret (fillMessages, (messages ++ fillMessages)%list)
  else
    emailMessages <- submitEmailStep ;;
    ret (emailMessages, messages).

(** The second part of the email case: the consent check boxes. *)
Definition clickConsent (messages : list string) : M Sys (list string) :=
  let labelsWithCb := Loc (has (tag "LABEL") (and (tag "INPUT") (typeIs "checkbox"))) in
  labelsCount <- count labelsWithCb ;;
  messages <- clickConsentLabels labelsWithCb (List.seq 0 labelsCount) messages ;;
  if labelsCount =? 0 then
    let checkboxes := Loc (self (and (tag "INPUT") (typeIs "checkbox"))) in
    cbCount <- count checkboxes ;;
    clickConsentBoxes checkboxes (List.seq 0 cbCount) messages
  else ret messages.

Definition handleEmail (messages : list string) : M Sys ActionResult :=
  '(emailMessages, messages) <- fillEmail messages ;;
  let messages := (messages ++ emailMessages)%list in
  messages <- clickConsent messages ;;
  clickedContinue <- clickContinue ;;
  let messages := if clickedContinue then push messages "Clicked continue/next." else messages in
  let emailTransitionDetected :=
    existsb (fun message => Text.includes "Transition detected" message) emailMessages in
  ret (mkActionResult (clickedContinue || emailTransitionDetected) messages).

Definition handleInfo (messages : list string) : M Sys ActionResult :=
  clickedContinue <- clickContinue ;;
  if clickedContinue
  then ret (mkActionResult clickedContinue (push messages "Clicked continue/next."))
  else
    fallback <- clickFirstVisible [Classifier.visibleButtons] ;;
    if fallback
    then ret (mkActionResult true (push messages "Clicked fallback button on info screen."))
    else ret (mkActionResult clickedContinue messages).

Definition handleOther (popupMessages : list string) : M Sys ActionResult :=
  otherAction <- clickOtherCta ;;
  ret (mkActionResult (performed otherAction) (popupMessages ++ messages otherAction)%list).

Definition handleStepAction (t : ScreenType) : M Sys ActionResult :=
  messages <- closeCommonPopups ;;
  match t with
  | question => handleQuestion messages
  | input => handleInput messages
  | email => handleEmail messages
  | info => handleInfo messages
  | other => handleOther messages
  | paywall => ret (mkActionResult false messages)
  end.

End StepHandler.

Arguments perform : clear implicits.
Arguments pageUrl : clear implicits.
Arguments pageContent : clear implicits.
Arguments pageDom : clear implicits.
Arguments handleStepAction : clear implicits.

(** ** The funnel driver loop (runner/runFunnel.ts) *)

(** [RUN_CONFIG] of config.ts. *)
Module RUN_CONFIG.
Definition maxSteps : nat := 60.
Definition sameDomHashLimit : nat := 12.
Definition actionRetryCount : nat := 1.
Definition defaultTimeoutMs : N := 20000%N.
End RUN_CONFIG.

(** The paths of a funnel, which [buildFunnelPaths] derives from its address. *)
Record FunnelPaths := mkPaths {
  slug : string;
  funnelDir : string;
  logPath : string
}.

(** [buildScreenshotFilename] and [buildClassifiedFilename] of utils/fileManager.ts. *)
Definition buildScreenshotFilename (stepNumber : nat) (type : string) : string :=
  Text.pad2 stepNumber ++ "_" ++ type ++ ".png".

Definition buildClassifiedFilename (slug : string) (stepNumber : nat) (type : string) : string :=
  slug ++ "_" ++ Text.pad2 stepNumber ++ "_" ++ type ++ ".png".

Record FunnelRunSummary := mkSummary {
  summaryUrl : string;
  summaryTotalSteps : nat;
  summaryDetectedTypes : list ScreenType;
  summaryReachedPaywall : bool
}.

(** ** The names of the evidence files (utils/fileManager.ts) *)

Module FileManager.

(** The class [[a-z0-9]]. *)
Definition isSlugChar (c : ascii) : bool :=
  let n := nat_of_ascii c in
  ((97 <=? n) && (n <=? 122)) || ((48 <=? n) && (n <=? 57)).

Definition isDash (c : ascii) : bool := Ascii.eqb c "-".

(** [s.replace(/[^a-z0-9]+/g, "-")]: every maximal run of other characters
    becomes one dash. *)
Fixpoint dashRuns (inRun : bool) (s : string) : string :=
  match s with
  | EmptyString => EmptyString
  | String c s' =>
      if isSlugChar c then String c (dashRuns false s')
      else if inRun then dashRuns true s' else String "-" (dashRuns true s')
  end.

(** The two alternatives of [s.replace(/^-+|-+$/g, "")]: the dashes at the
    start, and the dashes at the end. *)
Fixpoint dropLeadingDashes (s : string) : string :=
  match s with
  | String c s' => if isDash c then dropLeadingDashes s' else s
  | EmptyString => EmptyString
  end.

Fixpoint dropTrailingDashes (s : string) : string :=
  match s with
  | EmptyString => EmptyString
  | String c s' =>
      match dropTrailingDashes s' with
      | EmptyString => if isDash c then EmptyString else String c EmptyString
      | rest => String c rest
      end
  end.

(** [sanitize]; it is applied to the parts of a parsed address, which are
    ASCII text. *)
Definition sanitize (segment : string) : string :=
  dropTrailingDashes (dropLeadingDashes (dashRuns false (Text.toLowerCase segment))).

(** What [new URL(rawUrl)] gives of an address. *)
Record ParsedUrl := mkParsedUrl {
  hostname : string;
  pathname : string;
  search : string
}.

(** [s.replace(/^www\./, "")] *)
Definition dropWww (s : string) : string :=
  match Text.stripPrefix false "www." s with
  | Some rest => rest
  | None => s
  end.

(** [s.replace(/[?=&]/g, "-")] *)
Fixpoint dashQuery (s : string) : string :=
  match s with
  | EmptyString => EmptyString
  | String c s' =>
      String (if Ascii.eqb c "?" || Ascii.eqb c "=" || Ascii.eqb c "&" then "-"%char else c)
             (dashQuery s')
  end.

(** [slugFromUrl], from the parsed address on. *)
Definition slugFromUrl (parsed : ParsedUrl) : string :=
  let host := sanitize (dropWww (hostname parsed)) in
  let path := sanitize (pathname parsed) in
  let query := sanitize (dashQuery (search parsed)) in
  let joined := Text.slice0 80 (Text.join "-" (filter nonEmpty [host; path; query])) in
  if nonEmpty joined then joined else "funnel".

(** The paths [buildFunnelPaths] gives, the directories made. *)
Definition funnelPaths (parsed : ParsedUrl) : FunnelPaths :=
  let slug := slugFromUrl parsed in
  mkPaths slug ("results/" ++ slug) (("results/" ++ slug) ++ "/log.txt").

(** A text of [[a-z0-9]] and dashes in which no dash follows a dash;
    [dashOk] tells whether a dash may come first. *)
Fixpoint singleDashes (dashOk : bool) (s : string) : bool :=
  match s with
  | EmptyString => true
  | String c s' =>
      if isSlugChar c then singleDashes true s'
      else isDash c && dashOk && singleDashes false s'
  end.

(** The text has only characters of [[a-z0-9-]]. *)
Fixpoint slugText (s : string) : bool :=
  match s with
  | EmptyString => true
  | String c s' => (isSlugChar c || isDash c) && slugText s'
  end.

(** The last character of a text. *)
Fixpoint lastChar (s : string) : option ascii :=
  match s with
  | EmptyString => None
  | String c EmptyString => Some c
  | String _ s' => lastChar s'
  end.

Definition firstChar (s : string) : option ascii :=
  match s with
  | EmptyString => None
  | String c _ => Some c
  end.

Definition isSomeDash (c : option ascii) : bool :=
  match c with
  | Some c => isDash c
  | None => false
  end.

(** A text of [[a-z0-9]] and single dashes, none at its start or end. *)
Definition clean (s : string) : bool :=
  singleDashes true s && negb (isSomeDash (firstChar s)) && negb (isSomeDash (lastChar s)).

(** The number a text of decimal digits writes. *)
Definition readNat (s : string) : option nat :=
  option_map Nat.of_uint (NilEmpty.uint_of_string s).

End FileManager.

(** Which [break] or loop condition ended the loop. *)
Inductive StopReason :=
| StepBudget          (* [!emailReached && step > maxSteps] *)
| ExtendedBudget      (* [step > maxSteps + 15] *)
| PageClosed          (* [page.isClosed()] at the head of a step *)
| PaywallReached
| LoopDetected        (* repeated fingerprint and no action *)
| ClosedDuringAction
| NoActionTwice
| ClosedDuringStep.

(** How one pass through the body of the loop ends. *)
Inductive Flow :=
| Continue
| Break (r : StopReason).

Section Runner.
Variable E : Env.
Variable paths : FunnelPaths.
Import Dom.

(** The variables of [runFunnel], with the state the dispatcher runs in.
    [iterations] is not a variable of the source: it counts the passes
    through the body of the loop that got past the two budget checks. *)
Record Run := mkRun {
  sys : Sys E;
  previousHash : string;
  sameHashCount : nat;
  noActionCount : nat;
  emailReached : bool;
  detectedTypes : list ScreenType;
  reachedPaywall : bool;
  totalSteps : nat;
  stepMessages : list string;
  iterations : nat
}.

Definition setSys (s : Sys E) (r : Run) : Run :=
  mkRun s (previousHash r) (sameHashCount r) (noActionCount r) (emailReached r)
        (detectedTypes r) (reachedPaywall r) (totalSteps r) (stepMessages r) (iterations r).

(** A computation of the dispatcher's state, run by the driver. *)
Definition onPage {A} (m : M (Sys E) A) : M Run A := zoom sys setSys m.

Definition setHash (h : string) (n : nat) : M Run unit :=
  modify (fun r => mkRun (sys r) h n (noActionCount r) (emailReached r)
                         (detectedTypes r) (reachedPaywall r) (totalSteps r) (stepMessages r)
                         (iterations r)).

Definition setNoActionCount (n : nat) : M Run unit :=
  modify (fun r => mkRun (sys r) (previousHash r) (sameHashCount r) n (emailReached r)
                         (detectedTypes r) (reachedPaywall r) (totalSteps r) (stepMessages r)
                         (iterations r)).

(** [detectedTypes.add(t)] on a [Set]: insertion order, no repetition. *)
Definition setAdd (t : ScreenType) (l : list ScreenType) : list ScreenType :=
  if existsb (ScreenType_eqb t) l then l else (l ++ [t])%list.

(** [totalSteps += 1; detectedTypes.add(t); if (t === "email") emailReached = true] *)
Definition recordStep (t : ScreenType) : M Run unit :=
  modify (fun r => mkRun (sys r) (previousHash r) (sameHashCount r) (noActionCount r)
                         (if ScreenType_eqb t email then true else emailReached r)
                         (setAdd t (detectedTypes r)) (reachedPaywall r) (totalSteps r + 1)
                         (stepMessages r) (iterations r)).

Definition setReachedPaywall : M Run unit :=
  modify (fun r => mkRun (sys r) (previousHash r) (sameHashCount r) (noActionCount r)
                         (emailReached r) (detectedTypes r) true (totalSteps r)
                         (stepMessages r) (iterations r)).

Definition setStepMessages (ms : list string) : M Run unit :=
  modify (fun r => mkRun (sys r) (previousHash r) (sameHashCount r) (noActionCount r)
                         (emailReached r) (detectedTypes r) (reachedPaywall r) (totalSteps r)
                         ms (iterations r)).

(** [stepMessages.push(m1, m2, ...)] *)
Definition say (ms : list string) : M Run unit :=
  modify (fun r => mkRun (sys r) (previousHash r) (sameHashCount r) (noActionCount r)
                         (emailReached r) (detectedTypes r) (reachedPaywall r) (totalSteps r)
                         (stepMessages r ++ ms)%list (iterations r)).

Definition countIteration : M Run unit :=
  modify (fun r => mkRun (sys r) (previousHash r) (sameHashCount r) (noActionCount r)
                         (emailReached r) (detectedTypes r) (reachedPaywall r) (totalSteps r)
                         (stepMessages r) (iterations r + 1)).

Definition do (a : Action) : M Run unit := onPage (perform E a).

(** [logger.step(step, type, stepMessages)] *)
Definition loggerStep (step : nat) (t : ScreenType) : M Run unit :=
  ms <- gets stepMessages ;;
  do (LoggerStep step (typeName t) ms).

(** [logger.event(stepMessages.join(" | "))] *)
Definition loggerEventJoined : M Run unit :=
  ms <- gets stepMessages ;;
  do (LoggerEvent (Text.join " | " ms)).

(** [getStableDomSnapshot]: the address, the length of the markup with its
    white space collapsed, and its first 300 characters. *)
Definition getStableDomSnapshot : M (Sys E) string :=
  closed <- gets (fun s => isClosed E (world s)) ;;
  if closed then
    t <- gets (fun s => now E (world s)) ;;
    ret ("CLOSED_PAGE_HASH_" ++ Text.ofNat t)
  else
    u <- pageUrl E ;;
    html <- orElse (pageContent E) EmptyString ;;
    let normalized := Text.trim (Text.collapseSpaces false html) in
    ret (u ++ "|" ++ Text.ofNat (String.length normalized) ++ ":" ++ Text.slice0 300 normalized).

(** [waitForPageTransition] *)
Definition waitForPageTransition (previousUrl : string) : M (Sys E) unit :=
  perform E (WaitForTimeout 2000%N) ;;
  u <- pageUrl E ;;
  if negb (String.eqb u previousUrl)
  then ignoreErrors (perform E (WaitForLoadState 5000%N))
  else ignoreErrors (perform E (RaceTransition previousUrl)).

(** [msg.includes("closed") || msg.includes("Target closed") || msg.includes("has been closed")] *)
Definition saysClosed (msg : string) : bool :=
  Text.includes "closed" msg || Text.includes "Target closed" msg
  || Text.includes "has been closed" msg.

(** [Array.from(new Set(l))] *)
Fixpoint distinct (seen : list string) (l : list string) : list string :=
  match l with
  | [] => []
  | x :: rest =>
      if existsb (String.eqb x) seen then distinct seen rest
      else x :: distinct (x :: seen) rest
  end.

(** [/\$\d+/g] *)
Definition dollarPrice : Regex.t :=
  Regex.mk (Regex.seq [Regex.RLit "$"; Regex.RPlus Regex.CDigit]) false.

(** [classifyScreen(page, step)] with the override of step 1. *)
Definition classifyStep (step : nat) : M Run ScreenClassification :=
  classification <- onPage (observe (fun s => Classifier.classifyScreen E (world s) step)) ;;
  if (step =? 1) && ScreenType_eqb (type classification) paywall
  then ret (mkClassification other "Forced non-paywall on STEP 01.")
  else ret classification.

(** The outcome of the call of the dispatcher inside its [try]: it
    returned a result, it raised an error that tells of a closed page, or it
    raised another error, which leaves [actionResult] as it was initialised,
    [{ performed: false, messages: [] }]. *)
Inductive ActionOutcome :=
| Acted (result : ActionResult)
| ActionFailed
| ActionClosed.

Definition actionResultOf (o : ActionOutcome) : ActionResult :=
  match o with
  | Acted result => result
  | ActionFailed | ActionClosed => mkActionResult false []
  end.

(** The end of a step classified as paywall. *)
Definition paywallStop (step : nat) (t : ScreenType) : M Run Flow :=
  content <- onPage (pageContent E) ;;
  let prices := distinct [] (Regex.matchAll dollarPrice (Text.toLowerCase content)) in
  say ["Paywall detected.";
       "Detected prices: " ++ (if 0 <? List.length prices then Text.join ", " prices else "none");
       "Stopping funnel."] ;;
  setReachedPaywall ;;
  loggerStep step t ;;
  ret (Break PaywallReached).

(** The fingerprint of the page and the counter of its repetitions, with
    the rescue of a stuck email screen; gives the fingerprint. *)
Definition fingerprint (t : ScreenType) : M Run string :=
  domHash <- onPage getStableDomSnapshot ;;
  previous <- gets previousHash ;;
  same <- gets sameHashCount ;;
  setHash domHash (if String.eqb domHash previous then same + 1 else 1) ;;
  same <- gets sameHashCount ;;
  (if ScreenType_eqb t email && (3 <=? same) then
     onPage (ignoreErrors (perform E (KeyboardPress "Enter"))) ;;
     say ["Email screen looked stuck. Pressed Enter rescue."] ;;
     do (WaitForTimeout 2000%N) ;;
     rescueHash <- onPage getStableDomSnapshot ;;
     if negb (String.eqb rescueHash domHash) then setHash rescueHash 1 else ret tt
   else ret tt) ;;
  ret domHash.

(** The branch taken when the fingerprint repeated up to the limit and no
    action was performed twice: a rescue from step 8 on, else the stop. *)
Definition loopRescueOrStop (step : nat) (t : ScreenType) (domHash : string) : M Run Flow :=
  rescued <-
    (if 8 <=? step then
       onPage (ignoreErrors (perform E (KeyboardPress "Enter"))) ;;
       say ["DOM repeated + no action. Pressed Enter rescue before final loop stop."] ;;
       do (WaitForTimeout 2000%N) ;;
       rescueHash <- onPage getStableDomSnapshot ;;
       if negb (String.eqb rescueHash domHash) then
         setHash rescueHash 1 ;;
         loggerStep step t ;;
         ret true
       else ret false
     else ret false) ;;
  if rescued then ret Continue
  else
    same <- gets sameHashCount ;;
    say ["DOM+URL hash repeated " ++ Text.ofNat same
         ++ " times with no action. Stopping to avoid loop."] ;;
    loggerStep step t ;;
    ret (Break LoopDetected).

(** The call of the dispatcher, in its own [try]. *)
Definition dispatch (step : nat) (t : ScreenType) : M Run ActionOutcome :=
  tryCatch
    (result <- onPage (handleStepAction E t) ;; ret (Acted result))
    (fun msg =>
       if saysClosed msg then
         say ["Page closed during action at step " ++ Text.ofNat step ++ ". Stopping."] ;;
         loggerStep step t ;;
         ret ActionClosed
       else
         say ["Action error: " ++ msg] ;;
         ret ActionFailed).

(** The end of a step, from the call of the dispatcher on. *)
Definition actionPhase (step : nat) (t : ScreenType) : M Run Flow :=
  urlBeforeAction <- onPage (pageUrl E) ;;
  outcome <- dispatch step t ;;
  match outcome with
  | ActionClosed => ret (Break ClosedDuringAction)
  | _ =>
      let actionResult := actionResultOf outcome in
      say (messages actionResult) ;;
      if negb (performed actionResult) then
        noAction <- gets noActionCount ;;
        setNoActionCount (noAction + 1) ;;
        noAction <- gets noActionCount ;;
        if 2 <=? noAction then
          say ["No action performed 2 times in a row. Stopping."] ;;
          loggerStep step t ;;
          ret (Break NoActionTwice)
        else
          say ["No action performed. Will retry next step."] ;;
          loggerStep step t ;;
          ret Continue
      else
        setNoActionCount 0 ;;
        onPage (waitForPageTransition urlBeforeAction) ;;
        loggerStep step t ;;
        ret Continue
  end.

(** The [try] block of one step. *)
Definition stepBody (step : nat) : M Run Flow :=
  do (WaitForTimeout 1500%N) ;;
  classification <- classifyStep step ;;
  let t := type classification in
  let fileName := buildScreenshotFilename step (typeName t) in
  let screenshotPath := funnelDir paths ++ "/" ++ fileName in
  do (Screenshot screenshotPath) ;;
  do (CopyToClassified (typeName t) screenshotPath
                       (buildClassifiedFilename (slug paths) step (typeName t))) ;;
  recordStep t ;;
  say ["Classifier: " ++ reason classification; "Saved screenshot: " ++ fileName] ;;
  if ScreenType_eqb t paywall then paywallStop step t
  else
    (* Anti-loop: check DOM + URL snapshot *)
    domHash <- fingerprint t ;;
    (* stop only when BOTH hash limit AND noAction reached *)
    same <- gets sameHashCount ;;
    noAction <- gets noActionCount ;;
    if (RUN_CONFIG.sameDomHashLimit <=? same) && (2 <=? noAction)
    then loopRescueOrStop step t domHash
    else actionPhase step t.

(** The [catch] block of one step. *)
Definition stepCatch (step : nat) (msg : string) : M Run Flow :=
  if saysClosed msg then
    say ["Page closed during step " ++ Text.ofNat step ++ ". Stopping."] ;;
    loggerEventJoined ;;
    ret (Break ClosedDuringStep)
  else
    say ["Step " ++ Text.ofNat step ++ " error: " ++ msg] ;;
    loggerEventJoined ;;
    ret Continue.

(** One pass through the body of the loop, after the budget checks. *)
Definition iteration (step : nat) : M Run Flow :=
  closed <- gets (fun r => isClosed E (world (sys r))) ;;
  if closed then
    do (LoggerEvent "Page was closed externally. Stopping.") ;;
    ret (Break PageClosed)
  else
    setStepMessages [] ;;
    tryCatch (stepBody step) (stepCatch step).

(** [for (let step = ...; step <= RUN_CONFIG.maxSteps + 15; step += 1)]:
    [remaining] is the number of values of [step] still in the range of the loop. *)
Fixpoint loop (remaining : nat) (step : nat) : M Run StopReason :=
  match remaining with
  | O => ret ExtendedBudget
  | S remaining' =>
      reached <- gets emailReached ;;
      if negb reached && (RUN_CONFIG.maxSteps <? step) then ret StepBudget
      else if reached && (RUN_CONFIG.maxSteps + 15 <? step) then ret ExtendedBudget
      else
        countIteration ;;
        flow <- iteration step ;;
        match flow with
        | Continue => loop remaining' (step + 1)
        | Break r => ret r
        end
  end.

Definition runLoop : M Run StopReason := loop (RUN_CONFIG.maxSteps + 15) 1.

(** The variables of [runFunnel] when the loop starts. *)
Definition initialRun (s : Sys E) : Run :=
  mkRun s EmptyString 0 0 false [] false 0 [] 0.

(** The body of the outer [try]: open the address, retrying once, then loop. *)
Definition openAndRun (address : string) : M Run StopReason :=
  tryCatch
    (do (Goto address "domcontentloaded" RUN_CONFIG.defaultTimeoutMs))
    (fun msg =>
       do (LoggerEvent ("page.goto first attempt failed: " ++ msg
                        ++ ". Retrying with networkidle...")) ;;
       tryCatch
         (do (Goto address "networkidle" 25000%N))
         (fun retryMsg =>
            do (LoggerEvent ("page.goto retry also failed: " ++ retryMsg
                             ++ ". Skipping funnel.")) ;;
            throw retryMsg)) ;;
  do (LoggerEvent ("Opened " ++ address)) ;;
  runLoop.

(** [runFunnel], from the opening of the address on: the [return] of the
    [finally] block gives the summary whatever happened before it. *)
Definition runFunnel (address : string) : M Run FunnelRunSummary :=
  ignoreErrors
    (tryCatch (openAndRun address ;; ret tt)
              (fun message => do (LoggerEvent ("Fatal error: " ++ message)))) ;;
  r <- get ;;
  do (WriteSummary (funnelDir paths ++ "/summary.json") address (totalSteps r)
                   (map typeName (detectedTypes r)) (reachedPaywall r)) ;;
  do CloseSession ;;
  ret (mkSummary address (totalSteps r) (detectedTypes r) (reachedPaywall r)).

End Runner.

(** ** Pages for examples

    A page given as a tree of markup, from which the observations of the
    interface are computed, and an environment that serves one such page:
    its world is the list of the actions performed so far, latest first,
    and no action changes the page. *)

Module Page.

Record Box := mkBox {
  shown : bool;        (* rendered and visible *)
  pointer : bool;      (* [cursor: pointer] *)
  boxWidth : Z;
  boxHeight : Z
}.

(** A visible block without pointer cursor, and a visible card with one. *)
Definition plain : Box := mkBox true false 300 40.
Definition card : Box := mkBox true true 300 60.

#[warnings="-register-all"]
Inductive Html :=
| Txt (s : string)
| El (tagName : string) (attrs : list (string * string)) (box : Box) (children : list Html).

Definition newline : string := String (ascii_of_nat 10) EmptyString.

Fixpoint textOf (h : Html) : string :=
  match h with
  | Txt s => s
  | El _ _ _ cs => String.concat EmptyString (map textOf cs)
  end.

(** The rendered text: the texts of the visible children, one per line. *)
Fixpoint renderedText (h : Html) : string :=
  match h with
  | Txt s => s
  | El _ _ b cs =>
      if shown b
      then String.concat newline
             (filter (fun s => 0 <? String.length s) (map renderedText cs))
      else EmptyString
  end.

Definition upperChar (c : ascii) : ascii :=
  let n := nat_of_ascii c in
  if (97 <=? n) && (n <=? 122) then ascii_of_nat (n - 32) else c.

Fixpoint toUpperCase (s : string) : string :=
  match s with
  | EmptyString => EmptyString
  | String c s' => String (upperChar c) (toUpperCase s')
  end.

Definition nodeOf (ident : nat) (h : Html) : Dom.Node :=
  match h with
  | Txt s => Dom.mkNode ident "#text" [] s s true "auto" 0 0 false false false false false
  | El t a b _ =>
      Dom.mkNode ident (toUpperCase t) a (textOf h) (renderedText h) (shown b)
                 (if pointer b then "pointer" else "auto")
                 (inject_Z (boxWidth b)) (inject_Z (boxHeight b))
                 (match Dom.lookup "onclick" a with Some _ => true | None => false end)
                 (match Dom.lookup "checked" a with Some _ => true | None => false end)
                 (match Dom.lookup "disabled" a with Some _ => true | None => false end)
                 (match Dom.lookup "readonly" a with Some _ => true | None => false end)
                 true
  end.

(** The elements below and including [h], in document order, numbered from
    [next], with the ancestors [anc] of [h]. *)
Fixpoint elementsFrom (anc : list Dom.Node) (next : nat) (h : Html) {struct h}
  : list Dom.Element * nat :=
  match h with
  | Txt _ => ([], next)
  | El _ _ _ cs =>
      let n := nodeOf next h in
      let fix children (cs : list Html) (next : nat) : list Dom.Element * nat :=
        match cs with
        | [] => ([], next)
        | c :: cs' =>
            let '(es, next1) := elementsFrom (n :: anc) next c in
            let '(es', next2) := children cs' next1 in
            ((es ++ es')%list, next2)
        end in
      let '(below, next') := children cs (next + 1) in
      (Dom.mkElement n anc (map Dom.node below) :: below, next')
  end.

Definition elements (h : Html) : list Dom.Element := fst (elementsFrom [] 0 h).

Definition attrText (a : string * string) : string :=
  " " ++ fst a ++ "=" ++ dq ++ snd a ++ dq.

(** The markup of the page, as [page.content()] gives it. *)
Fixpoint markup (h : Html) : string :=
  match h with
  | Txt s => s
  | El t a _ cs =>
      "<" ++ t ++ String.concat EmptyString (map attrText a) ++ ">"
      ++ String.concat EmptyString (map markup cs) ++ "</" ++ t ++ ">"
  end.

(** What a scripted session does besides serving its page: which actions
    raise, and when a query of the elements raises. *)
Record Script := mkScript {
  address : string;
  page : Html;
  refuse : Action -> option string;
  domError : list Action -> option string
}.

Definition env (sc : Script) : Env :=
  @mkEnv (list Action)
         (fun _ => false)
         (fun _ => address sc)
         (fun _ => Ok (markup (page sc)))
         (fun w => match domError sc w with
                   | Some msg => Throw msg
                   | None => Ok (elements (page sc))
                   end)
         (fun _ => 0)
         (fun a w => (match refuse sc a with
                      | Some msg => Throw msg
                      | None => Ok tt
                      end, a :: w)).

(** A session in which every action succeeds and every query answers. *)
Definition static (address : string) (page : Html) : Env :=
  env (mkScript address page (fun _ => None) (fun _ => None)).

Definition html (body : list Html) : Html :=
  El "html" [] plain [El "head" [] (mkBox false false 0 0) []; El "body" [] plain body].

End Page.

(** The pages of the examples. *)

Module Examples.
Import Page.

Definition site : string := "https://funnel.example/quiz".

(** No price, the text "Choose your plan" and a control "Start Trial". *)
Definition startTrialPage : Html :=
  html [El "p" [] plain [Txt "Choose your plan"]; El "button" [] plain [Txt "Start Trial"]].

(** The same page with a control "Start my plan". *)
Definition startMyPlanPage : Html :=
  html [El "p" [] plain [Txt "Choose your plan"]; El "button" [] plain [Txt "Start my plan"]].

(** The price text "$49" and a button "Subscribe Now". *)
Definition subscribePage : Html :=
  html [El "p" [] plain [Txt "$49"]; El "button" [] plain [Txt "Subscribe Now"]].

(** A price with billing vocabulary, a purchase control and an email field. *)
Definition emailGatedOffer : Html :=
  html [El "p" [] plain [Txt "Premium plan: $49 per month"];
        El "input" [("type", "email"); ("placeholder", "Your email")] plain [];
        El "button" [] plain [Txt "Subscribe Now"]].

(** Two radio controls and two visible text inputs. *)
Definition radiosAndInputs : Html :=
  html [El "input" [("type", "radio"); ("name", "goal")] plain [];
        El "input" [("type", "radio"); ("name", "goal")] plain [];
        El "input" [("type", "text"); ("name", "first")] plain [];
        El "input" [("type", "text"); ("name", "last")] plain []].

(** An email field and a button "Send", outside any form. *)
Definition sendEmailPage : Html :=
  html [El "input" [("type", "email")] plain []; El "button" [] plain [Txt "Send"]].

(** An email field and a button "Continue". *)
Definition emailAndContinue : Html :=
  html [El "input" [("type", "email")] plain []; El "button" [] plain [Txt "Continue"]].

(** An email field and a text field, no radio control. *)
Definition emailWithTextField : Html :=
  html [El "input" [("type", "email")] plain [];
        El "input" [("type", "text"); ("name", "nickname")] plain [];
        El "button" [] plain [Txt "Next"]].

(** A text field that cannot be edited, and no button. *)
Definition readOnlyField : Html :=
  html [El "p" [] plain [Txt "Tell us about you"];
        El "input" [("type", "text"); ("readonly", "readonly")] plain []].

(** Three option cards without smart keyword. *)
Definition threeCards : Html :=
  html [El "div" [] card [Txt "Lose weight"];
        El "div" [] card [Txt "Build muscle"];
        El "div" [] card [Txt "Stay fit"]].

(** Four radio options without smart keyword, each in its label. *)
Definition fourRadios : Html :=
  html [El "label" [] plain [El "input" [("type", "radio")] plain []; Txt "Under 20"];
        El "label" [] plain [El "input" [("type", "radio")] plain []; Txt "20 to 39"];
        El "label" [] plain [El "input" [("type", "radio")] plain []; Txt "40 to 59"];
        El "label" [] plain [El "input" [("type", "radio")] plain []; Txt "60 and over"]].

(** A text and one button "Continue". *)
Definition continuePage : Html :=
  html [El "p" [] plain [Txt "We are building your profile, one moment."];
        El "button" [] plain [Txt "Continue"]].

(** Two option buttons. *)
Definition maleFemale : Html :=
  html [El "button" [] plain [Txt "Male"]; El "button" [] plain [Txt "Female"]].

Definition paths : FunnelPaths :=
  mkPaths "funnel-example-quiz" "results/funnel-example-quiz" "results/funnel-example-quiz/log.txt".

End Examples.

(** A session whose address cannot be opened: every navigation raises. *)
Module Offline.
Import Page.

Definition connectionError : string := "net::ERR_NAME_NOT_RESOLVED".

Definition unreachable (page : Html) : Env :=
  env (mkScript Examples.site page
                (fun a => match a with
                          | Goto _ _ _ => Some connectionError
                          | _ => None
                          end)
                (fun _ => None)).

End Offline.

(** ** The addresses of a session (index.ts, config.ts) *)

Module Index.

(** [FUNNEL_URLS] of config.ts. *)
Definition FUNNEL_URLS : list string :=
  [ "https://coursiv.io/dynamic?prc_id=1069";
    "https://coursiv.io/dynamic";
    "https://quiz.fitme.expert/intro-111";
    "https://madmuscles.com/funnel/default-uni-soft-new/step-one";
    "https://dance-bit.com/welcomeBellyRef" ].

(** [arg.startsWith("http")] *)
Definition startsWithHttp (arg : string) : bool :=
  match Text.stripPrefix false "http" arg with
  | Some _ => true
  | None => false
  end.

(** The [urls] that [main] runs, from the arguments of the command line. *)
Definition urls (cliArgs : list string) : list string :=
  let cliUrls := filter startsWithHttp cliArgs in
  let baseUrls := if 0 <? List.length cliUrls then cliUrls else FUNNEL_URLS in
  firstn 5 baseUrls.

End Index.

(** * Properties *)

(** ** The classifier *)

Section ClassifierFacts.
Import Classifier.

(** The email rule: one of the four probes of rule 2 finds an input. *)
Definition emailRule (els : list Dom.Element) : bool :=
  hasEmailType els || hasEmailAutocomplete els || hasEmailName els || hasEmailPlaceholder els.

(** The paywall rule at a step: what rule 1 tests. *)
Definition paywallRule (pageContent : string) (els : list Dom.Element) (step : nat) : bool :=
  (1 <? step) && strongPaywallSignal (Text.toLowerCase pageContent) els step.

Lemma classify_paywall pageContent els step :
  paywallRule pageContent els step = true ->
  type (classify pageContent els step) = paywall.
Proof.
  unfold paywallRule, classify. intros H. rewrite H. reflexivity.
Qed.

Lemma classify_first_step pageContent els :
  type (classify pageContent els 1) <> paywall.
Proof.
  unfold classify. simpl (1 <? 1). simpl andb. cbv beta iota zeta.
  repeat match goal with
         | |- type (if ?b then _ else _) <> _ => destruct b; [simpl; discriminate|]
         end.
  simpl; discriminate.
Qed.

(** When rule 1 does not apply, the verdict does not depend on the step. *)
Lemma classify_without_paywall pageContent els step :
  paywallRule pageContent els step = false ->
  classify pageContent els step = classify pageContent els 1.
Proof.
  unfold paywallRule, classify. intros H. rewrite H. reflexivity.
Qed.

End ClassifierFacts.

(** ** Searching for one of several literals *)

Section RegexFacts.
Import Regex.

Lemma eqb_lowerChar a b : Ascii.eqb a b = true -> Ascii.eqb (Text.lowerChar a) (Text.lowerChar b) = true.
Proof.
  intros H. apply Ascii.eqb_eq in H. subst. apply Ascii.eqb_refl.
Qed.

Lemma stripPrefix_ignoring_case k : forall s rest,
  Text.stripPrefix false k s = Some rest -> Text.stripPrefix true k s = Some rest.
Proof.
  induction k as [|a k IH]; intros s rest; simpl.
  - auto.
  - destruct s as [|b s]; [discriminate|].
    destruct (Ascii.eqb a b) eqn:Hab; [|discriminate].
    rewrite (eqb_lowerChar _ _ Hab). apply IH.
Qed.

Lemma ends_alt_cons r rs ci p :
  ends ci r p <> [] -> ends ci (alt (r :: rs)) p <> [].
Proof.
  destruct rs as [|r' rs]; simpl; auto.
  destruct p as [bol s]. simpl. intros H.
  destruct (ends ci r (bol, s)); [congruence | discriminate].
Qed.

Lemma ends_alt_tail r rs ci p :
  rs <> [] -> ends ci (alt rs) p <> [] -> ends ci (alt (r :: rs)) p <> [].
Proof.
  destruct rs as [|r' rs]; [congruence|]. intros _ H.
  change (alt (r :: r' :: rs)) with (RAlt r (alt (r' :: rs))).
  destruct p as [bol s]. simpl ends.
  intros Happ. apply app_eq_nil in Happ. tauto.
Qed.

Lemma ends_alts_in ci l ls bol s rest :
  In l ls -> Text.stripPrefix ci l s = Some rest -> ends ci (alts ls) (bol, s) <> [].
Proof.
  unfold alts. induction ls as [|l' ls IH]; simpl map; intros Hin Hp; [destruct Hin|].
  destruct Hin as [-> | Hin].
  - apply ends_alt_cons. simpl. rewrite Hp. discriminate.
  - apply ends_alt_tail.
    + destruct ls; [destruct Hin | discriminate].
    + auto.
Qed.

Lemma search_here ci r bol s : ends ci r (bol, s) <> [] -> search ci r bol s <> None.
Proof.
  destruct s; simpl; destruct (ends ci r _) as [|[b rest] tl]; congruence.
Qed.

Lemma search_later ci r bol c s : search ci r false s <> None -> search ci r bol (String c s) <> None.
Proof.
  intros H. simpl. destruct (ends ci r (bol, String c s)) as [|[b rest] tl]; [exact H | discriminate].
Qed.

(** A text that includes one of the literals passes the test of their alternation. *)
Lemma test_alts_includes l ls s :
  In l ls -> Text.includes l s = true -> test (mk (alts ls) true) s = true.
Proof.
  intros Hin Hinc. unfold test. simpl.
  assert (H : forall bol, search true (alts ls) bol s <> None).
  { induction s as [|c s IH]; intros bol.
    - simpl in Hinc. destruct (Text.stripPrefix false l EmptyString) eqn:Hp; [|discriminate].
      apply search_here. eapply ends_alts_in; eauto using stripPrefix_ignoring_case.
    - simpl in Hinc. destruct (Text.stripPrefix false l (String c s)) eqn:Hp.
      + apply search_here. eapply ends_alts_in; eauto using stripPrefix_ignoring_case.
      + apply search_later. apply IH. exact Hinc. }
  specialize (H true). destruct (search true (alts ls) true s); congruence.
Qed.

End RegexFacts.

Section ClassifierClaims.
Import Classifier.

(** C3.  A page that satisfies both the paywall rule and the email rule is,
    at any step after the first, classified as [paywall], not [email]:
    rule 1 is tried before rule 2. *)
Theorem paywall_precedes_email :
  forall (E : Env) (w : World E) (pageContent : string) (els : list Dom.Element) (step : nat),
    content E w = Ok pageContent ->
    dom E w = Ok els ->
    1 < step ->
    strongPaywallSignal (Text.toLowerCase pageContent) els step = true ->
    emailRule els = true ->
    exists why, classifyScreen E w step = Ok (mkClassification paywall why).
Proof.
  intros E w pageContent els step Hc Hd Hstep Hpay _.
  unfold classifyScreen. rewrite Hc, Hd.
  unfold classify.
  apply Nat.ltb_lt in Hstep. rewrite Hstep, Hpay. simpl.
  eexists. reflexivity.
Qed.

Lemma paywall_precedes_email_witness :
  let E := Page.static Examples.site Examples.emailGatedOffer in
  let els := Page.elements Examples.emailGatedOffer in
  emailRule els = true /\
  exists why, classifyScreen E [] 2 = Ok (mkClassification paywall why).
Proof.
  intros E els. split; [reflexivity|].
  apply (@paywall_precedes_email E [] (Page.markup Examples.emailGatedOffer) els 2);
    try reflexivity.
  unfold lt. apply le_n.
Defined.

(** C4, as the code has it.  At step 1 the classifier never answers
    [paywall], and the override of the driver never has anything to change:
    the page is classified by the rules after the paywall rule, whose verdict
    does not depend on the step.  The page with the price text "$49" and a
    button "Subscribe Now" is classified as [other] at step 1. *)
Theorem first_step_never_paywall :
  forall (pageContent : string) (els : list Dom.Element),
    type (classify pageContent els 1) <> paywall
    /\ (forall step, type (classify pageContent els step) <> paywall ->
                     classify pageContent els step = classify pageContent els 1)
    /\ (forall (E : Env) (r : Run E),
           fst (classifyStep 1 r) = classifyScreen E (world (sys r)) 1)
    /\ type (classify (Page.markup Examples.subscribePage)
                      (Page.elements Examples.subscribePage) 1) = other.
Proof.
  intros pageContent els. split; [apply classify_first_step|]. split; [|split].
  - intros step Hne. apply classify_without_paywall.
    destruct (paywallRule pageContent els step) eqn:Hp; [|reflexivity].
    elim Hne. apply classify_paywall. exact Hp.
  - intros E r. unfold classifyStep, bind, onPage, zoom, observe, classifyScreen.
    destruct (content E (world (sys r))) as [c|msg]; [|reflexivity].
    destruct (dom E (world (sys r))) as [es|msg]; [|reflexivity].
    simpl Nat.eqb. cbv beta iota.
    destruct (type (classify c es 1)) eqn:Ht; try reflexivity.
    exfalso. exact (classify_first_step c es Ht).
  - reflexivity.
Qed.

(** The page with "$49" and "Subscribe Now" is no paywall at step 5, and is
    classified there as at step 1. *)
Lemma first_step_never_paywall_witness :
  let pageContent := Page.markup Examples.subscribePage in
  let els := Page.elements Examples.subscribePage in
  type (Classifier.classify pageContent els 5) <> paywall
  /\ Classifier.classify pageContent els 5 = Classifier.classify pageContent els 1
  /\ type (Classifier.classify pageContent els 1) <> paywall.
Proof.
  intros pageContent els.
  assert (Hfive : type (Classifier.classify pageContent els 5) <> paywall) by (vm_compute; discriminate).
  destruct (first_step_never_paywall pageContent els) as (Hone & Hsame & _).
  split; [exact Hfive|].
  split; [exact (Hsame 5 Hfive) | exact Hone].
Defined.


(** C4 as stated fails: this page has a price, a purchase control and
    billing vocabulary, and at step 1 it is classified as [email], by the
    classifier and by the driver alike. *)
Lemma first_step_other_counterexample :
  let page := Examples.emailGatedOffer in
  let E := Page.static Examples.site page in
  let content := Text.toLowerCase (Page.markup page) in
  (1 <=? priceCount content) = true
  /\ (1 <=? paywallCtaCount (Page.elements page)) = true
  /\ hasPaywallText content = true
  /\ strongPaywallSignal content (Page.elements page) 1 = true
  /\ type (classify (Page.markup page) (Page.elements page) 1) = email
  /\ fst (classifyStep 1 (initialRun (mkSys E [] 0)))
     = Ok (mkClassification email "Detected input[type=email].")
  /\ email <> other.
Proof.
  repeat split; try reflexivity. discriminate.
Qed.

(** C5.  A page with at least two radio controls and at least two visible
    text inputs, to which neither the paywall rule nor the email rule
    applies, is classified as [question]: the radio controls keep the input
    rule from applying. *)
Theorem radios_defer_to_question :
  forall (E : Env) (w : World E) (pageContent : string) (els : list Dom.Element) (step : nat),
    content E w = Ok pageContent ->
    dom E w = Ok els ->
    2 <= radioCount els ->
    2 <= inputCount els ->
    paywallRule pageContent els step = false ->
    emailRule els = false ->
    exists why, classifyScreen E w step = Ok (mkClassification question why)
                /\ type (classify pageContent els step) <> input.
Proof.
  intros E w pageContent els step Hc Hd Hradio _ Hpay Hemail.
  unfold classifyScreen. rewrite Hc, Hd.
  unfold emailRule in Hemail.
  apply orb_false_iff in Hemail. destruct Hemail as [Hemail Hp].
  apply orb_false_iff in Hemail. destruct Hemail as [Hemail Hn].
  apply orb_false_iff in Hemail. destruct Hemail as [Ht Ha].
  unfold classify. unfold paywallRule in Hpay. rewrite Hpay, Ht, Ha, Hn, Hp.
  assert (H1 : (1 <=? radioCount els) = true) by (apply Nat.leb_le; lia).
  assert (H2 : (2 <=? radioCount els) = true) by (apply Nat.leb_le; lia).
  rewrite H1, H2. simpl. eexists. split; [reflexivity | discriminate].
Qed.

Lemma radios_defer_to_question_witness :
  let E := Page.static Examples.site Examples.radiosAndInputs in
  let els := Page.elements Examples.radiosAndInputs in
  2 <= radioCount els /\ 2 <= inputCount els /\
  exists why, classifyScreen E [] 3 = Ok (mkClassification question why)
              /\ type (classify (Page.markup Examples.radiosAndInputs) els 3) <> input.
Proof.
  intros E els.
  split; [apply le_n|]. split; [apply le_n|].
  apply (@radios_defer_to_question E [] (Page.markup Examples.radiosAndInputs) els 3);
    try reflexivity; apply le_n.
Defined.

(** C6, as the code has it.  At step 22 a page without price whose markup
    has the text "choose your plan" and that has a control whose text
    contains a purchase keyword, is classified as [paywall]; the keywords
    are those of [paywallKeywords], which "Start my plan" contains and
    "Start Trial" does not. *)
Theorem late_soft_paywall :
  forall (E : Env) (w : World E) (pageContent : string) (els : list Dom.Element),
    content E w = Ok pageContent ->
    dom E w = Ok els ->
    priceCount (Text.toLowerCase pageContent) = 0 ->
    Text.includes "choose your plan" (Text.toLowerCase pageContent) = true ->
    1 <= paywallCtaCount els ->
    exists why, classifyScreen E w 22 = Ok (mkClassification paywall why).
Proof.
  intros E w pageContent els Hc Hd _ Htext Hcta.
  unfold classifyScreen. rewrite Hc, Hd.
  assert (Hsoft : lateStageSoftPaywall (Text.toLowerCase pageContent) els 22 = true).
  { unfold lateStageSoftPaywall.
    apply Nat.leb_le in Hcta. rewrite Hcta.
    unfold lateStageSoftRe.
    rewrite (@test_alts_includes "choose your plan"); simpl; auto 10. }
  unfold classify, strongPaywallSignal. rewrite Hsoft.
  rewrite orb_true_r. simpl. eexists. reflexivity.
Qed.

Lemma late_soft_paywall_witness :
  let page := Examples.startMyPlanPage in
  let E := Page.static Examples.site page in
  priceCount (Text.toLowerCase (Page.markup page)) = 0 /\
  1 <= paywallCtaCount (Page.elements page) /\
  exists why, classifyScreen E [] 22 = Ok (mkClassification paywall why).
Proof.
  intros page E. split; [reflexivity|]. split; [apply le_n|].
  apply (@late_soft_paywall E [] (Page.markup page) (Page.elements page));
    reflexivity.
Defined.

(** C6 as stated fails: at step 22 the page with the text "Choose your
    plan" and the control "Start Trial", without price, is classified as
    [info]: no control has a purchase keyword. *)
Lemma start_trial_counterexample :
  let page := Examples.startTrialPage in
  let E := Page.static Examples.site page in
  priceCount (Text.toLowerCase (Page.markup page)) = 0
  /\ Text.includes "choose your plan" (Text.toLowerCase (Page.markup page)) = true
  /\ map (fun e => Dom.textContent (Dom.node e))
         (resolve (Page.elements page) (Loc ctaControls)) = ["Start Trial"]
  /\ paywallCtaCount (Page.elements page) = 0
  /\ classifyScreen E [] 22
     = Ok (mkClassification info "Text screen with exactly one CTA button and no inputs/options.")
  /\ info <> paywall.
Proof.
  repeat split; try reflexivity. discriminate.
Qed.

End ClassifierClaims.

(** ** Reasoning about computations

    [wp m Q s]: run from [s], the computation [m] ends, with a value or a
    raise, in a result and a state that satisfy [Q]. *)

Section WeakestPrecondition.
Context {S : Type}.

Definition wp {A} (m : M S A) (Q : Res A -> S -> Prop) (s : S) : Prop :=
  Q (fst (m s)) (snd (m s)).

Lemma wp_ret A (a : A) Q s : Q (Ok a) s -> wp (ret a) Q s.
Proof. exact (fun H => H). Qed.

Lemma wp_throw A msg (Q : Res A -> S -> Prop) s : Q (Throw msg) s -> wp (throw msg) Q s.
Proof. exact (fun H => H). Qed.

Lemma wp_bind A B (m : M S A) (k : A -> M S B) Q s :
  wp m (fun r s' => match r with
                    | Ok a => wp (k a) Q s'
                    | Throw msg => Q (Throw msg) s'
                    end) s ->
  wp (bind m k) Q s.
Proof.
  unfold wp, bind. destruct (m s) as [[a|msg] s']; simpl; auto.
Qed.

Lemma wp_tryCatch A (m : M S A) h Q s :
  wp m (fun r s' => match r with
                    | Ok a => Q (Ok a) s'
                    | Throw msg => wp (h msg) Q s'
                    end) s ->
  wp (tryCatch m h) Q s.
Proof.
  unfold wp, tryCatch. destruct (m s) as [[a|msg] s']; simpl; auto.
Qed.

Lemma wp_orElse A (m : M S A) d Q s :
  wp m (fun r s' => match r with
                    | Ok a => Q (Ok a) s'
                    | Throw _ => Q (Ok d) s'
                    end) s ->
  wp (orElse m d) Q s.
Proof.
  intros H. unfold orElse. apply wp_tryCatch. exact H.
Qed.

Lemma wp_ignoreErrors A (m : M S A) Q s :
  wp m (fun _ s' => Q (Ok tt) s') s -> wp (ignoreErrors m) Q s.
Proof.
  unfold wp, ignoreErrors. destruct (m s) as [r s']; simpl; auto.
Qed.

Lemma wp_get Q s : Q (Ok s) s -> wp get Q s.
Proof. exact (fun H => H). Qed.

Lemma wp_gets A (f : S -> A) Q s : Q (Ok (f s)) s -> wp (gets f) Q s.
Proof. exact (fun H => H). Qed.

Lemma wp_modify f Q s : Q (Ok tt) (f s) -> wp (modify f) Q s.
Proof. exact (fun H => H). Qed.

Lemma wp_observe A (f : S -> Res A) Q s : Q (f s) s -> wp (observe f) Q s.
Proof. exact (fun H => H). Qed.

Lemma wp_weaken A (m : M S A) (Q Q' : Res A -> S -> Prop) s :
  wp m Q s -> (forall r s', Q r s' -> Q' r s') -> wp m Q' s.
Proof. unfold wp. auto. Qed.

Lemma wp_any A (m : M S A) (Q : Res A -> S -> Prop) s :
  (forall r s', Q r s') -> wp m Q s.
Proof. unfold wp. auto. Qed.

Lemma wp_run A (m : M S A) Q s r s' : wp m Q s -> m s = (r, s') -> Q r s'.
Proof. unfold wp. intros H Hm. rewrite Hm in H. exact H. Qed.

End WeakestPrecondition.

Lemma wp_zoom S T A (proj : T -> S) (upd : S -> T -> T) (m : M S A) Q t :
  wp m (fun r s' => Q r (upd s' t)) (proj t) -> wp (zoom proj upd m) Q t.
Proof.
  unfold wp, zoom. destruct (m (proj t)) as [r s']; simpl; auto.
Qed.

(** A computation [keeps] a reflexive and transitive relation when its final
    state is related to its initial state, however it ends. *)

Section Keeps.
Context {S : Type} (R : S -> S -> Prop) `{!PreOrder R}.

Definition keeps {A} (m : M S A) : Prop := forall s, R s (snd (m s)).

Lemma keeps_ret A (a : A) : keeps (ret a).
Proof. intros s. reflexivity. Qed.

Lemma keeps_throw A msg : keeps (@throw S A msg).
Proof. intros s. reflexivity. Qed.

Lemma keeps_get : keeps get.
Proof. intros s. reflexivity. Qed.

Lemma keeps_gets A (f : S -> A) : keeps (gets f).
Proof. intros s. reflexivity. Qed.

Lemma keeps_observe A (f : S -> Res A) : keeps (observe f).
Proof. intros s. reflexivity. Qed.

Lemma keeps_bind A B (m : M S A) (k : A -> M S B) :
  keeps m -> (forall a, keeps (k a)) -> keeps (bind m k).
Proof.
  intros Hm Hk s. unfold bind. specialize (Hm s).
  destruct (m s) as [[a|msg] s']; simpl in *; [|exact Hm].
  etransitivity; [exact Hm | apply Hk].
Qed.

Lemma keeps_tryCatch A (m : M S A) h :
  keeps m -> (forall msg, keeps (h msg)) -> keeps (tryCatch m h).
Proof.
  intros Hm Hh s. unfold tryCatch. specialize (Hm s).
  destruct (m s) as [[a|msg] s']; simpl in *; [exact Hm|].
  etransitivity; [exact Hm | apply Hh].
Qed.

Lemma keeps_orElse A (m : M S A) d : keeps m -> keeps (orElse m d).
Proof.
  intros Hm. apply keeps_tryCatch; [exact Hm | intros; apply keeps_ret].
Qed.

Lemma keeps_ignoreErrors A (m : M S A) : keeps m -> keeps (ignoreErrors m).
Proof.
  intros Hm s. unfold ignoreErrors. specialize (Hm s).
  destruct (m s) as [r s']; exact Hm.
Qed.

Lemma keeps_wp A (m : M S A) (Q : Res A -> S -> Prop) s :
  keeps m -> (forall r s', R s s' -> Q r s') -> wp m Q s.
Proof. unfold wp. intros Hm HQ. apply HQ. apply Hm. Qed.

End Keeps.

(** One step of a proof that a computation keeps a relation: the rule of
    its head combinator, a case analysis of the value it branches on, or a
    lemma of the hint database [keeps]. *)
Create HintDb keeps.

Ltac keeps_rule lem := apply lem; try typeclasses eauto; intros.

Ltac keeps_step :=
  match goal with
  | |- keeps _ (bind _ _) => keeps_rule keeps_bind
  | |- keeps _ (tryCatch _ _) => keeps_rule keeps_tryCatch
  | |- keeps _ (orElse _ _) => keeps_rule keeps_orElse
  | |- keeps _ (ignoreErrors _) => keeps_rule keeps_ignoreErrors
  | |- keeps _ (ret _) => keeps_rule keeps_ret
  | |- keeps _ (throw _) => keeps_rule keeps_throw
  | |- keeps _ (gets _) => keeps_rule keeps_gets
  | |- keeps _ get => keeps_rule keeps_get
  | |- keeps _ (observe _) => keeps_rule keeps_observe
  | |- keeps _ (if ?b then _ else _) => destruct b
  | |- keeps _ (match ?x with _ => _ end) => destruct x
  | |- keeps _ _ => solve [eauto with keeps typeclass_instances]
  end.

Ltac keeps_auto := repeat keeps_step.

(** ** The rotation cursor *)

(** The cursor does not decrease; the cursor does not change. *)
Definition shiftGrows {E : Env} (s s' : Sys E) : Prop :=
  fallbackOptionShift s <= fallbackOptionShift s'.

Definition shiftSame {E : Env} (s s' : Sys E) : Prop :=
  fallbackOptionShift s = fallbackOptionShift s'.

(** A relation between states that a change of the outside world alone maintains. *)
Class IgnoresWorld {E : Env} (R : Sys E -> Sys E -> Prop) : Prop :=
  ignores_world : forall (s : Sys E) (w : World E), R s (mkSys E w (fallbackOptionShift s)).

#[global] Instance shiftGrows_preorder (E : Env) : PreOrder (@shiftGrows E).
Proof.
  split.
  - intros s. unfold shiftGrows. apply le_n.
  - intros a b c. unfold shiftGrows. apply Nat.le_trans.
Qed.

#[global] Instance shiftSame_preorder (E : Env) : PreOrder (@shiftSame E).
Proof.
  split.
  - intros s. reflexivity.
  - intros a b c. unfold shiftSame. congruence.
Qed.

#[global] Instance shiftGrows_ignores_world (E : Env) : IgnoresWorld (@shiftGrows E).
Proof. intros s w. unfold shiftGrows. apply le_n. Qed.

#[global] Instance shiftSame_ignores_world (E : Env) : IgnoresWorld (@shiftSame E).
Proof. intros s w. reflexivity. Qed.

Ltac keeps_list_induction l :=
  induction l; intros; simpl; keeps_auto.

Section KeepsDispatcher.
Variable E : Env.
Context (R : Sys E -> Sys E -> Prop) `{!PreOrder R} `{!IgnoresWorld R}.

Lemma keeps_perform a : keeps R (perform E a).
Proof.
  intros s. unfold perform. destruct (act E a (world s)) as [r w']. simpl.
  apply ignores_world.
Qed.
Local Hint Resolve keeps_perform : keeps.

Lemma keeps_pageDom : keeps R (pageDom E).
Proof. unfold pageDom. keeps_auto. Qed.
Lemma keeps_pageContent : keeps R (pageContent E).
Proof. unfold pageContent. keeps_auto. Qed.
Lemma keeps_pageUrl : keeps R (pageUrl E).
Proof. unfold pageUrl. keeps_auto. Qed.
Local Hint Resolve keeps_pageDom keeps_pageContent keeps_pageUrl : keeps.

Lemma keeps_count l : keeps R (count (E:=E) l).
Proof. unfold count. keeps_auto. Qed.
Lemma keeps_locatorIsVisible l : keeps R (locatorIsVisible (E:=E) l).
Proof. unfold locatorIsVisible. keeps_auto. Qed.
Lemma keeps_element l : keeps R (element (E:=E) l).
Proof. unfold element. keeps_auto. Qed.
Local Hint Resolve keeps_count keeps_locatorIsVisible keeps_element : keeps.

Lemma keeps_locatorGetAttribute l n : keeps R (locatorGetAttribute (E:=E) l n).
Proof. unfold locatorGetAttribute. keeps_auto. Qed.
Lemma keeps_locatorInnerText l : keeps R (locatorInnerText (E:=E) l).
Proof. unfold locatorInnerText. keeps_auto. Qed.
Lemma keeps_locatorIsChecked l : keeps R (locatorIsChecked (E:=E) l).
Proof. unfold locatorIsChecked. keeps_auto. Qed.
Local Hint Resolve keeps_locatorGetAttribute keeps_locatorInnerText keeps_locatorIsChecked : keeps.

Lemma keeps_bodyTextOrEmpty : keeps R (bodyTextOrEmpty (E:=E)).
Proof. unfold bodyTextOrEmpty. keeps_auto. Qed.
Lemma keeps_clickLocator l : keeps R (clickLocator (E:=E) l).
Proof. unfold clickLocator. keeps_auto. Qed.
Local Hint Resolve keeps_bodyTextOrEmpty keeps_clickLocator : keeps.

Lemma keeps_clickAnyByText texts : keeps R (clickAnyByText (E:=E) texts).
Proof. keeps_list_induction texts. Qed.
Lemma keeps_clickFirstVisible sels : keeps R (clickFirstVisible (E:=E) sels).
Proof. keeps_list_induction sels. Qed.
Lemma keeps_clickByText texts : keeps R (clickByText (E:=E) texts).
Proof. keeps_list_induction texts. Qed.
Local Hint Resolve keeps_clickAnyByText keeps_clickFirstVisible keeps_clickByText : keeps.

Lemma keeps_closeByPhrase ps : keeps R (closeByPhrase (E:=E) ps).
Proof. keeps_list_induction ps. Qed.
Local Hint Resolve keeps_closeByPhrase : keeps.

Lemma keeps_closeCommonPopups : keeps R (closeCommonPopups (E:=E)).
Proof. unfold closeCommonPopups. keeps_auto. Qed.
Lemma keeps_reactSafeType l v : keeps R (reactSafeType (E:=E) l v).
Proof. unfold reactSafeType. keeps_auto. Qed.
Local Hint Resolve keeps_closeCommonPopups keeps_reactSafeType : keeps.

Lemma keeps_fillInputsLoop inputs indices : forall ms, keeps R (fillInputsLoop (E:=E) inputs indices ms).
Proof. keeps_list_induction indices. Qed.
Local Hint Resolve keeps_fillInputsLoop : keeps.

Lemma keeps_fillInputByHints : keeps R (fillInputByHints (E:=E)).
Proof. unfold fillInputByHints. keeps_auto. Qed.
Lemma keeps_clickContinue : keeps R (clickContinue (E:=E)).
Proof. unfold clickContinue. keeps_auto. Qed.
Lemma keeps_clickQuestionCta : keeps R (clickQuestionCta (E:=E)).
Proof. unfold clickQuestionCta. keeps_auto. Qed.
Lemma keeps_getSnapshot : keeps R (getSnapshot (E:=E)).
Proof. unfold getSnapshot. keeps_auto. Qed.
Lemma keeps_presentAndVisible l : keeps R (presentAndVisible (E:=E) l).
Proof. unfold presentAndVisible. keeps_auto. Qed.
Local Hint Resolve keeps_fillInputByHints keeps_clickContinue keeps_clickQuestionCta
  keeps_getSnapshot keeps_presentAndVisible : keeps.

Lemma keeps_submitAttempt l b m1 m2 ms : keeps R (submitAttempt (E:=E) l b m1 m2 ms).
Proof. unfold submitAttempt. keeps_auto. Qed.
Local Hint Resolve keeps_submitAttempt : keeps.

Lemma keeps_runEmailSubmitChain : keeps R (runEmailSubmitChain (E:=E)).
Proof. unfold runEmailSubmitChain. keeps_auto. Qed.
Lemma keeps_fillEmailByHints : keeps R (fillEmailByHints (E:=E)).
Proof. unfold fillEmailByHints. keeps_auto. Qed.
Local Hint Resolve keeps_runEmailSubmitChain keeps_fillEmailByHints : keeps.

Lemma keeps_submitEmailStep : keeps R (submitEmailStep (E:=E)).
Proof. unfold submitEmailStep. keeps_auto. Qed.
Lemma keeps_getOptionLabelText l : keeps R (getOptionLabelText (E:=E) l).
Proof. unfold getOptionLabelText. keeps_auto. Qed.
Local Hint Resolve keeps_submitEmailStep keeps_getOptionLabelText : keeps.

Lemma keeps_collectOptionLabels l indices : keeps R (collectOptionLabels (E:=E) l indices).
Proof. keeps_list_induction indices. Qed.
Lemma keeps_clickClickableParent l : keeps R (clickClickableParent (E:=E) l).
Proof. unfold clickClickableParent. keeps_auto. Qed.
Lemma keeps_collectButtons l indices : keeps R (collectButtons (E:=E) l indices).
Proof. keeps_list_induction indices. Qed.
Local Hint Resolve keeps_collectOptionLabels keeps_clickClickableParent keeps_collectButtons : keeps.

Lemma keeps_clickCardScript kws : keeps R (clickCardScript (E:=E) kws).
Proof. unfold clickCardScript. keeps_auto. Qed.
Local Hint Resolve keeps_clickCardScript : keeps.

Lemma keeps_clickFirstOptionCard : keeps R (clickFirstOptionCard (E:=E)).
Proof. unfold clickFirstOptionCard. keeps_auto. Qed.
Lemma keeps_dispatchInputEvents l indices : keeps R (dispatchInputEvents (E:=E) l indices).
Proof. keeps_list_induction indices. Qed.
Local Hint Resolve keeps_clickFirstOptionCard keeps_dispatchInputEvents : keeps.

Lemma keeps_continueAfterFill fm ms : keeps R (continueAfterFill (E:=E) fm ms).
Proof. unfold continueAfterFill. keeps_auto. Qed.
Local Hint Resolve keeps_continueAfterFill : keeps.

Lemma keeps_handleInput ms : keeps R (handleInput (E:=E) ms).
Proof. unfold handleInput. keeps_auto. Qed.
Lemma keeps_clickConsentLabels l indices : forall ms, keeps R (clickConsentLabels (E:=E) l indices ms).
Proof. keeps_list_induction indices. Qed.
Lemma keeps_consentAncestorClick l : keeps R (consentAncestorClick (E:=E) l).
Proof. unfold consentAncestorClick. keeps_auto. Qed.
Local Hint Resolve keeps_handleInput keeps_clickConsentLabels keeps_consentAncestorClick : keeps.

Lemma keeps_clickConsentBoxes l indices : forall ms, keeps R (clickConsentBoxes (E:=E) l indices ms).
Proof. keeps_list_induction indices. Qed.
Local Hint Resolve keeps_clickConsentBoxes : keeps.

Lemma keeps_fillEmail ms : keeps R (fillEmail (E:=E) ms).
Proof. unfold fillEmail. keeps_auto. Qed.
Lemma keeps_clickConsent ms : keeps R (clickConsent (E:=E) ms).
Proof. unfold clickConsent. keeps_auto. Qed.
Local Hint Resolve keeps_fillEmail keeps_clickConsent : keeps.

Lemma keeps_handleEmail ms : keeps R (handleEmail (E:=E) ms).
Proof. unfold handleEmail. keeps_auto. Qed.
Lemma keeps_handleInfo ms : keeps R (handleInfo (E:=E) ms).
Proof. unfold handleInfo. keeps_auto. Qed.

End KeepsDispatcher.

#[global] Hint Resolve keeps_perform keeps_pageDom keeps_pageContent keeps_pageUrl keeps_count
  keeps_locatorIsVisible keeps_element keeps_locatorGetAttribute keeps_locatorInnerText
  keeps_locatorIsChecked keeps_bodyTextOrEmpty keeps_clickLocator keeps_clickAnyByText
  keeps_clickFirstVisible keeps_clickByText keeps_closeByPhrase keeps_closeCommonPopups
  keeps_reactSafeType keeps_fillInputsLoop keeps_fillInputByHints keeps_clickContinue
  keeps_clickQuestionCta keeps_getSnapshot keeps_presentAndVisible keeps_submitAttempt
  keeps_runEmailSubmitChain keeps_fillEmailByHints keeps_submitEmailStep
  keeps_getOptionLabelText keeps_collectOptionLabels keeps_clickClickableParent
  keeps_collectButtons keeps_clickCardScript keeps_clickFirstOptionCard
  keeps_dispatchInputEvents keeps_continueAfterFill keeps_handleInput
  keeps_clickConsentLabels keeps_consentAncestorClick keeps_clickConsentBoxes
  keeps_fillEmail keeps_clickConsent keeps_handleEmail keeps_handleInfo : keeps.

Section CursorGrows.
Variable E : Env.

Lemma grows_bumpShift : keeps shiftGrows (bumpShift (E:=E)).
Proof. intros s. unfold shiftGrows. simpl. lia. Qed.
Local Hint Resolve grows_bumpShift : keeps.

Lemma grows_chooseOptionIndex cands : keeps shiftGrows (chooseOptionIndex (E:=E) cands).
Proof. unfold chooseOptionIndex. keeps_auto. Qed.
Lemma grows_chooseButton cands : keeps shiftGrows (chooseButton (E:=E) cands).
Proof. unfold chooseButton. keeps_auto. Qed.
Local Hint Resolve grows_chooseOptionIndex grows_chooseButton : keeps.

Lemma grows_clickOptionWithLabel : keeps shiftGrows (clickOptionWithLabel (E:=E)).
Proof. unfold clickOptionWithLabel. keeps_auto. Qed.
Lemma grows_clickFirstOptionButton : keeps shiftGrows (clickFirstOptionButton (E:=E)).
Proof. unfold clickFirstOptionButton. keeps_auto. Qed.
Local Hint Resolve grows_clickOptionWithLabel grows_clickFirstOptionButton : keeps.

Lemma grows_clickOtherCta : keeps shiftGrows (clickOtherCta (E:=E)).
Proof. unfold clickOtherCta. keeps_auto. Qed.
Local Hint Resolve grows_clickOtherCta : keeps.

Lemma grows_handleQuestion ms : keeps shiftGrows (handleQuestion (E:=E) ms).
Proof. unfold handleQuestion. keeps_auto. Qed.
Lemma grows_handleOther ms : keeps shiftGrows (handleOther (E:=E) ms).
Proof. unfold handleOther. keeps_auto. Qed.
Local Hint Resolve grows_handleQuestion grows_handleOther : keeps.

Lemma grows_handleStepAction t : keeps shiftGrows (handleStepAction E t).
Proof. unfold handleStepAction. keeps_auto. Qed.

End CursorGrows.

(** ** Successive option selections *)

(** One option selection of the dispatcher: by clickOptionWithLabel among
    radio and check box candidates, or by clickFirstOptionButton among
    button candidates. *)
Inductive Selection :=
| AmongRadios (candidates : list (nat * string))
| AmongButtons (candidates : list (nat * string)).

Definition candidatesOf (sel : Selection) : list (nat * string) :=
  match sel with
  | AmongRadios c => c
  | AmongButtons c => c
  end.

(** The text in which the selection looks for a smart keyword. *)
Definition keywordText (sel : Selection) (text : string) : string :=
  match sel with
  | AmongRadios _ => text
  | AmongButtons _ => Text.toLowerCase text
  end.

(** No candidate has a smart keyword. *)
Definition ambiguous (sel : Selection) : Prop :=
  Forall (fun c => isSmart (keywordText sel (snd c)) = false) (candidatesOf sel).

(** The candidates are four options, numbered 0 to 3. *)
Definition fourOptions (sel : Selection) : Prop :=
  map fst (candidatesOf sel) = [0; 1; 2; 3].

(** The labels [texts] as candidates numbered from 0. *)
Definition numbered (texts : list string) : list (nat * string) :=
  combine (List.seq 0 (List.length texts)) texts.

(** The labels [texts] as the candidates of clickFirstOptionCard. *)
Definition asCards (texts : list string) : list (string * nat) :=
  combine texts (List.seq 0 (List.length texts)).

Section Selections.
Variable E : Env.

(** The index of the option that one selection chooses. *)
Definition select (sel : Selection) : M (Sys E) (option nat) :=
  match sel with
  | AmongRadios c => r <- chooseOptionIndex c ;; ret (fst r)
  | AmongButtons c => r <- chooseButton c ;; ret (option_map fst (fst r))
  end.

(** Successive selections, in order. *)
Fixpoint selectAll (sels : list Selection) : M (Sys E) (list (option nat)) :=
  match sels with
  | [] => ret []
  | sel :: rest =>
      chosen <- select sel ;;
      more <- selectAll rest ;;
      ret (chosen :: more)
  end.

(** The state of the dispatcher when the process starts: [let fallbackOptionShift = 0]. *)
Definition processStart (w : World E) : Sys E := mkSys E w 0.

End Selections.

Arguments select : clear implicits.
Arguments selectAll : clear implicits.

Section SelectionFacts.
Variable E : Env.

Lemma find_none A (f : A -> bool) l : Forall (fun x => f x = false) l -> find f l = None.
Proof.
  induction 1 as [|x l Hx _ IH]; simpl; [reflexivity|]. rewrite Hx. exact IH.
Qed.

(** An ambiguous selection among at least two candidates takes the
    candidate at the position of the cursor modulo min(count, 4) and
    advances the cursor by one. *)
Lemma select_rotates (sel : Selection) (s : Sys E) :
  ambiguous sel ->
  2 <= List.length (candidatesOf sel) ->
  let position := fallbackOptionShift s mod Nat.min (List.length (candidatesOf sel)) 4 in
  exists c, nth_error (candidatesOf sel) position = Some c
            /\ select E sel s = (Ok (Some (fst c)), mkSys E (world s) (fallbackOptionShift s + 1)).
Proof.
  intros Hamb Hlen position.
  assert (Hpos : position < List.length (candidatesOf sel)).
  { unfold position.
    assert (fallbackOptionShift s mod Nat.min (List.length (candidatesOf sel)) 4
            < Nat.min (List.length (candidatesOf sel)) 4) by (apply Nat.mod_upper_bound; lia).
    lia. }
  destruct (nth_error (candidatesOf sel) position) as [c|] eqn:Hnth;
    [|apply nth_error_None in Hnth; lia].
  exists c. split; [reflexivity|].
  destruct sel as [cands|cands]; unfold ambiguous in Hamb;
    simpl candidatesOf in *; simpl keywordText in Hamb; apply Nat.leb_le in Hlen.
  - unfold select, bind, chooseOptionIndex.
    rewrite (find_none (fun c => isSmart (snd c)) Hamb), Hlen.
    unfold bind, gets. fold position. rewrite Hnth. destruct c as [i t]. reflexivity.
  - unfold select, bind, chooseButton.
    rewrite (find_none (fun c => isSmart (Text.toLowerCase (snd c))) Hamb), Hlen.
    unfold bind, gets, bumpShift, modify. fold position. simpl nth_error.
    rewrite Hnth. reflexivity.
Qed.

Lemma nth_error_fourOptions sel position :
  fourOptions sel -> position < 4 ->
  forall c, nth_error (candidatesOf sel) position = Some c -> fst c = position.
Proof.
  unfold fourOptions. intros H4 Hlt c Hnth.
  apply (map_nth_error fst) in Hnth. rewrite H4 in Hnth.
  destruct position as [|[|[|[|?]]]]; simpl in Hnth; try lia; congruence.
Qed.

Lemma fourOptions_length sel : fourOptions sel -> List.length (candidatesOf sel) = 4.
Proof.
  unfold fourOptions. intros H. rewrite <- (length_map fst), H. reflexivity.
Qed.

Lemma selectAll_cycle (sels : list Selection) :
  Forall (fun sel => ambiguous sel /\ fourOptions sel) sels ->
  forall s : Sys E,
    selectAll E sels s
    = (Ok (map (fun k => Some ((fallbackOptionShift s + k) mod 4)) (List.seq 0 (List.length sels))),
       mkSys E (world s) (fallbackOptionShift s + List.length sels)).
Proof.
  induction 1 as [|sel sels [Hamb H4] _ IH]; intros s.
  - simpl. unfold ret. destruct s. simpl. rewrite Nat.add_0_r. reflexivity.
  - pose proof (fourOptions_length H4) as Hlen.
    destruct (@select_rotates sel s Hamb) as [c [Hnth Hsel]]; [lia|].
    rewrite Hlen in Hnth. simpl Nat.min in Hnth.
    assert (Hc : fst c = fallbackOptionShift s mod 4).
    { eapply nth_error_fourOptions; eauto. apply Nat.mod_upper_bound. lia. }
    simpl selectAll. unfold bind at 1. rewrite Hsel.
    unfold bind at 1. rewrite IH. simpl.
    rewrite Hc, Nat.add_0_r. unfold ret. f_equal.
    + f_equal. f_equal. rewrite <- seq_shift, map_map.
      apply map_ext. intros k. simpl fallbackOptionShift.
      replace (fallbackOptionShift s + 1 + k) with (fallbackOptionShift s + S k) by lia.
      reflexivity.
    + simpl. f_equal. lia.
Qed.

Lemma mod4_successor n : n mod 4 <> S n mod 4.
Proof.
  pose proof (Nat.div_mod_eq n 4). pose proof (Nat.div_mod_eq (S n) 4).
  pose proof (Nat.mod_upper_bound n 4). pose proof (Nat.mod_upper_bound (S n) 4).
  lia.
Qed.

End SelectionFacts.

(** ** The driver loop *)

(** What every part of a step maintains: the count of iterations, an email
    screen once seen, the record of the email archetype among the detected
    types whenever an email screen was seen, and a cursor that does not
    decrease. *)
Definition emailRecorded {E : Env} (r : Run E) : Prop :=
  emailReached r = true -> In email (detectedTypes r).

Definition steady {E : Env} (r r' : Run E) : Prop :=
  iterations r' = iterations r
  /\ (emailReached r = true -> emailReached r' = true)
  /\ (emailRecorded r -> emailRecorded r')
  /\ fallbackOptionShift (sys r) <= fallbackOptionShift (sys r').

(** What every part of a step but the count of the actions maintains. *)
Definition quiet {E : Env} (r r' : Run E) : Prop :=
  steady r r' /\ noActionCount r' = noActionCount r.

(** A relation between states of the run that a change of the page and an
    advance of the cursor maintain. *)
Class IgnoresPage {E : Env} (R : Run E -> Run E -> Prop) : Prop :=
  ignores_page : forall (r : Run E) (s : Sys E),
    fallbackOptionShift (sys r) <= fallbackOptionShift s -> R r (setSys s r).

#[global] Instance steady_preorder (E : Env) : PreOrder (@steady E).
Proof.
  split.
  - intros r. unfold steady. auto.
  - intros a b c (H1 & H2 & H3 & H4) (H1' & H2' & H3' & H4'). unfold steady.
    repeat split; auto; lia.
Qed.

#[global] Instance quiet_preorder (E : Env) : PreOrder (@quiet E).
Proof.
  split.
  - intros r. split; reflexivity.
  - intros a b c [H1 H2] [H1' H2']. split; [etransitivity; eauto | congruence].
Qed.

#[global] Instance steady_ignores_page (E : Env) : IgnoresPage (@steady E).
Proof. intros r s H. unfold steady, emailRecorded. simpl. auto. Qed.

#[global] Instance quiet_ignores_page (E : Env) : IgnoresPage (@quiet E).
Proof. intros r s H. split; [apply steady_ignores_page; exact H | reflexivity]. Qed.

(** A relation between states of the run that a change of the messages
    of the step and of the paywall flag maintains. *)
Class IgnoresEvidence {E : Env} (R : Run E -> Run E -> Prop) : Prop :=
  ignores_evidence : forall (r : Run E) (ms : list string) (b : bool),
    R r (mkRun (sys r) (previousHash r) (sameHashCount r) (noActionCount r) (emailReached r)
               (detectedTypes r) b (totalSteps r) ms (iterations r)).

(** The two counters of the loop detection are unchanged. *)
Definition still {E : Env} (r r' : Run E) : Prop :=
  sameHashCount r' = sameHashCount r /\ noActionCount r' = noActionCount r.

#[global] Instance still_preorder (E : Env) : PreOrder (@still E).
Proof.
  split.
  - intros r. split; reflexivity.
  - intros a b c [H1 H2] [H1' H2']. split; congruence.
Qed.

#[global] Instance still_ignores_page (E : Env) : IgnoresPage (@still E).
Proof. intros r s H. split; reflexivity. Qed.

#[global] Instance still_ignores_evidence (E : Env) : IgnoresEvidence (@still E).
Proof. intros r ms b. split; reflexivity. Qed.

#[global] Instance steady_ignores_evidence (E : Env) : IgnoresEvidence (@steady E).
Proof. intros r ms b. unfold steady, emailRecorded. simpl. auto. Qed.

#[global] Instance quiet_ignores_evidence (E : Env) : IgnoresEvidence (@quiet E).
Proof. intros r ms b. split; [apply steady_ignores_evidence | reflexivity]. Qed.

Lemma keeps_modify S (R : S -> S -> Prop) (f : S -> S) :
  (forall s, R s (f s)) -> keeps R (modify f).
Proof. intros H s. apply H. Qed.

Lemma In_setAdd t u l : In t l \/ t = u -> In t (setAdd u l).
Proof.
  unfold setAdd. intros H.
  destruct (existsb (ScreenType_eqb u) l) eqn:Hex.
  - destruct H as [H | ->]; [exact H|].
    apply existsb_exists in Hex. destruct Hex as [x [Hin Heq]].
    destruct u, x; simpl in Heq; try discriminate; exact Hin.
  - apply in_or_app. destruct H as [H | ->]; [left; exact H | right; left; reflexivity].
Qed.

Section KeepsRunner.
Variable E : Env.
Variable paths : FunnelPaths.
Context (R : Run E -> Run E -> Prop) `{!PreOrder R} `{!IgnoresPage R}.

Lemma keeps_onPage A (m : M (Sys E) A) : keeps shiftGrows m -> keeps R (onPage m).
Proof.
  intros Hm r. unfold onPage, zoom. specialize (Hm (sys r)).
  destruct (m (sys r)) as [res s']. simpl in *. apply ignores_page. exact Hm.
Qed.

Lemma keeps_do a : keeps R (do (E:=E) a).
Proof. unfold do. apply keeps_onPage. auto with keeps typeclass_instances. Qed.

Lemma keeps_getStableDomSnapshot : keeps shiftGrows (getStableDomSnapshot (E:=E)).
Proof. unfold getStableDomSnapshot. keeps_auto. Qed.

Lemma keeps_waitForPageTransition u : keeps shiftGrows (waitForPageTransition (E:=E) u).
Proof. unfold waitForPageTransition. keeps_auto. Qed.

Lemma keeps_classifyStep step : keeps R (classifyStep (E:=E) step).
Proof.
  unfold classifyStep. keeps_auto. apply keeps_onPage. keeps_auto.
Qed.

Context `{!IgnoresEvidence R}.

Lemma keeps_say ms : keeps R (say (E:=E) ms).
Proof. unfold say. apply keeps_modify. intros r. apply ignores_evidence. Qed.

Lemma keeps_setStepMessages ms : keeps R (setStepMessages (E:=E) ms).
Proof. unfold setStepMessages. apply keeps_modify. intros r. apply ignores_evidence. Qed.

Lemma keeps_setReachedPaywall : keeps R (setReachedPaywall (E:=E)).
Proof. unfold setReachedPaywall. apply keeps_modify. intros r. apply ignores_evidence. Qed.

Lemma keeps_loggerStep step t : keeps R (loggerStep (E:=E) step t).
Proof. unfold loggerStep. keeps_auto. apply keeps_do. Qed.

Lemma keeps_loggerEventJoined : keeps R (loggerEventJoined (E:=E)).
Proof. unfold loggerEventJoined. keeps_auto. apply keeps_do. Qed.

End KeepsRunner.

#[global] Hint Resolve keeps_do keeps_getStableDomSnapshot keeps_waitForPageTransition
  keeps_classifyStep grows_handleStepAction keeps_say keeps_setStepMessages
  keeps_setReachedPaywall keeps_loggerStep keeps_loggerEventJoined : keeps.

Ltac keeps_run :=
  repeat first
    [ keeps_step
    | match goal with
      | |- keeps _ (onPage _) => apply keeps_onPage; try typeclasses eauto
      end ].

Ltac keeps_setter :=
  apply keeps_modify; intros ?; unfold quiet, steady, emailRecorded; simpl;
  repeat split; auto.

Section SteadyRunner.
Variable E : Env.
Variable paths : FunnelPaths.

Lemma quiet_steady A (m : M (Run E) A) : keeps quiet m -> keeps steady m.
Proof. intros H r. apply H. Qed.

Lemma quiet_setHash h n : keeps quiet (setHash (E:=E) h n).
Proof. unfold setHash. keeps_setter. Qed.
Lemma steady_setNoActionCount n : keeps steady (setNoActionCount (E:=E) n).
Proof. unfold setNoActionCount. keeps_setter. Qed.

Lemma quiet_recordStep t : keeps quiet (recordStep (E:=E) t).
Proof.
  unfold recordStep. apply keeps_modify. intros r.
  unfold quiet, steady, emailRecorded. simpl. repeat split; auto.
  - destruct (ScreenType_eqb t email); auto.
  - intros Hrec Hreached. apply In_setAdd.
    destruct t; simpl in *; auto.
Qed.

Local Hint Resolve quiet_setHash quiet_recordStep : keeps.

Lemma quiet_paywallStop step t : keeps quiet (paywallStop (E:=E) step t).
Proof. unfold paywallStop. keeps_run. Qed.

Lemma quiet_fingerprint t : keeps quiet (fingerprint (E:=E) t).
Proof. unfold fingerprint. keeps_run. Qed.

Lemma quiet_loopRescueOrStop step t h : keeps quiet (loopRescueOrStop (E:=E) step t h).
Proof. unfold loopRescueOrStop. keeps_run. Qed.

Lemma quiet_dispatch step t : keeps quiet (dispatch (E:=E) step t).
Proof. unfold dispatch. keeps_run. Qed.

Lemma quiet_stepCatch step msg : keeps quiet (stepCatch (E:=E) step msg).
Proof. unfold stepCatch. keeps_run. Qed.

Local Hint Resolve quiet_paywallStop quiet_fingerprint quiet_loopRescueOrStop quiet_dispatch
  quiet_stepCatch quiet_steady steady_setNoActionCount : keeps.

Lemma steady_actionPhase step t : keeps steady (actionPhase (E:=E) step t).
Proof.
  unfold actionPhase. keeps_run; apply quiet_steady; auto with keeps.
Qed.
Local Hint Resolve steady_actionPhase : keeps.

Lemma steady_stepBody step : keeps steady (stepBody (E:=E) paths step).
Proof.
  unfold stepBody. keeps_run; apply quiet_steady; auto with keeps typeclass_instances.
Qed.
Local Hint Resolve steady_stepBody : keeps.

Lemma steady_iteration step : keeps steady (iteration (E:=E) paths step).
Proof.
  unfold iteration. keeps_run; apply quiet_steady; auto with keeps typeclass_instances.
Qed.

End SteadyRunner.

#[global] Hint Resolve quiet_setHash quiet_recordStep quiet_paywallStop quiet_fingerprint
  quiet_loopRescueOrStop quiet_dispatch quiet_stepCatch : keeps.

Section LoopBound.
Variable E : Env.
Variable paths : FunnelPaths.

(** From any step of the loop on: the iterations still made are at most
    the steps left in the range of the loop, and at most those left up to
    [maxSteps] when no email screen has been reached by the end. *)
Lemma loop_bound (remaining : nat) : forall (step : nat) (r : Run E) res r',
  loop paths remaining step r = (res, r') ->
  iterations r' <= iterations r + remaining
  /\ (emailReached r' = false ->
      iterations r' <= iterations r + (RUN_CONFIG.maxSteps + 1 - step))
  /\ (emailReached r = true -> emailReached r' = true)
  /\ (emailRecorded r -> emailRecorded r')
  /\ fallbackOptionShift (sys r) <= fallbackOptionShift (sys r').
Proof.
  induction remaining as [|remaining IH]; intros step r res r' Hloop; cbn [loop] in Hloop.
  - injection Hloop as <- <-. repeat split; auto; lia.
  - unfold bind at 1 in Hloop. unfold gets at 1 in Hloop.
    destruct (negb (emailReached r) && (RUN_CONFIG.maxSteps <? step)) eqn:Hpre.
    { injection Hloop as <- <-. repeat split; auto; lia. }
    destruct (emailReached r && (RUN_CONFIG.maxSteps + 15 <? step)) eqn:Hpost.
    { injection Hloop as <- <-. repeat split; auto; lia. }
    unfold bind at 1 in Hloop. unfold countIteration at 1, modify at 1 in Hloop.
    set (r1 := mkRun _ _ _ _ _ _ _ _ _ _) in Hloop.
    unfold bind at 1 in Hloop.
    pose proof (steady_iteration paths step r1) as Hst.
    destruct (iteration paths step r1) as [flow r2]. cbn [snd] in Hst.
    destruct Hst as (Hit & Hmono & Hrec & Hshift).
    assert (Hit1 : iterations r2 = iterations r + 1) by (rewrite Hit; reflexivity).
    assert (Hmono1 : emailReached r = true -> emailReached r2 = true) by exact Hmono.
    assert (Hrec1 : emailRecorded r -> emailRecorded r2) by exact Hrec.
    assert (Hshift1 : fallbackOptionShift (sys r) <= fallbackOptionShift (sys r2)) by exact Hshift.
    assert (Hstep : emailReached r2 = false -> step <= RUN_CONFIG.maxSteps).
    { intros Hfalse. destruct (emailReached r) eqn:Hr; [rewrite Hmono1 in Hfalse; congruence|].
      cbn [negb andb] in Hpre. apply Nat.ltb_ge in Hpre. exact Hpre. }
    clearbody r1. clear Hit Hmono Hrec Hshift.
    destruct flow as [[|reason]|msg].
    + destruct (IH (step + 1) r2 res r' Hloop) as (B1 & B2 & B3 & B4 & B5).
      repeat split.
      * lia.
      * intros Hfalse. specialize (B2 Hfalse).
        assert (H : emailReached r2 = false).
        { destruct (emailReached r2) eqn:Hr2; [|reflexivity].
          rewrite B3 in Hfalse; [discriminate | reflexivity]. }
        specialize (Hstep H). lia.
      * auto.
      * auto.
      * lia.
    + injection Hloop as <- <-. repeat split; auto; try lia.
      intros Hfalse. specialize (Hstep Hfalse). lia.
    + injection Hloop as <- <-. repeat split; auto; try lia.
      intros Hfalse. specialize (Hstep Hfalse). lia.
Qed.

End LoopBound.

(** What a whole run maintains, from the state it starts in. *)
Definition withinBudget {E : Env} (r r' : Run E) : Prop :=
  iterations r' <= iterations r + (RUN_CONFIG.maxSteps + 15)
  /\ (emailReached r' = false -> iterations r' <= iterations r + RUN_CONFIG.maxSteps)
  /\ (emailRecorded r -> emailRecorded r')
  /\ fallbackOptionShift (sys r) <= fallbackOptionShift (sys r').

Section RunBound.
Variable E : Env.
Variable paths : FunnelPaths.

Lemma steady_withinBudget (a b : Run E) : steady a b -> withinBudget a b.
Proof.
  intros (H1 & H2 & H3 & H4). unfold withinBudget. rewrite H1. repeat split; auto; lia.
Qed.

Lemma steady_before (a b c : Run E) : steady a b -> withinBudget b c -> withinBudget a c.
Proof.
  intros (H1 & H2 & H3 & H4) (B1 & B2 & B3 & B4). unfold withinBudget.
  rewrite <- H1. repeat split; auto; lia.
Qed.

Lemma steady_after (a b c : Run E) : withinBudget a b -> steady b c -> withinBudget a c.
Proof.
  intros (B1 & B2 & B3 & B4) (H1 & H2 & H3 & H4). unfold withinBudget.
  rewrite H1. repeat split; auto; try lia.
  intros Hfalse. apply B2. destruct (emailReached b); [|reflexivity].
  rewrite H2 in Hfalse; [discriminate | reflexivity].
Qed.

Lemma runLoop_withinBudget (r : Run E) : withinBudget r (snd (runLoop paths r)).
Proof.
  unfold runLoop. destruct (loop paths (RUN_CONFIG.maxSteps + 15) 1 r) as [res r'] eqn:Hloop.
  apply loop_bound in Hloop. destruct Hloop as (B1 & B2 & B3 & B4 & B5).
  unfold withinBudget. cbn [snd]. repeat split; auto.
Qed.

Lemma openAndRun_withinBudget address (r : Run E) :
  withinBudget r (snd (openAndRun paths address r)).
Proof.
  unfold openAndRun.
  assert (Hopen : keeps steady
            (tryCatch
               (do (E:=E) (Goto address "domcontentloaded" RUN_CONFIG.defaultTimeoutMs))
               (fun msg =>
                  do (LoggerEvent ("page.goto first attempt failed: " ++ msg
                                   ++ ". Retrying with networkidle...")) ;;
                  tryCatch (do (Goto address "networkidle" 25000%N))
                           (fun retryMsg =>
                              do (LoggerEvent ("page.goto retry also failed: " ++ retryMsg
                                               ++ ". Skipping funnel.")) ;;
                              throw retryMsg)))) by keeps_run.
  unfold bind at 1. specialize (Hopen r).
  destruct (tryCatch _ _ r) as [[u|msg] r1]; cbn [snd] in *;
    [|apply steady_withinBudget; exact Hopen].
  unfold bind at 1.
  pose proof (keeps_do (R:=steady) (LoggerEvent ("Opened " ++ address)) r1) as Hlog.
  destruct (do (LoggerEvent ("Opened " ++ address)) r1) as [[u'|msg] r2]; cbn [snd] in *.
  - eapply steady_before; [etransitivity; eassumption | apply runLoop_withinBudget].
  - apply steady_withinBudget. etransitivity; eassumption.
Qed.

Lemma runFunnel_withinBudget address (r : Run E) :
  withinBudget r (snd (runFunnel paths address r)).
Proof.
  unfold runFunnel.
  unfold bind at 1. unfold ignoreErrors at 1. unfold tryCatch at 1. unfold bind at 1.
  pose proof (openAndRun_withinBudget address r) as Hrun.
  destruct (openAndRun paths address r) as [[reason|msg] r1]; cbn [snd] in Hrun.
  - cbn [ret].
    assert (Hend : keeps steady
              (r0 <- get ;;
               do (E:=E) (WriteSummary (funnelDir paths ++ "/summary.json") address (totalSteps r0)
                                (map typeName (detectedTypes r0)) (reachedPaywall r0)) ;;
               do CloseSession ;;
               ret (mkSummary address (totalSteps r0) (detectedTypes r0) (reachedPaywall r0))))
      by keeps_run.
    eapply steady_after; [exact Hrun | apply Hend].
  - pose proof (keeps_do (R:=steady) (LoggerEvent ("Fatal error: " ++ msg)) r1) as Hlog.
    destruct (do (LoggerEvent ("Fatal error: " ++ msg)) r1) as [res r2]; cbn [snd] in Hlog.
    assert (Hend : keeps steady
              (r0 <- get ;;
               do (E:=E) (WriteSummary (funnelDir paths ++ "/summary.json") address (totalSteps r0)
                                (map typeName (detectedTypes r0)) (reachedPaywall r0)) ;;
               do CloseSession ;;
               ret (mkSummary address (totalSteps r0) (detectedTypes r0) (reachedPaywall r0))))
      by keeps_run.
    eapply steady_after; [eapply steady_after; [exact Hrun | exact Hlog] | apply Hend].
Qed.

End RunBound.

(** C1.  Every run makes a bounded number of passes through the loop: at
    most [maxSteps + 15], that is 75, and at most [maxSteps], that is 60,
    when no email screen was classified during the run; the budget after an
    email screen is the greater of the two. *)
Theorem run_within_step_budget :
  forall (E : Env) (paths : FunnelPaths) (address : string) (s : Sys E),
    let final := snd (runFunnel paths address (initialRun s)) in
    iterations final <= RUN_CONFIG.maxSteps + 15
    /\ (~ In email (detectedTypes final) -> iterations final <= RUN_CONFIG.maxSteps)
    /\ RUN_CONFIG.maxSteps = 60
    /\ RUN_CONFIG.maxSteps + 15 = 75
    /\ RUN_CONFIG.maxSteps < RUN_CONFIG.maxSteps + 15.
Proof.
  intros E0 paths0 address s final.
  destruct (runFunnel_withinBudget paths0 address (initialRun s)) as (B1 & B2 & B3 & _).
  fold final in B1, B2, B3. cbn [iterations initialRun] in B1, B2.
  repeat split; try reflexivity.
  - exact B1.
  - intros Hnever. apply B2.
    destruct (emailReached final) eqn:Hreached; [|reflexivity].
    elim Hnever. apply B3; [|exact Hreached].
    unfold emailRecorded. cbn. discriminate.
  - unfold RUN_CONFIG.maxSteps. lia.
Qed.

(** Two runs on pages that never change: one with a single button
    "Continue" makes 60 passes and sees no email screen, one with an email
    field beside the button makes 75. *)
Lemma run_within_step_budget_witness :
  let quiet := Page.static Examples.site Examples.continuePage in
  let gated := Page.static Examples.site Examples.emailAndContinue in
  let plainRun :=
    snd (runFunnel Examples.paths Examples.site (initialRun (processStart quiet []))) in
  let emailRun :=
    snd (runFunnel Examples.paths Examples.site (initialRun (processStart gated []))) in
  ~ In email (detectedTypes plainRun)
  /\ iterations plainRun = 60
  /\ iterations plainRun <= RUN_CONFIG.maxSteps
  /\ In email (detectedTypes emailRun)
  /\ iterations emailRun = 75
  /\ iterations emailRun <= RUN_CONFIG.maxSteps + 15.
Proof.
  intros quiet gated plainRun emailRun.
  assert (Hno : ~ In email (detectedTypes plainRun)).
  { vm_compute. intros [H|[]]. discriminate H. }
  destruct (run_within_step_budget Examples.paths Examples.site (processStart quiet []))
    as (_ & Hquiet & _).
  destruct (run_within_step_budget Examples.paths Examples.site (processStart gated []))
    as (Hgated & _).
  split; [exact Hno|].
  split; [vm_compute; reflexivity|].
  split; [exact (Hquiet Hno)|].
  split; [vm_compute; left; reflexivity|].
  split; [vm_compute; reflexivity|].
  exact Hgated.
Defined.


(** One step of a proof by [wp]: the rule of the head combinator, or a
    case analysis of the value the computation branches on. *)
Ltac wp_step :=
  lazymatch goal with
  | |- wp (bind _ _) _ _ => apply wp_bind
  | |- wp (ret _) _ _ => apply wp_ret
  | |- wp (throw _) _ _ => apply wp_throw
  | |- wp (tryCatch _ _) _ _ => apply wp_tryCatch
  | |- wp (orElse _ _) _ _ => apply wp_orElse
  | |- wp (ignoreErrors _) _ _ => apply wp_ignoreErrors
  | |- wp (gets _) _ _ => apply wp_gets
  | |- wp get _ _ => apply wp_get
  | |- wp (modify _) _ _ => apply wp_modify
  | |- wp (observe _) _ _ => apply wp_observe
  | |- wp (if ?b then _ else _) _ _ => destruct b eqn:?
  | |- wp (match ?x with _ => _ end) _ _ => destruct x eqn:?
  end; cbv beta iota.

(** A computation of which nothing is needed: go on from any result. *)
Ltac wp_skip :=
  apply wp_any; intros [?|?] ?; cbv beta iota.

(** A computation that keeps the relation [R]: go on from any result, in a
    state related to the current one. *)
Ltac wp_keeps R :=
  eapply (keeps_wp (R:=R));
  [ solve [keeps_run | eauto with keeps typeclass_instances]
  | let res := fresh "res" in
    let r := fresh "r" in
    let Hrel := fresh "Hrel" in
    intros res r Hrel; destruct res; cbv beta iota ].


(** A computation [returns] when it never raises. *)

Section Returns.
Context {S : Type}.

Definition returns {A} (m : M S A) : Prop := forall s, exists a, fst (m s) = Ok a.

Lemma returns_ret A (a : A) : returns (ret a).
Proof. intros s. exists a. reflexivity. Qed.

Lemma returns_get : returns (@get S).
Proof. intros s. exists s. reflexivity. Qed.

Lemma returns_gets A (f : S -> A) : returns (gets f).
Proof. intros s. exists (f s). reflexivity. Qed.

Lemma returns_modify f : returns (@modify S f).
Proof. intros s. exists tt. reflexivity. Qed.

Lemma returns_bind A B (m : M S A) (k : A -> M S B) :
  returns m -> (forall a, returns (k a)) -> returns (bind m k).
Proof.
  intros Hm Hk s. unfold bind. destruct (Hm s) as [a Ha].
  destruct (m s) as [res s']. simpl in Ha. subst res. apply Hk.
Qed.

Lemma returns_tryCatch A (m : M S A) h : returns m -> returns (tryCatch m h).
Proof.
  intros Hm s. unfold tryCatch. destruct (Hm s) as [a Ha].
  destruct (m s) as [res s']. simpl in Ha. subst res. exists a. reflexivity.
Qed.

Lemma returns_orElse A (m : M S A) d : returns (orElse m d).
Proof.
  intros s. unfold orElse, tryCatch. destruct (m s) as [[a|msg] s'].
  - exists a. reflexivity.
  - exists d. reflexivity.
Qed.

Lemma returns_ignoreErrors A (m : M S A) : returns (ignoreErrors m).
Proof.
  intros s. unfold ignoreErrors. destruct (m s) as [res s']. exists tt. reflexivity.
Qed.

Lemma returns_keeps_wp A (R : S -> S -> Prop) (m : M S A) (Q : Res A -> S -> Prop) s :
  keeps R m -> returns m -> (forall a s', R s s' -> Q (Ok a) s') -> wp m Q s.
Proof.
  unfold wp. intros Hk Hr HQ. specialize (Hk s). destruct (Hr s) as [a Ha].
  rewrite Ha. apply HQ. exact Hk.
Qed.

End Returns.

Create HintDb returns.
#[global] Hint Resolve returns_ret returns_get returns_gets returns_modify returns_orElse
  returns_ignoreErrors : returns.

Ltac returns_step :=
  match goal with
  | |- returns (bind _ _) => apply returns_bind; [ | intros]
  | |- returns (tryCatch _ _) => apply returns_tryCatch
  | |- returns (orElse _ _) => apply returns_orElse
  | |- returns (ignoreErrors _) => apply returns_ignoreErrors
  | |- returns (ret _) => apply returns_ret
  | |- returns (gets _) => apply returns_gets
  | |- returns get => apply returns_get
  | |- returns (modify _) => apply returns_modify
  | |- returns (if ?b then _ else _) => destruct b
  | |- returns (match ?x with _ => _ end) => destruct x
  | |- returns _ => solve [eauto with returns]
  end.

Ltac returns_auto := repeat returns_step.

(** The session stays open: the page is never closed, its markup and its
    elements can always be read, and the waits, the screenshots and the
    writes of the log succeed. *)
Definition ownAction (a : Action) : bool :=
  match a with
  | WaitForTimeout _ | Screenshot _ | CopyToClassified _ _ _
  | LoggerEvent _ | LoggerStep _ _ _ => true
  | _ => false
  end.

#[global] Hint Extern 1 (ownAction _ = true) => reflexivity : returns.

Definition SessionStaysOpen (E : Env) : Prop :=
  (forall w, isClosed E w = false)
  /\ (forall w, exists c, content E w = Ok c)
  /\ (forall w, exists els, dom E w = Ok els)
  /\ (forall a w, ownAction a = true -> fst (act E a w) = Ok tt).

(** The dispatcher reports [performed = true] whenever it is called. *)
Definition AlwaysPerforms (E : Env) : Prop :=
  forall (t : ScreenType) (s : Sys E),
    t <> paywall ->
    exists result s', handleStepAction E t s = (Ok result, s') /\ performed result = true.

Section ReturnsRunner.
Variable E : Env.
Variable paths : FunnelPaths.
Hypothesis open : SessionStaysOpen E.

Lemma returns_onPage A (m : M (Sys E) A) : returns m -> returns (onPage m).
Proof.
  intros Hm r. unfold onPage, zoom. destruct (Hm (sys r)) as [a Ha].
  destruct (m (sys r)) as [res s']. simpl in *. exists a. exact Ha.
Qed.

Lemma returns_perform a : ownAction a = true -> returns (perform E a).
Proof.
  intros Ha s. unfold perform. destruct open as (_ & _ & _ & Hact).
  specialize (Hact a (world s) Ha). destruct (act E a (world s)) as [res w'].
  simpl in *. subst res. exists tt. reflexivity.
Qed.

Lemma returns_do a : ownAction a = true -> returns (do (E:=E) a).
Proof. intros Ha. unfold do. apply returns_onPage. apply returns_perform. exact Ha. Qed.

Lemma returns_pageContent : returns (pageContent E).
Proof.
  intros s. unfold pageContent, observe. destruct open as (_ & Hc & _).
  destruct (Hc (world s)) as [c Hs]. exists c. exact Hs.
Qed.

Lemma returns_pageUrl : returns (pageUrl E).
Proof. unfold pageUrl. returns_auto. Qed.

Lemma returns_classifyStep step : returns (classifyStep (E:=E) step).
Proof.
  unfold classifyStep. apply returns_bind.
  - apply returns_onPage. intros s. unfold observe, Classifier.classifyScreen.
    destruct open as (_ & Hc & Hd & _).
    destruct (Hc (world s)) as [c Hs]. destruct (Hd (world s)) as [els Hels].
    cbn [fst]. rewrite Hs, Hels. eexists. reflexivity.
  - intros c. returns_auto.
Qed.

Lemma returns_getStableDomSnapshot : returns (getStableDomSnapshot (E:=E)).
Proof. unfold getStableDomSnapshot. returns_auto; try apply returns_pageUrl. Qed.

Lemma returns_waitForPageTransition u : returns (waitForPageTransition (E:=E) u).
Proof.
  unfold waitForPageTransition.
  returns_auto; try apply returns_pageUrl; try (apply returns_perform; reflexivity).
Qed.

Lemma returns_say ms : returns (say (E:=E) ms).
Proof. unfold say. returns_auto. Qed.

Lemma returns_loggerStep step t : returns (loggerStep (E:=E) step t).
Proof. unfold loggerStep. returns_auto; try (apply returns_do; reflexivity). Qed.

Lemma returns_setHash h n : returns (setHash (E:=E) h n).
Proof. unfold setHash. returns_auto. Qed.

Lemma returns_recordStep t : returns (recordStep (E:=E) t).
Proof. unfold recordStep. returns_auto. Qed.

Lemma returns_setReachedPaywall : returns (setReachedPaywall (E:=E)).
Proof. unfold setReachedPaywall. returns_auto. Qed.

Lemma returns_setStepMessages ms : returns (setStepMessages (E:=E) ms).
Proof. unfold setStepMessages. returns_auto. Qed.

Lemma returns_setNoActionCount n : returns (setNoActionCount (E:=E) n).
Proof. unfold setNoActionCount. returns_auto. Qed.

Local Hint Resolve returns_perform returns_do returns_onPage returns_pageContent returns_pageUrl returns_classifyStep
  returns_getStableDomSnapshot returns_waitForPageTransition returns_say returns_loggerStep
  returns_setHash returns_recordStep returns_setReachedPaywall returns_setStepMessages
  returns_setNoActionCount : returns.

Lemma returns_paywallStop step t : returns (paywallStop (E:=E) step t).
Proof. unfold paywallStop. returns_auto. Qed.

Lemma returns_fingerprint t : returns (fingerprint (E:=E) t).
Proof. unfold fingerprint. returns_auto. Qed.

End ReturnsRunner.

#[global] Hint Resolve returns_perform returns_do returns_onPage returns_pageContent returns_pageUrl returns_classifyStep
  returns_getStableDomSnapshot returns_waitForPageTransition returns_say returns_loggerStep
  returns_setHash returns_recordStep returns_setReachedPaywall returns_setStepMessages
  returns_setNoActionCount returns_paywallStop returns_fingerprint : returns.

Lemma wp_op S A (H : Prop) (R : S -> S -> Prop) (m : M S A) (Q : Res A -> S -> Prop) s :
  keeps R m -> (H -> returns m) ->
  (forall res s', R s s' -> (H -> exists a, res = Ok a) -> Q res s') -> wp m Q s.
Proof.
  unfold wp. intros Hk Hr HQ. apply HQ; [apply Hk|].
  intros h. destruct (Hr h s) as [a Ha]. exists a. exact Ha.
Qed.

(** A computation that keeps the relation [R] and that returns when [H]
    holds: go on from any result. *)
Ltac wp_op H R :=
  eapply (@wp_op _ _ H R);
  [ solve [keeps_run | eauto with keeps typeclass_instances]
  | let h := fresh "h" in intros h; solve [returns_auto | eauto with returns]
  | let res := fresh "res" in
    let r := fresh "r" in
    let Hrel := fresh "Hrel" in
    let Hret := fresh "Hret" in
    intros res r Hrel Hret; destruct res; cbv beta iota ].

(** A result that is a raise although the computation returns. *)
Ltac no_raise :=
  match goal with
  | h : ?H, Hret : ?H -> exists a, Throw _ = Ok a |- _ =>
      destruct (Hret h) as [? ?]; discriminate
  end.

Section LoopDetection.
Variable E : Env.
Variable paths : FunnelPaths.

Lemma loopRescueOrStop_still step t h (r : Run E) :
  wp (loopRescueOrStop step t h)
     (fun res r' => res = Ok (Break LoopDetected) -> still r r') r.
Proof.
  unfold loopRescueOrStop.
  repeat first [ wp_step | wp_keeps (@still E) | wp_skip ].
  all: intros; try discriminate.
  all: repeat (etransitivity; [eassumption|]); reflexivity.
Qed.

Lemma paywallStop_flow step t (r : Run E) :
  wp (paywallStop step t)
     (fun res _ => forall flow, res = Ok flow -> flow = Break PaywallReached) r.
Proof.
  unfold paywallStop.
  repeat first [ wp_step | wp_skip ]; intros; congruence.
Qed.

Lemma actionPhase_flow step t (r : Run E) :
  wp (actionPhase step t)
     (fun res _ => forall reason, res = Ok (Break reason) ->
                                  reason = ClosedDuringAction \/ reason = NoActionTwice) r.
Proof.
  unfold actionPhase.
  repeat first [ wp_step | wp_skip ]; intros; try discriminate;
    match goal with H : Ok _ = Ok _ |- _ => injection H as <- end; auto.
Qed.

Lemma stepCatch_flow step msg (r : Run E) :
  wp (stepCatch step msg)
     (fun res _ => forall reason, res = Ok (Break reason) -> reason = ClosedDuringStep) r.
Proof.
  unfold stepCatch.
  repeat first [ wp_step | wp_skip ]; intros; congruence.
Qed.

(** The stop for a detected loop is taken only with both counters at
    their thresholds. *)
Lemma stepBody_loopDetected step (r : Run E) :
  wp (stepBody paths step)
     (fun res r' => res = Ok (Break LoopDetected) ->
                    RUN_CONFIG.sameDomHashLimit <= sameHashCount r' /\ 2 <= noActionCount r') r.
Proof.
  unfold stepBody.
  repeat first
    [ lazymatch goal with
      | |- wp (paywallStop _ _) _ _ =>
          eapply wp_weaken; [apply paywallStop_flow|];
          cbv beta; intros ? ? Hflow Hres; specialize (Hflow _ Hres); discriminate
      | |- wp (actionPhase _ _) _ _ =>
          eapply wp_weaken; [apply actionPhase_flow|];
          cbv beta; intros ? ? Hflow Hres; destruct (Hflow _ Hres); discriminate
      | |- wp (loopRescueOrStop _ _ _) _ _ =>
          eapply wp_weaken; [apply loopRescueOrStop_still|];
          cbv beta; intros ? ? Hstill Hres; destruct (Hstill Hres) as [Hsame Hno]
      end
    | wp_step | wp_skip ].
  all: intros; try discriminate.
  match goal with H : (_ && _) = true |- _ => apply andb_true_iff in H; destruct H as [H1 H2] end.
  apply Nat.leb_le in H1, H2. rewrite Hsame, Hno. split; assumption.
Qed.

Lemma iteration_loopDetected step (r : Run E) :
  wp (iteration paths step)
     (fun res r' => res = Ok (Break LoopDetected) ->
                    RUN_CONFIG.sameDomHashLimit <= sameHashCount r' /\ 2 <= noActionCount r') r.
Proof.
  unfold iteration.
  repeat first
    [ lazymatch goal with
      | |- wp (stepBody _ _) _ _ =>
          eapply wp_weaken; [apply stepBody_loopDetected|];
          cbv beta; intros [?|?] ? Hbody; [exact Hbody|];
          eapply wp_weaken; [apply stepCatch_flow|];
          cbv beta; intros ? ? Hflow Hres; specialize (Hflow _ Hres); discriminate
      end
    | wp_step | wp_skip ].
  all: intros; discriminate.
Qed.

(** *** With a dispatcher that always performs *)

Hypothesis performs : AlwaysPerforms E.

Lemma dispatch_performs step t (r : Run E) :
  ScreenType_eqb t paywall = false ->
  wp (dispatch step t)
     (fun res r' => quiet r r' /\ exists result, res = Ok (Acted result) /\ performed result = true) r.
Proof.
  intros Ht. unfold dispatch, wp, tryCatch, bind, onPage, zoom.
  destruct (performs (t:=t) (sys r)) as (result & s' & Hrun & Hp).
  { intros ->. discriminate. }
  pose proof (grows_handleStepAction t (sys r)) as Hgrow.
  rewrite Hrun in *. cbn [snd fst] in *. split.
  - apply ignores_page. exact Hgrow.
  - exists result. split; [reflexivity | exact Hp].
Qed.

Definition noActionPending (r : Run E) : Prop := noActionCount r = 0.

Lemma quiet_pending (a b : Run E) : quiet a b -> noActionPending a -> noActionPending b.
Proof. unfold noActionPending. intros [_ H] H0. congruence. Qed.

Ltac pending :=
  unfold noActionPending in *;
  repeat match goal with H : quiet _ _ |- _ => destruct H as [_ H] end;
  cbn in *; congruence.

Lemma actionPhase_performs step t (r : Run E) :
  ScreenType_eqb t paywall = false ->
  noActionPending r ->
  wp (actionPhase step t)
     (fun res r' => noActionPending r'
                    /\ (forall reason, res <> Ok (Break reason))
                    /\ (SessionStaysOpen E -> res = Ok Continue)) r.
Proof.
  intros Ht Hpending. unfold actionPhase.
  wp_step. wp_op (SessionStaysOpen E) (@quiet E).
  2:{ repeat split; try discriminate; [pending | intros; no_raise]. }
  wp_step.
  eapply wp_weaken; [apply (@dispatch_performs step t r0 Ht)|].
  cbv beta. intros res r1 [Hq (result & -> & Hp)].
  cbn [actionResultOf]. rewrite Hp. cbn [negb].
  unfold setNoActionCount.
  repeat first [ wp_step | wp_op (SessionStaysOpen E) (@quiet E) ].
  all: repeat split; try discriminate; try (intros; no_raise); try reflexivity.
  all: pending.
Qed.

(** A step of a run in which the dispatcher always performs: the count of
    the steps without action stays at 0, and the step ends the run only on
    a paywall; it goes on or reaches a paywall when the session stays open. *)
Lemma stepBody_performs step (r : Run E) :
  noActionPending r ->
  wp (stepBody paths step)
     (fun res r' => noActionPending r'
                    /\ (forall reason, res = Ok (Break reason) -> reason = PaywallReached)
                    /\ (SessionStaysOpen E ->
                        res = Ok Continue \/ res = Ok (Break PaywallReached))) r.
Proof.
  intros Hpending. unfold stepBody.
  repeat first
    [ lazymatch goal with
      | |- wp (actionPhase _ _) _ _ =>
          eapply wp_weaken;
          [ apply actionPhase_performs; [assumption | pending] |];
          cbv beta; intros ? ? (Hp & Hflow & Hopen);
          split; [exact Hp | split; [intros ? Hres; elim (Hflow _ Hres) | auto]]
      | |- wp (paywallStop ?step ?t) _ ?r =>
          pose proof (paywallStop_flow step t r) as Hflow;
          pose proof (quiet_paywallStop step t r) as Hquiet;
          pose proof (fun h : SessionStaysOpen E => returns_paywallStop h step t r) as Hreturns;
          unfold wp in *; destruct (paywallStop step t r) as [res r']; cbn [fst snd] in *;
          split; [pending | split];
          [ intros ? Hres; specialize (Hflow _ Hres); congruence
          | intros h; destruct (Hreturns h) as [flow ->];
            right; rewrite (Hflow flow eq_refl); reflexivity ]
      | |- wp (loopRescueOrStop _ _ _) _ _ =>
          exfalso;
          match goal with
          | H : (_ && (2 <=? _)) = true |- _ =>
              apply andb_true_iff in H; destruct H as [_ H]; apply Nat.leb_le in H;
              revert H
          end;
          assert (Hzero : forall x : Run E, noActionPending x -> 2 <= noActionCount x -> False)
            by (unfold noActionPending; intros; lia);
          apply Hzero; pending
      | |- wp (gets _) _ _ => wp_step
      | |- wp (bind _ _) _ _ => wp_step
      | |- wp (if _ then _ else _) _ _ => wp_step
      | |- wp (ret _) _ _ => wp_step
      end
    | wp_op (SessionStaysOpen E) (@quiet E) ].
  all: solve [repeat split; [pending | discriminate | intros; no_raise]].
Qed.

Lemma iteration_performs step (r : Run E) :
  noActionPending r ->
  wp (iteration paths step)
     (fun res r' => noActionPending r'
                    /\ (forall reason, res = Ok (Break reason) ->
                          reason = PaywallReached \/ reason = PageClosed
                          \/ reason = ClosedDuringStep)
                    /\ (SessionStaysOpen E ->
                        res = Ok Continue \/ res = Ok (Break PaywallReached))) r.
Proof.
  intros Hpending. unfold iteration.
  wp_step. wp_step. wp_step.
  - (* the page is closed *)
    wp_step. wp_op (SessionStaysOpen E) (@quiet E).
    + wp_step. split; [pending | split].
      * intros reason Hres. injection Hres as <-. auto.
      * intros (Hclosed & _).
        match goal with H : isClosed _ _ = true |- _ => rewrite Hclosed in H; discriminate end.
    + repeat split; [pending | discriminate | intros; no_raise].
  - wp_step. wp_op (SessionStaysOpen E) (@quiet E).
    2:{ repeat split; [pending | discriminate | intros; no_raise]. }
    wp_step.
    eapply wp_weaken; [apply (@stepBody_performs step r0); pending|].
    cbv beta. intros [flow|msg] r1 (Hp & Hflow & Hopen).
    + repeat split; auto.
    + pose proof (stepCatch_flow step msg r1) as Hcatch.
      pose proof (quiet_stepCatch step msg r1) as Hquiet.
      unfold wp in *. destruct (stepCatch step msg r1) as [res r2]. cbn [fst snd] in *.
      repeat split.
      * pending.
      * intros reason Hres. right. right. apply Hcatch. exact Hres.
      * intros h. destruct (Hopen h); discriminate.
Qed.

(** The loop of such a run never stops for a detected loop nor for want
    of action; it ends on a paywall or on a step budget when the session
    stays open. *)
Lemma loop_performs (remaining : nat) : forall (step : nat) (r : Run E) res r',
  noActionPending r ->
  loop paths remaining step r = (res, r') ->
  (forall reason, res = Ok reason ->
     reason <> LoopDetected /\ reason <> NoActionTwice /\ reason <> ClosedDuringAction)
  /\ (SessionStaysOpen E ->
      res = Ok PaywallReached \/ res = Ok StepBudget \/ res = Ok ExtendedBudget).
Proof.
  induction remaining as [|remaining IH]; intros step r res r' Hpending Hloop;
    cbn [loop] in Hloop.
  - injection Hloop as <- <-. split; [|auto].
    intros reason Hres. injection Hres as <-. repeat split; discriminate.
  - unfold bind at 1 in Hloop. unfold gets at 1 in Hloop.
    destruct (negb (emailReached r) && (RUN_CONFIG.maxSteps <? step)).
    { injection Hloop as <- <-. split; [|auto].
      intros reason Hres. injection Hres as <-. repeat split; discriminate. }
    destruct (emailReached r && (RUN_CONFIG.maxSteps + 15 <? step)).
    { injection Hloop as <- <-. split; [|auto].
      intros reason Hres. injection Hres as <-. repeat split; discriminate. }
    unfold bind at 1 in Hloop. unfold countIteration at 1, modify at 1 in Hloop.
    set (r1 := mkRun _ _ _ _ _ _ _ _ _ _) in Hloop.
    assert (Hp1 : noActionPending r1) by exact Hpending.
    unfold bind at 1 in Hloop.
    pose proof (iteration_performs step Hp1) as Hit. unfold wp in Hit.
    destruct (iteration paths step r1) as [flow r2]. cbn [fst snd] in Hit.
    destruct Hit as (Hp2 & Hflow & Hopen).
    destruct flow as [[|reason]|msg].
    + exact (IH _ _ _ _ Hp2 Hloop).
    + injection Hloop as <- <-. split.
      * intros reason' Hres. injection Hres as <-.
        destruct (Hflow _ eq_refl) as [-> | [-> | ->]]; repeat split; discriminate.
      * intros h. destruct (Hopen h) as [Hc | Hb]; [discriminate|].
        injection Hb as ->. auto.
    + injection Hloop as <- <-. split.
      * intros reason Hres. discriminate.
      * intros h. destruct (Hopen h); discriminate.
Qed.

End LoopDetection.




(** ** The claims about the rotation cursor *)

Section RunCursor.
Variable E : Env.
Variable paths : FunnelPaths.

Lemma runFunnel_cursor address (r : Run E) :
  fallbackOptionShift (sys r) <= fallbackOptionShift (sys (snd (runFunnel paths address r))).
Proof.
  destruct (runFunnel_withinBudget paths address r) as (_ & _ & _ & H). exact H.
Qed.

Lemma nth_error_numbered (texts : list string) : forall (start p : nat) c,
  nth_error (combine (List.seq start (List.length texts)) texts) p = Some c -> fst c = start + p.
Proof.
  induction texts as [|t texts IH]; intros start p c; simpl.
  - destruct p; discriminate.
  - destruct p as [|p]; simpl.
    + intros H. injection H as <-. simpl. lia.
    + intros H. apply IH in H. lia.
Qed.

Lemma length_numbered (texts : list string) : List.length (numbered texts) = List.length texts.
Proof.
  unfold numbered. rewrite length_combine, length_seq. apply Nat.min_id.
Qed.

Lemma length_asCards (texts : list string) : List.length (asCards texts) = List.length texts.
Proof.
  unfold asCards. rewrite length_combine, length_seq. apply Nat.min_id.
Qed.

Lemma nth_error_asCards (texts : list string) : forall (start p : nat) c,
  nth_error (combine texts (List.seq start (List.length texts))) p = Some c -> snd c = start + p.
Proof.
  induction texts as [|t texts IH]; intros start p c; simpl.
  - destruct p; discriminate.
  - destruct p as [|p]; simpl.
    + intros H. injection H as <-. simpl. lia.
    + intros H. apply IH in H. lia.
Qed.

Lemma Forall_combine_left A B (P : A -> Prop) (l : list A) : forall (l' : list B),
  Forall P l -> Forall (fun c => P (fst c)) (combine l l').
Proof.
  induction l as [|x l IH]; intros l' H; simpl; [constructor|].
  destruct l' as [|y l']; [constructor|].
  inversion H; subst. constructor; [assumption | apply IH; assumption].
Qed.

Lemma Forall_combine_right A B (P : B -> Prop) (l' : list B) : forall (l : list A),
  Forall P l' -> Forall (fun c => P (snd c)) (combine l l').
Proof.
  induction l' as [|y l' IH]; intros l H; simpl.
  - destruct l; constructor.
  - destruct l as [|x l]; [constructor|].
    inversion H; subst. constructor; [assumption | apply IH; assumption].
Qed.

End RunCursor.



(** C8, as the code has it.  With at least two candidates and no keyword
    match, the selection among radio controls, check boxes and buttons takes
    the candidate at the position of the cursor modulo min(count, 4) and
    advances the cursor; the selection among cards takes the second card,
    of index 1, and leaves the cursor as it is. *)
Theorem card_selection_takes_second :
  forall (E : Env) (s : Sys E) (texts : list string),
    2 <= List.length texts ->
    Forall (fun t => isSmart t = false /\ isSmart (Text.toLowerCase t) = false) texts ->
    let position := fallbackOptionShift s mod Nat.min (List.length texts) 4 in
    let advanced := mkSys E (world s) (fallbackOptionShift s + 1) in
    select E (AmongRadios (numbered texts)) s = (Ok (Some position), advanced)
    /\ select E (AmongButtons (numbered texts)) s = (Ok (Some position), advanced)
    /\ (exists text, chooseCard SMART_KEYWORDS (asCards texts) = Some (text, 1))
    /\ fallbackOptionShift (snd (clickFirstOptionCard s)) = fallbackOptionShift s.
Proof.
  intros E s texts Hlen Hplain position advanced.
  assert (Hradio : ambiguous (AmongRadios (numbered texts))).
  { unfold ambiguous, numbered. simpl.
    apply (@Forall_combine_right _ _ (fun t => isSmart t = false)).
    eapply Forall_impl; [|exact Hplain]. simpl. tauto. }
  assert (Hbutton : ambiguous (AmongButtons (numbered texts))).
  { unfold ambiguous, numbered. simpl.
    apply (@Forall_combine_right _ _ (fun t => isSmart (Text.toLowerCase t) = false)).
    eapply Forall_impl; [|exact Hplain]. simpl. tauto. }
  repeat split.
  - destruct (@select_rotates E _ s Hradio) as [c [Hnth Hsel]];
      [simpl; rewrite length_numbered; exact Hlen|].
    simpl candidatesOf in *. rewrite length_numbered in *.
    apply nth_error_numbered in Hnth. simpl in Hnth. rewrite Hsel, Hnth. reflexivity.
  - destruct (@select_rotates E _ s Hbutton) as [c [Hnth Hsel]];
      [simpl; rewrite length_numbered; exact Hlen|].
    simpl candidatesOf in *. rewrite length_numbered in *.
    apply nth_error_numbered in Hnth. simpl in Hnth. rewrite Hsel, Hnth. reflexivity.
  - unfold chooseCard.
    rewrite (@find_none _ (fun c => existsb (fun k => Text.includes k (Text.toLowerCase (fst c)))
                                            SMART_KEYWORDS)).
    + rewrite length_asCards. apply Nat.leb_le in Hlen. rewrite Hlen.
      destruct (nth_error (asCards texts) 1) as [[text i]|] eqn:Hnth.
      * apply nth_error_asCards in Hnth. simpl in Hnth. subst i. exists text. reflexivity.
      * apply nth_error_None in Hnth. rewrite length_asCards in Hnth.
        apply Nat.leb_le in Hlen. lia.
    + unfold asCards.
      apply (@Forall_combine_left _ _ (fun t => isSmart (Text.toLowerCase t) = false)).
      eapply Forall_impl; [|exact Hplain]. simpl. tauto.
  - symmetry. apply (keeps_clickFirstOptionCard (R:=shiftSame)).
Qed.

Lemma card_selection_takes_second_witness :
  let E := Page.static Examples.site Examples.threeCards in
  let texts := ["Lose weight"; "Build muscle"; "Stay fit"] in
  let s := mkSys E [] 7 in
  2 <= List.length texts
  /\ Forall (fun t => isSmart t = false /\ isSmart (Text.toLowerCase t) = false) texts
  /\ select E (AmongRadios (numbered texts)) s = (Ok (Some 1), mkSys E [] 8)
  /\ select E (AmongButtons (numbered texts)) s = (Ok (Some 1), mkSys E [] 8)
  /\ (exists text, chooseCard SMART_KEYWORDS (asCards texts) = Some (text, 1))
  /\ fallbackOptionShift (snd (clickFirstOptionCard s)) = 7.
Proof.
  intros E texts s.
  assert (Hlen : 2 <= List.length texts) by (simpl; lia).
  assert (Hplain : Forall (fun t => isSmart t = false /\ isSmart (Text.toLowerCase t) = false) texts).
  { repeat constructor. }
  split; [exact Hlen|]. split; [exact Hplain|].
  exact (@card_selection_takes_second E s texts Hlen Hplain).
Defined.

(** C8 as stated fails: among three cards without keyword match, with the
    cursor at 0, the card clicked is the second, of index 1, where the
    cursor modulo min(3, 4) is 0, and the cursor is still 0 afterwards. *)
Lemma card_rotation_counterexample :
  let E := Page.static Examples.site Examples.threeCards in
  let s := processStart E [] in
  let cards := indexed 0 (Classifier.scanCards [] (Page.elements Examples.threeCards)) in
  cards = [("Lose weight", 0); ("Build muscle", 1); ("Stay fit", 2)]
  /\ chooseCard SMART_KEYWORDS cards = Some ("Build muscle", 1)
  /\ chooseCard SMART_KEYWORDS cards
     <> nth_error cards (fallbackOptionShift s mod Nat.min (List.length cards) 4)
  /\ fst (clickFirstOptionCard s)
     = Ok (true, ["Clicked option card (fallback): " ++ dq ++ "Build muscle" ++ dq ++ "."])
  /\ fallbackOptionShift (snd (clickFirstOptionCard s)) = 0
  /\ fallbackOptionShift (snd (clickFirstOptionCard s)) <> fallbackOptionShift s + 1.
Proof.
  repeat split; try reflexivity; discriminate.
Qed.

(** ** The question case and the count of steps without action *)

Section QuestionDispatch.
Variable E : Env.

Lemma handleQuestion_performs ms (s : Sys E) :
  wp (handleQuestion ms) (fun res _ => forall result, res = Ok result -> performed result = true) s.
Proof.
  unfold handleQuestion.
  repeat first [ wp_step | wp_skip ]; intros result Hres; try discriminate;
    injection Hres as <-; cbn [performed];
    match goal with |- ?x || _ || _ = true => destruct x; reflexivity end.
Qed.

Lemma handleStepAction_question_performs (s : Sys E) :
  wp (handleStepAction E question)
     (fun res _ => forall result, res = Ok result -> performed result = true) s.
Proof.
  unfold handleStepAction. wp_step. wp_skip.
  - apply handleQuestion_performs.
  - discriminate.
Qed.

(** What the call of the dispatcher in a step gives, by what the dispatcher does. *)
Lemma dispatch_outcome step t (r : Run E) :
  wp (dispatch step t)
     (fun res r' =>
        quiet r r'
        /\ match fst (handleStepAction E t (sys r)) with
           | Ok result => res = Ok (Acted result)
           | Throw msg =>
               if saysClosed msg then res = Ok ActionClosed \/ exists m, res = Throw m
               else res = Ok ActionFailed
           end) r.
Proof.
  split; [apply quiet_dispatch|].
  unfold dispatch, tryCatch, bind, onPage, zoom.
  destruct (handleStepAction E t (sys r)) as [[result|msg] s']; cbn [fst snd]; [reflexivity|].
  destruct (saysClosed msg); [|reflexivity].
  unfold bind, say, modify. cbn [fst snd].
  match goal with |- context [loggerStep step t ?x] => destruct (loggerStep step t x) as [[u|m] x'] end;
    cbn [fst]; eauto.
Qed.

Lemma wp_onPage_pageUrl (Q : Res string -> Run E -> Prop) (r : Run E) :
  Q (Ok (url E (world (sys r)))) (setSys (sys r) r) -> wp (onPage (pageUrl E)) Q r.
Proof. exact (fun H => H). Qed.

Ltac counted :=
  repeat match goal with H : quiet _ _ |- _ => destruct H as [_ H] end;
  cbn in *; try lia; try congruence.

(** How the end of a step changes the count of the steps without action,
    by what the dispatcher does in it. *)
Lemma actionPhase_count step t (r : Run E) :
  wp (actionPhase step t)
     (fun res r' =>
        match fst (handleStepAction E t (sys r)) with
        | Ok result =>
            if performed result
            then noActionCount r' = 0 /\ res <> Ok (Break NoActionTwice)
            else noActionCount r' = noActionCount r + 1
        | Throw msg =>
            if saysClosed msg
            then noActionCount r' = noActionCount r
            else noActionCount r' = noActionCount r + 1
        end) r.
Proof.
  unfold actionPhase. apply wp_bind. apply wp_onPage_pageUrl.
  apply wp_bind. eapply wp_weaken; [apply dispatch_outcome|].
  cbv beta. intros res r1 [Hq Hout]. cbn [sys setSys] in Hout.
  destruct (fst (handleStepAction E t (sys r))) as [result|msg].
  - subst res. cbn [actionResultOf]. destruct (performed result); cbn [negb];
      unfold setNoActionCount, say;
      repeat first [ wp_step | wp_keeps (@quiet E) ];
      try split; try discriminate; counted.
  - destruct (saysClosed msg).
    + destruct Hout as [-> | [m ->]]; [wp_step|]; counted.
    + subst res. cbn [actionResultOf negb performed messages].
      unfold setNoActionCount, say.
      repeat first [ wp_step | wp_keeps (@quiet E) ]; counted.
Qed.

End QuestionDispatch.

(** C10, as the code has it.  Whenever the dispatch of the question
    archetype returns, it returns [performed = true]; the step then resets
    the count of the steps without action and does not stop for want of
    action.  The count is incremented on a question screen when the
    dispatch raises an error that does not tell of a closed page: the driver
    takes such a step for one without action. *)
Theorem question_dispatch_performs :
  forall (E : Env),
    (forall (s : Sys E) (result : ActionResult) (s' : Sys E),
        handleStepAction E question s = (Ok result, s') -> performed result = true)
    /\ (forall (step : nat) (r : Run E) (result : ActionResult) (s' : Sys E),
           handleStepAction E question (sys r) = (Ok result, s') ->
           noActionCount (snd (actionPhase step question r)) = 0
           /\ fst (actionPhase step question r) <> Ok (Break NoActionTwice))
    /\ (forall (step : nat) (r : Run E) (msg : string) (s' : Sys E),
           handleStepAction E question (sys r) = (Throw msg, s') ->
           saysClosed msg = false ->
           noActionCount (snd (actionPhase step question r)) = noActionCount r + 1).
Proof.
  intros E. split; [|split].
  - intros s result s' Hrun.
    pose proof (handleStepAction_question_performs s) as H.
    unfold wp in H. rewrite Hrun in H. exact (H result eq_refl).
  - intros step r result s' Hrun.
    pose proof (actionPhase_count step question r) as H.
    pose proof (handleStepAction_question_performs (sys r)) as Hp.
    unfold wp in H, Hp. rewrite Hrun in H, Hp. cbn [fst] in H, Hp.
    rewrite (Hp result eq_refl) in H. exact H.
  - intros step r msg s' Hrun Hclosed.
    pose proof (actionPhase_count step question r) as H.
    unfold wp in H. rewrite Hrun in H. cbn [fst] in H. rewrite Hclosed in H. exact H.
Qed.

(** The pages that raise during the dispatch. *)
Module Flaky.
Import Page.

Definition navigationError : string :=
  "Execution context was destroyed, most likely because of a navigation.".

(** A session in which the elements cannot be queried right after the
    screenshot of a step was filed, as when the page is then navigating. *)
Definition busyAfterEvidence (page : Html) : Env :=
  env (mkScript Examples.site page (fun _ => None)
                (fun w => match w with
                          | CopyToClassified _ _ _ :: _ => Some navigationError
                          | _ => None
                          end)).

End Flaky.

(** Four radio options: the dispatch performs and the count is reset; when
    the elements cannot be queried, the dispatch raises and the count grows. *)
Lemma question_dispatch_performs_witness :
  let E := Page.static Examples.site Examples.fourRadios in
  let r := initialRun (processStart E []) in
  let result := fst (handleStepAction E question (sys r)) in
  let F := Flaky.busyAfterEvidence Examples.fourRadios in
  let busy := initialRun (mkSys F [CopyToClassified "question" "shot.png" "quiz_01_question.png"] 0) in
  (exists done, result = Ok done /\ performed done = true)
  /\ noActionCount (snd (actionPhase 1 question r)) = 0
  /\ fst (actionPhase 1 question r) <> Ok (Break NoActionTwice)
  /\ fst (handleStepAction F question (sys busy)) = Throw Flaky.navigationError
  /\ saysClosed Flaky.navigationError = false
  /\ noActionCount (snd (actionPhase 1 question busy)) = noActionCount busy + 1.
Proof.
  intros E r result F busy.
  destruct (question_dispatch_performs E) as (Hperformed & Hreset & _).
  destruct (question_dispatch_performs F) as (_ & _ & Hcounted).
  destruct (handleStepAction E question (sys r)) as [[done|msg] s'] eqn:Hrun;
    [|vm_compute in Hrun; discriminate Hrun].
  destruct (handleStepAction F question (sys busy)) as [[done'|msg] s''] eqn:Hbusy;
    [vm_compute in Hbusy; discriminate Hbusy|].
  assert (Hmsg : msg = Flaky.navigationError).
  { vm_compute in Hbusy. injection Hbusy as <- _. reflexivity. }
  assert (Hopen : saysClosed msg = false) by (rewrite Hmsg; vm_compute; reflexivity).
  split; [exists done; split; [reflexivity | exact (Hperformed _ _ _ Hrun)]|].
  destruct (Hreset 1 r done s' Hrun) as [Hzero Hgoes].
  split; [exact Hzero|]. split; [exact Hgoes|].
  split; [rewrite Hmsg; reflexivity|].
  split; [rewrite <- Hmsg; exact Hopen|].
  exact (Hcounted 1 busy msg s'' Hbusy Hopen).
Defined.


(** C10 as stated fails: on this question screen the first query of the
    dispatcher raises in both of the first two steps; the driver counts each
    as a step without action and stops for want of action, all screens
    having been classified as [question]. *)
Lemma question_no_action_counterexample :
  let E := Flaky.busyAfterEvidence Examples.fourRadios in
  let start := initialRun (processStart E []) in
  let firstStep := snd (iteration Examples.paths 1 start) in
  let shot := "results/funnel-example-quiz/01_question.png" in
  let atDispatch :=
    mkSys E [CopyToClassified "question" shot "funnel-example-quiz_01_question.png";
             Screenshot shot; WaitForTimeout 1500%N] 0 in
  Classifier.classifyScreen E [WaitForTimeout 1500%N] 1
  = Ok (mkClassification question "Found 4 radio/checkbox options.")
  /\ fst (handleStepAction E question atDispatch) = Throw Flaky.navigationError
  /\ saysClosed Flaky.navigationError = false
  /\ fst (iteration Examples.paths 1 start) = Ok Continue
  /\ stepMessages firstStep
     = ["Classifier: Found 4 radio/checkbox options."; "Saved screenshot: 01_question.png";
        "Action error: " ++ Flaky.navigationError; "No action performed. Will retry next step."]
  /\ noActionCount firstStep = 1
  /\ fst (runLoop Examples.paths start) = Ok NoActionTwice
  /\ detectedTypes (snd (runLoop Examples.paths start)) = [question]
  /\ noActionCount (snd (runLoop Examples.paths start)) = 2.
Proof.
  vm_compute. repeat split; reflexivity.
Qed.

(** The actions that fill a field with the email address, and those that
    click a control. *)
Definition fillsEmail (a : Action) : bool :=
  match a with
  | Fill _ value => String.eqb value INPUT_DEFAULTS.email
  | _ => false
  end.

Definition clicksControl (a : Action) : bool :=
  match a with
  | Click _ _ => true
  | _ => false
  end.

(** ** The email case and its trace *)

(** The message of a click on a continue control. *)
Definition continueMessage : string := "Clicked continue/next.".

(** A message of the submit chain that notes a transition. *)
Definition notesTransition (m : string) : bool := Text.includes "Transition detected" m.

(** What the trace of an email step says of the outcome: a continue
    control was clicked, or a transition was noted. *)
Definition tracePerformed (ms : list string) : bool :=
  existsb (String.eqb continueMessage) ms || existsb notesTransition ms.

Fixpoint noCapitalT (s : string) : bool :=
  match s with
  | EmptyString => true
  | String c st' => negb (Ascii.eqb c "T") && noCapitalT st'
  end.

(** A message other than that of a click on a continue control. *)
Definition foreign (m : string) : bool := negb (String.eqb continueMessage m).

(** A message that neither is that of a click on a continue control nor
    notes a transition. *)
Definition unmarked (m : string) : bool := noCapitalT m && foreign m.

(** [out] is [ms] followed by messages that satisfy [f]. *)
Definition grownBy (f : string -> bool) (ms out : list string) : Prop :=
  exists extra, out = (ms ++ extra)%list /\ forallb f extra = true.

Section EmailTrace.
Variable E : Env.

Lemma noCapitalT_app a b : noCapitalT (a ++ b) = noCapitalT a && noCapitalT b.
Proof.
  induction a as [|c a IH]; simpl; [reflexivity|]. rewrite IH. apply andb_assoc.
Qed.

Lemma noCapitalT_uint u : noCapitalT (NilEmpty.string_of_uint u) = true.
Proof. induction u; simpl; auto. Qed.

Lemma noCapitalT_ofNat n : noCapitalT (Text.ofNat n) = true.
Proof. apply noCapitalT_uint. Qed.

Lemma noCapitalT_notes m : noCapitalT m = true -> notesTransition m = false.
Proof.
  unfold notesTransition. induction m as [|c m IH]; intros H; [reflexivity|].
  simpl in H. apply andb_true_iff in H. destruct H as [Hc Hm].
  apply negb_true_iff in Hc.
  change (Text.includes "Transition detected" (String c m))
    with (match Text.stripPrefix false "Transition detected" (String c m) with
          | Some _ => true
          | None => Text.includes "Transition detected" m
          end).
  assert (Hp : Text.stripPrefix false "Transition detected" (String c m) = None).
  { change (Text.stripPrefix false "Transition detected" (String c m))
      with (if Ascii.eqb "T" c then Text.stripPrefix false "ransition detected" m else None).
    rewrite Ascii.eqb_sym, Hc. reflexivity. }
  rewrite Hp. apply IH. exact Hm.
Qed.

Lemma unmarked_trace ms : forallb unmarked ms = true -> tracePerformed ms = false.
Proof.
  unfold tracePerformed. induction ms as [|m ms IH]; intros H; [reflexivity|].
  cbn [forallb] in H. apply andb_true_iff in H. destruct H as [Hm Hms].
  unfold unmarked, foreign in Hm. apply andb_true_iff in Hm. destruct Hm as [Ht Hc].
  apply negb_true_iff in Hc. specialize (IH Hms). apply orb_false_iff in IH.
  destruct IH as [IH1 IH2]. cbn [existsb].
  rewrite Hc, IH1, IH2, (noCapitalT_notes _ Ht). reflexivity.
Qed.

Lemma foreign_trace ms :
  forallb foreign ms = true -> tracePerformed ms = existsb notesTransition ms.
Proof.
  unfold tracePerformed. intros H.
  assert (Hn : existsb (String.eqb continueMessage) ms = false).
  { induction ms as [|m ms IH]; [reflexivity|].
    cbn [forallb] in H. apply andb_true_iff in H. destruct H as [Hm Hms].
    apply negb_true_iff in Hm. cbn [existsb]. rewrite Hm. auto. }
  rewrite Hn. reflexivity.
Qed.

Lemma tracePerformed_app a b : tracePerformed (a ++ b) = tracePerformed a || tracePerformed b.
Proof.
  unfold tracePerformed. rewrite !existsb_app.
  destruct (existsb (String.eqb continueMessage) a), (existsb (String.eqb continueMessage) b),
    (existsb notesTransition a), (existsb notesTransition b); reflexivity.
Qed.

Lemma tracePerformed_continue ms : tracePerformed (push ms continueMessage) = true.
Proof.
  unfold push. rewrite tracePerformed_app.
  replace (tracePerformed [continueMessage]) with true by reflexivity. apply orb_true_r.
Qed.

Lemma grownBy_refl f ms : grownBy f ms ms.
Proof. exists []. split; [symmetry; apply app_nil_r | reflexivity]. Qed.

Lemma grownBy_push f ms out m : grownBy f ms out -> f m = true -> grownBy f ms (push out m).
Proof.
  intros [extra [-> Hf]] Hm. exists (extra ++ [m])%list. split.
  - unfold push. symmetry. apply app_assoc.
  - rewrite forallb_app, Hf. cbn [forallb]. rewrite Hm. reflexivity.
Qed.

Lemma grownBy_trans f a b c : grownBy f a b -> grownBy f b c -> grownBy f a c.
Proof.
  intros [x [-> Hx]] [y [-> Hy]]. exists (x ++ y)%list. split.
  - symmetry. apply app_assoc.
  - rewrite forallb_app, Hx, Hy. reflexivity.
Qed.

Lemma grownBy_app f ms extra : forallb f extra = true -> grownBy f ms (ms ++ extra).
Proof. intros H. exists extra. auto. Qed.

Lemma grownBy_nil f out : forallb f out = true -> grownBy f [] out.
Proof. intros H. exists out. auto. Qed.

Lemma grownBy_all f out : grownBy f [] out -> forallb f out = true.
Proof. intros [extra [-> H]]. exact H. Qed.

Lemma grownBy_start f ms out : forallb f ms = true -> grownBy f ms out -> forallb f out = true.
Proof. intros H [extra [-> Hx]]. rewrite forallb_app, H, Hx. reflexivity. Qed.

Lemma unmarked_foreign ms : forallb unmarked ms = true -> forallb foreign ms = true.
Proof.
  induction ms as [|m ms IH]; intros H; [reflexivity|].
  cbn [forallb] in *. apply andb_true_iff in H. destruct H as [Hm Hms].
  unfold unmarked in Hm. apply andb_true_iff in Hm. destruct Hm as [_ Hc].
  rewrite Hc. auto.
Qed.

(** *** The messages of the parts of the dispatch *)

(** The computation [m], when it returns, returns a value that satisfies [P]. *)
Definition yields {A} (m : M (Sys E) A) (P : A -> Prop) : Prop :=
  forall s, wp m (fun res _ => forall a, res = Ok a -> P a) s.

Lemma wp_yields A (m : M (Sys E) A) (P : A -> Prop) (Q : Res A -> Sys E -> Prop) s :
  yields m P ->
  (forall a st', P a -> Q (Ok a) st') ->
  (forall msg st', Q (Throw msg) st') ->
  wp m Q s.
Proof.
  intros Hm Hok Hthrow. eapply wp_weaken; [apply Hm|].
  cbv beta. intros [a|msg] st' H; auto.
Qed.

Lemma closed_unmarked phrase :
  noCapitalT phrase = true ->
  unmarked ("Closed cookie/popup via exact phrase: " ++ fst (exactPhrase phrase)) = true.
Proof.
  intros H. unfold unmarked. apply andb_true_iff. split; [|reflexivity].
  cbn. rewrite noCapitalT_app, H. reflexivity.
Qed.

Lemma closeByPhrase_grows phrases :
  Forall (fun phrase => noCapitalT phrase = true) phrases ->
  yields (closeByPhrase (E:=E) (map exactPhrase phrases)) (grownBy unmarked []).
Proof.
  induction 1 as [|phrase phrases Hp _ IH]; intros s; cbn [map closeByPhrase exactPhrase].
  - wp_step. intros ms Hms. injection Hms as <-. apply grownBy_refl.
  - repeat first
      [ lazymatch goal with
        | |- wp (closeByPhrase _) _ _ => apply IH
        end
      | wp_step | wp_skip ].
    all: intros ms Hms; try discriminate.
    injection Hms as <-. apply grownBy_nil. cbn [forallb]. rewrite andb_true_r.
    apply (closed_unmarked _ Hp).
Qed.

Lemma closeCommonPopups_grows : yields (@closeCommonPopups E) (grownBy unmarked []).
Proof.
  intros s. unfold closeCommonPopups. wp_step.
  apply wp_yields with (P := grownBy unmarked []).
  - apply closeByPhrase_grows. repeat constructor.
  - intros ms st' Hms.
    repeat first [ wp_step | wp_skip ].
    all: intros ms' Hres; try discriminate; injection Hres as <-.
    all: repeat apply grownBy_push; auto.
  - intros msg st' v Hv. discriminate.
Qed.

Lemma mapping_unmarked item :
  In item mapping -> noCapitalT (snd (fst item)) = true /\ noCapitalT (snd item) = true.
Proof.
  intros Hin. repeat (destruct Hin as [<-|Hin]; [split; reflexivity|]). destruct Hin.
Qed.

Lemma guessFromBody_unmarked t : noCapitalT (guessFromBody t) = true.
Proof.
  unfold guessFromBody.
  repeat match goal with
         | |- context [if ?b then _ else _] => destruct b
         end; reflexivity.
Qed.

Lemma filled_unmarked label value :
  noCapitalT label = true -> noCapitalT value = true ->
  unmarked ("Filled " ++ label ++ "=" ++ value) = true.
Proof.
  intros Hl Hv. unfold unmarked. rewrite !noCapitalT_app, Hl, Hv. reflexivity.
Qed.

Lemma fillInputsLoop_grows inputs indices : forall ms,
  yields (fillInputsLoop (E:=E) inputs indices ms) (grownBy unmarked ms).
Proof.
  induction indices as [|index rest IH]; intros ms s; cbn [fillInputsLoop].
  - wp_step. intros out Hout. injection Hout as <-. apply grownBy_refl.
  - repeat first
      [ lazymatch goal with
        | |- wp (fillInputsLoop _ _ ?ms') _ _ =>
            eapply wp_weaken; [apply (IH ms')|];
            cbv beta; intros ? ? Hrest out Hout;
            refine (grownBy_trans _ (Hrest out Hout))
        | |- wp (reactSafeType _ _) _ _ => wp_skip
        end
      | wp_step | wp_skip ].
    all: try (intros out Hout; discriminate).
    all: try apply grownBy_refl.
    all: apply grownBy_push; [apply grownBy_refl|].
    all: lazymatch goal with
         | Hf : find _ mapping = Some ?item |- _ =>
             apply find_some in Hf; destruct Hf as [Hin _];
             destruct (mapping_unmarked Hin); apply filled_unmarked; assumption
         | |- _ => apply filled_unmarked; [reflexivity | apply guessFromBody_unmarked]
         end.
Qed.

Lemma fillInputByHints_grows : yields (@fillInputByHints E) (grownBy unmarked []).
Proof.
  intros s. unfold fillInputByHints. wp_step. wp_skip.
  - apply fillInputsLoop_grows.
  - intros v Hv. discriminate.
Qed.

Lemma clickConsentLabels_grows l indices : forall ms,
  yields (clickConsentLabels (E:=E) l indices ms) (grownBy unmarked ms).
Proof.
  induction indices as [|i rest IH]; intros ms s; cbn [clickConsentLabels].
  - wp_step. intros out Hout. injection Hout as <-. apply grownBy_refl.
  - repeat first
      [ lazymatch goal with
        | |- wp (clickConsentLabels _ _ ?ms') _ _ =>
            eapply wp_weaken; [apply (IH ms')|];
            cbv beta; intros ? ? Hrest out Hout;
            refine (grownBy_trans _ (Hrest out Hout))
        end
      | wp_step | wp_skip ].
    all: try (intros out Hout; discriminate).
    all: apply grownBy_push; [apply grownBy_refl|].
    all: unfold unmarked; rewrite !noCapitalT_app, noCapitalT_ofNat; reflexivity.
Qed.

Lemma clickConsentBoxes_grows l indices : forall ms,
  yields (clickConsentBoxes (E:=E) l indices ms) (grownBy unmarked ms).
Proof.
  induction indices as [|i rest IH]; intros ms s; cbn [clickConsentBoxes].
  - wp_step. intros out Hout. injection Hout as <-. apply grownBy_refl.
  - repeat first
      [ lazymatch goal with
        | |- wp (clickConsentBoxes _ _ ?ms') _ _ =>
            eapply wp_weaken; [apply (IH ms')|];
            cbv beta; intros ? ? Hrest out Hout;
            refine (grownBy_trans _ (Hrest out Hout))
        | |- wp (consentAncestorClick _) _ _ => wp_skip
        end
      | wp_step | wp_skip ].
    all: try (intros out Hout; discriminate).
    all: try apply grownBy_refl.
    all: apply grownBy_push; [apply grownBy_refl|].
    all: unfold unmarked; rewrite !noCapitalT_app, noCapitalT_ofNat; reflexivity.
Qed.

Lemma clickConsent_grows ms : yields (clickConsent (E:=E) ms) (grownBy unmarked ms).
Proof.
  intros s. unfold clickConsent. wp_step. wp_skip; [|intros v Hv; discriminate].
  wp_step. apply wp_yields with (P := grownBy unmarked ms).
  - apply clickConsentLabels_grows.
  - intros out st' Hout. wp_step.
    + wp_step. wp_skip; [|intros v Hv; discriminate].
      eapply wp_weaken; [apply clickConsentBoxes_grows|].
      cbv beta. intros ? ? Hrest v Hv. exact (grownBy_trans Hout (Hrest v Hv)).
    + wp_step. intros v Hv. injection Hv as <-. exact Hout.
  - intros msg st' v Hv. discriminate.
Qed.

Lemma submitAttempt_grows l before clickedMsg transitionMsg ms :
  foreign clickedMsg = true -> foreign transitionMsg = true ->
  yields (submitAttempt (E:=E) l before clickedMsg transitionMsg ms)
         (fun out => grownBy foreign ms (snd out)).
Proof.
  intros Hc Ht s. unfold submitAttempt.
  repeat first [ wp_step | wp_skip ].
  all: intros out Hout; try discriminate; injection Hout as <-; cbn [snd].
  all: repeat apply grownBy_push; auto using grownBy_refl.
Qed.

Lemma runEmailSubmitChain_grows : yields (@runEmailSubmitChain E) (grownBy foreign []).
Proof.
  intros s. unfold runEmailSubmitChain. wp_step. wp_skip; [|intros v Hv; discriminate].
  wp_step. wp_skip; [|intros v Hv; discriminate].
  wp_step.
  apply wp_yields with (P := grownBy foreign []).
  - intros st1. repeat first [ wp_step | wp_skip ].
    all: intros out Hout; try discriminate; injection Hout as <-.
    all: apply grownBy_nil; reflexivity.
  - intros ms st1 Hms. wp_step. wp_skip; [|intros v Hv; discriminate].
    wp_step.
    + wp_step. intros v Hv. injection Hv as <-. apply grownBy_push; auto.
    + wp_step. eapply wp_yields.
      * apply submitAttempt_grows; reflexivity.
      * intros [returned ms1] st2 Hms1. cbn [snd] in Hms1. cbv beta iota.
        pose proof (grownBy_trans Hms Hms1) as Hms1'.
        wp_step; [wp_step; intros v Hv; injection Hv as <-; exact Hms1'|].
        wp_step. eapply wp_yields.
        -- apply submitAttempt_grows; reflexivity.
        -- intros [returned2 ms2] st3 Hms2. cbn [snd] in Hms2. cbv beta iota.
           pose proof (grownBy_trans Hms1' Hms2) as Hms2'.
           repeat first [ wp_step | wp_skip ].
           all: intros v Hv; try discriminate; injection Hv as <-.
           all: repeat apply grownBy_push; auto.
        -- intros msg st3 v Hv. discriminate.
      * intros msg st2 v Hv. discriminate.
  - intros msg st1 v Hv. discriminate.
Qed.

Lemma submitEmailStep_grows : yields (@submitEmailStep E) (grownBy foreign []).
Proof.
  intros s. unfold submitEmailStep. wp_step.
  apply wp_yields with (P := grownBy foreign []).
  - apply runEmailSubmitChain_grows.
  - intros ms st' Hms. repeat first [ wp_step | wp_skip ].
    all: intros v Hv; try discriminate; injection Hv as <-.
    all: repeat apply grownBy_push; auto.
  - intros msg st' v Hv. discriminate.
Qed.

Lemma fillEmail_grows ms :
  yields (fillEmail (E:=E) ms)
         (fun out => forallb foreign (fst out) = true /\ grownBy unmarked ms (snd out)).
Proof.
  intros s. unfold fillEmail. wp_step. wp_skip; [|intros v Hv; discriminate].
  wp_step.
  - wp_step. wp_skip; [|intros v Hv; discriminate]. wp_step.
    + repeat first
        [ lazymatch goal with
          | |- wp (reactSafeType _ _) _ _ => wp_skip
          end
        | wp_step | wp_skip ].
      all: intros v Hv; try discriminate; injection Hv as <-.
      all: split; [reflexivity|]; cbn [snd]; apply grownBy_push; auto using grownBy_refl.
    + wp_step. apply wp_yields with (P := grownBy unmarked []).
      * apply fillInputByHints_grows.
      * intros fillMessages st' Hfill. wp_step. intros v Hv. injection Hv as <-.
        cbn [fst snd]. pose proof (grownBy_all Hfill) as Hall. split.
        -- apply unmarked_foreign. exact Hall.
        -- eapply grownBy_trans; [|apply grownBy_app; exact Hall].
           apply grownBy_push; [apply grownBy_refl | reflexivity].
      * intros msg st' v Hv. discriminate.
  - wp_step. apply wp_yields with (P := grownBy foreign []).
    + apply submitEmailStep_grows.
    + intros em st' Hem. wp_step. intros v Hv. injection Hv as <-. cbn [fst snd].
      split; [exact (grownBy_all Hem) | apply grownBy_refl].
    + intros msg st' v Hv. discriminate.
Qed.

(** The email case reports [performed] as its trace says. *)
Lemma handleEmail_traced ms :
  forallb unmarked ms = true ->
  yields (handleEmail (E:=E) ms) (fun result => performed result = tracePerformed (messages result)).
Proof.
  intros Hms s. unfold handleEmail. wp_step. eapply wp_yields.
  - apply fillEmail_grows.
  - intros [emailMessages ms1] st1 [Hem Hms1]. cbn [fst snd] in Hem, Hms1. cbv beta iota.
    wp_step. eapply wp_yields.
    + apply clickConsent_grows.
    + intros ms2 st2 [extra [-> Hextra]]. cbv beta.
      wp_step. wp_skip; [|intros v Hv; discriminate].
      wp_step. intros result Hresult. injection Hresult as <-.
      cbn [performed messages].
      assert (Hown : tracePerformed ((ms1 ++ emailMessages) ++ extra)
                     = existsb notesTransition emailMessages).
      { rewrite !tracePerformed_app, (unmarked_trace _ (grownBy_start Hms Hms1)),
          (unmarked_trace _ Hextra), (foreign_trace _ Hem).
        cbn [orb]. apply orb_false_r. }
      fold notesTransition.
      destruct a.
      * rewrite tracePerformed_continue. reflexivity.
      * rewrite Hown. reflexivity.
    + intros msg st2 v Hv. discriminate.
  - intros msg st1 v Hv. discriminate.
Qed.

Lemma handleStepAction_email_traced :
  yields (handleStepAction E email) (fun result => performed result = tracePerformed (messages result)).
Proof.
  intros s. unfold handleStepAction. wp_step. eapply wp_yields.
  - apply closeCommonPopups_grows.
  - intros ms st' Hms. apply handleEmail_traced. exact (grownBy_all Hms).
  - intros msg st' v Hv. discriminate.
Qed.

End EmailTrace.




(** * Further properties *)

(** ** Texts that include a text *)

Lemma stripPrefix_app k : forall rest, Text.stripPrefix false k (k ++ rest) = Some rest.
Proof.
  induction k as [|c k IH]; intros rest; [destruct rest; reflexivity|].
  cbn [append Text.stripPrefix]. rewrite Ascii.eqb_refl. apply IH.
Qed.

Lemma stripPrefix_split k : forall s rest,
  Text.stripPrefix false k s = Some rest -> s = k ++ rest.
Proof.
  induction k as [|c k IH]; intros s rest H.
  - destruct s; cbn in H; injection H as <-; reflexivity.
  - destruct s as [|d s]; [discriminate H|]. cbn [Text.stripPrefix] in H.
    destruct (Ascii.eqb c d) eqn:Hcd; [|discriminate H].
    apply Ascii.eqb_eq in Hcd. subst d. cbn [append]. f_equal. apply IH. exact H.
Qed.

Lemma includes_here k s rest : Text.stripPrefix false k s = Some rest -> Text.includes k s = true.
Proof. intros H. destruct s; cbn [Text.includes]; rewrite H; reflexivity. Qed.

Lemma includes_later k c s : Text.includes k s = true -> Text.includes k (String c s) = true.
Proof.
  intros H. cbn [Text.includes]. destruct (Text.stripPrefix false k (String c s)); auto.
Qed.

Lemma includes_intro k post : forall pre, Text.includes k (pre ++ k ++ post) = true.
Proof.
  induction pre as [|c pre IH]; cbn [append].
  - eapply includes_here. apply stripPrefix_app.
  - apply includes_later. exact IH.
Qed.

Lemma includes_elim k : forall s,
  Text.includes k s = true -> exists pre post, s = pre ++ k ++ post.
Proof.
  induction s as [|c s IH]; intros H; cbn [Text.includes] in H.
  - destruct (Text.stripPrefix false k EmptyString) as [rest|] eqn:Hk; [|discriminate H].
    exists EmptyString, rest. cbn [append]. exact (stripPrefix_split _ _ Hk).
  - destruct (Text.stripPrefix false k (String c s)) as [rest|] eqn:Hk.
    + exists EmptyString, rest. cbn [append]. exact (stripPrefix_split _ _ Hk).
    + destruct (IH H) as [pre [post ->]]. exists (String c pre), post. reflexivity.
Qed.

Lemma append_assoc a : forall b c : string, (a ++ b) ++ c = a ++ b ++ c.
Proof. induction a as [|x a IH]; intros b c; [reflexivity|]. cbn. rewrite IH. reflexivity. Qed.

(** A text that includes a text includes what that text includes. *)
Lemma includes_part a k b s :
  Text.includes (a ++ k ++ b) s = true -> Text.includes k s = true.
Proof.
  intros H. apply includes_elim in H. destruct H as [pre [post ->]].
  replace (pre ++ (a ++ k ++ b) ++ post) with ((pre ++ a) ++ k ++ (b ++ post)).
  - apply includes_intro.
  - rewrite !append_assoc. reflexivity.
Qed.


(** ** The names of the evidence files *)

Section FileNames.
Import FileManager.

Lemma slugChar_not_dash c : isSlugChar c = true -> isDash c = false.
Proof.
  destruct c as [[] [] [] [] [] [] [] []]; vm_compute; congruence.
Qed.

Lemma slugChar_lower c : isSlugChar c = true -> Text.lowerChar c = c.
Proof.
  destruct c as [[] [] [] [] [] [] [] []]; vm_compute; congruence.
Qed.

Lemma isDash_eq c : isDash c = true -> c = "-"%char.
Proof. apply Ascii.eqb_eq. Qed.

Lemma singleDashes_dashRuns s : forall inRun,
  singleDashes (negb inRun) (dashRuns inRun s) = true.
Proof.
  induction s as [|c s IH]; intros inRun; cbn [dashRuns]; [reflexivity|].
  destruct (isSlugChar c) eqn:Hc.
  - cbn [singleDashes]. rewrite Hc. apply (IH false).
  - destruct inRun; [apply (IH true)|].
    change (singleDashes false (dashRuns true s) = true). apply (IH true).
Qed.

Lemma singleDashes_weaken s : forall d, singleDashes d s = true -> singleDashes true s = true.
Proof.
  destruct s as [|c s]; intros d H; [reflexivity|].
  cbn [singleDashes] in *. destruct (isSlugChar c); [exact H|].
  apply andb_true_iff in H. destruct H as [H1 H2].
  apply andb_true_iff in H1. destruct H1 as [H1 _]. rewrite H1, H2. reflexivity.
Qed.

Lemma dropLeadingDashes_first s : isSomeDash (firstChar (dropLeadingDashes s)) = false.
Proof.
  induction s as [|c s IH]; [reflexivity|].
  cbn [dropLeadingDashes]. destruct (isDash c) eqn:Hc; [exact IH|].
  cbn. exact Hc.
Qed.

Lemma singleDashes_dropLeading s : forall d,
  singleDashes d s = true -> singleDashes true (dropLeadingDashes s) = true.
Proof.
  induction s as [|c s IH]; intros d H; [reflexivity|].
  cbn [dropLeadingDashes]. destruct (isDash c) eqn:Hc.
  - cbn [singleDashes] in H. destruct (isSlugChar c) eqn:Hs.
    + rewrite (slugChar_not_dash _ Hs) in Hc. discriminate.
    + apply andb_true_iff in H. destruct H as [_ H]. exact (IH false H).
  - exact (singleDashes_weaken _ _ H).
Qed.

Lemma dropTrailingDashes_last s : isSomeDash (lastChar (dropTrailingDashes s)) = false.
Proof.
  induction s as [|c s IH]; [reflexivity|].
  cbn [dropTrailingDashes]. destruct (dropTrailingDashes s) as [|a r] eqn:Hr.
  - destruct (isDash c) eqn:Hc; [reflexivity | cbn; exact Hc].
  - exact IH.
Qed.

Lemma dropTrailingDashes_first s :
  isSomeDash (firstChar s) = false -> isSomeDash (firstChar (dropTrailingDashes s)) = false.
Proof.
  destruct s as [|c s]; intros H; [reflexivity|].
  cbn [dropTrailingDashes]. destruct (dropTrailingDashes s) as [|a r].
  - destruct (isDash c) eqn:Hc; [reflexivity | cbn; exact Hc].
  - exact H.
Qed.

Lemma singleDashes_dropTrailing s : forall d,
  singleDashes d s = true -> singleDashes d (dropTrailingDashes s) = true.
Proof.
  induction s as [|c s IH]; intros d H; [reflexivity|].
  cbn [dropTrailingDashes]. cbn [singleDashes] in H.
  destruct (isSlugChar c) eqn:Hs.
  - specialize (IH true H). destruct (dropTrailingDashes s) as [|a r].
    + rewrite (slugChar_not_dash _ Hs). cbn [singleDashes]. rewrite Hs. reflexivity.
    + cbn [singleDashes]. rewrite Hs. exact IH.
  - apply andb_true_iff in H. destruct H as [H1 H2]. specialize (IH false H2).
    apply andb_true_iff in H1. destruct H1 as [Hc Hd].
    destruct (dropTrailingDashes s) as [|a r].
    + rewrite Hc. reflexivity.
    + cbn [singleDashes]. rewrite Hs, Hc, Hd. exact IH.
Qed.

Lemma sanitize_clean segment : clean (sanitize segment) = true.
Proof.
  unfold clean, sanitize.
  set (runs := dashRuns false (Text.toLowerCase segment)).
  pose proof (singleDashes_dashRuns (Text.toLowerCase segment) false) as Hruns.
  fold runs in Hruns. cbn [negb] in Hruns.
  rewrite (singleDashes_dropTrailing _ _ (singleDashes_dropLeading _ _ Hruns)).
  rewrite (dropTrailingDashes_first _ (dropLeadingDashes_first runs)).
  rewrite dropTrailingDashes_last. reflexivity.
Qed.

(** A clean text is left as it is by each step of [sanitize]. *)
Lemma singleDashes_lower s : forall d, singleDashes d s = true -> Text.toLowerCase s = s.
Proof.
  induction s as [|c s IH]; intros d H; [reflexivity|].
  cbn [singleDashes] in H. cbn [Text.toLowerCase].
  destruct (isSlugChar c) eqn:Hs.
  - rewrite (slugChar_lower _ Hs), (IH true H). reflexivity.
  - apply andb_true_iff in H. destruct H as [H1 H2].
    apply andb_true_iff in H1. destruct H1 as [Hc _].
    apply isDash_eq in Hc. subst c. rewrite (IH false H2). reflexivity.
Qed.

Lemma singleDashes_runs s : forall d, singleDashes d s = true -> dashRuns (negb d) s = s.
Proof.
  induction s as [|c s IH]; intros d H; [reflexivity|].
  cbn [singleDashes] in H. cbn [dashRuns].
  destruct (isSlugChar c) eqn:Hs.
  - f_equal. exact (IH true H).
  - apply andb_true_iff in H. destruct H as [H1 H2].
    apply andb_true_iff in H1. destruct H1 as [Hc Hd]. subst d.
    apply isDash_eq in Hc. subst c. cbn [negb]. f_equal. exact (IH false H2).
Qed.

Lemma dropLeadingDashes_id s : isSomeDash (firstChar s) = false -> dropLeadingDashes s = s.
Proof.
  destruct s as [|c s]; intros H; [reflexivity|].
  cbn in H. cbn [dropLeadingDashes]. rewrite H. reflexivity.
Qed.

Lemma dropTrailingDashes_id s : isSomeDash (lastChar s) = false -> dropTrailingDashes s = s.
Proof.
  induction s as [|c s IH]; intros H; [reflexivity|].
  cbn [dropTrailingDashes]. destruct s as [|a r].
  - cbn in H. cbn. rewrite H. reflexivity.
  - rewrite IH; [reflexivity | exact H].
Qed.

Lemma sanitize_id s : clean s = true -> sanitize s = s.
Proof.
  unfold clean, sanitize. intros H.
  apply andb_true_iff in H. destruct H as [H Hlast].
  apply andb_true_iff in H. destruct H as [Hsingle Hfirst].
  apply negb_true_iff in Hlast. apply negb_true_iff in Hfirst.
  rewrite (singleDashes_lower _ _ Hsingle).
  rewrite (singleDashes_runs _ _ Hsingle : dashRuns false s = s).
  rewrite (dropLeadingDashes_id _ Hfirst). apply dropTrailingDashes_id. exact Hlast.
Qed.

Lemma singleDashes_slugText s : forall d, singleDashes d s = true -> slugText s = true.
Proof.
  induction s as [|c s IH]; intros d H; [reflexivity|].
  cbn [singleDashes] in H. cbn [slugText].
  destruct (isSlugChar c) eqn:Hs; [exact (IH true H)|].
  apply andb_true_iff in H. destruct H as [H1 H2].
  apply andb_true_iff in H1. destruct H1 as [Hc _]. rewrite Hc. exact (IH false H2).
Qed.

Lemma singleDashes_no_pair s : forall d,
  singleDashes d s = true -> Text.includes "--" s = false.
Proof.
  induction s as [|c s IH]; intros d H; [reflexivity|].
  cbn [singleDashes] in H.
  change (Text.includes "--" (String c s))
    with (match (if Ascii.eqb "-" c then Text.stripPrefix false "-" s else None) with
          | Some _ => true
          | None => Text.includes "--" s
          end).
  destruct (isSlugChar c) eqn:Hs.
  - pose proof (slugChar_not_dash _ Hs) as Hc. unfold isDash in Hc.
    rewrite Ascii.eqb_sym, Hc. exact (IH true H).
  - apply andb_true_iff in H. destruct H as [H1 H2]. rewrite (IH false H2).
    destruct (Ascii.eqb "-" c); [|reflexivity].
    destruct s as [|a r]; [reflexivity|].
    cbn [singleDashes] in H2. destruct (isSlugChar a) eqn:Ha.
    + pose proof (slugChar_not_dash _ Ha) as Hd. unfold isDash in Hd.
      change (Text.stripPrefix false "-" (String a r))
        with (if Ascii.eqb "-" a then Some r else None).
      rewrite Ascii.eqb_sym, Hd. reflexivity.
    + rewrite andb_false_r in H2. discriminate.
Qed.

Lemma slugText_app a b : slugText (a ++ b) = slugText a && slugText b.
Proof.
  induction a as [|c a IH]; [reflexivity|].
  cbn [append slugText]. rewrite IH. apply andb_assoc.
Qed.

Lemma slugText_substring s : forall n, slugText s = true -> slugText (substring 0 n s) = true.
Proof.
  induction s as [|c s IH]; intros n H; destruct n; try reflexivity.
  cbn [slugText] in H. apply andb_true_iff in H. destruct H as [Hc Hs].
  cbn [substring slugText]. rewrite Hc. exact (IH n Hs).
Qed.

Lemma length_substring s : forall n, String.length (substring 0 n s) <= n.
Proof.
  induction s as [|c s IH]; intros n; destruct n; cbn [substring String.length]; try lia.
  specialize (IH n). lia.
Qed.

Lemma slugText_sanitize s : slugText (sanitize s) = true.
Proof.
  pose proof (sanitize_clean s) as H. unfold clean in H.
  apply andb_true_iff in H. destruct H as [H _].
  apply andb_true_iff in H. destruct H as [H _].
  exact (singleDashes_slugText _ _ H).
Qed.

Lemma slugText_join parts :
  Forall (fun part => slugText part = true) parts -> slugText (Text.join "-" parts) = true.
Proof.
  unfold Text.join. induction 1 as [|part parts Hpart Hparts IH]; [reflexivity|].
  cbn [String.concat]. destruct parts as [|next rest]; [exact Hpart|].
  rewrite !slugText_app, Hpart, IH. reflexivity.
Qed.

(** X1.  [sanitize] gives a text of [[a-z0-9]] and dashes, in which no dash
    follows a dash and none stands at the start or at the end, whatever the
    segment it is given. *)
Theorem sanitize_gives_clean_text :
  forall segment : string,
    clean (sanitize segment) = true
    /\ slugText (sanitize segment) = true
    /\ Text.includes "--" (sanitize segment) = false
    /\ firstChar (sanitize segment) <> Some "-"%char
    /\ lastChar (sanitize segment) <> Some "-"%char.
Proof.
  intros segment. pose proof (sanitize_clean segment) as Hclean.
  split; [exact Hclean|]. unfold clean in Hclean.
  apply andb_true_iff in Hclean. destruct Hclean as [H Hlast].
  apply andb_true_iff in H. destruct H as [Hsingle Hfirst].
  apply negb_true_iff in Hlast. apply negb_true_iff in Hfirst.
  split; [exact (singleDashes_slugText _ _ Hsingle)|].
  split; [exact (singleDashes_no_pair _ _ Hsingle)|].
  split; intros Heq; [rewrite Heq in Hfirst | rewrite Heq in Hlast]; discriminate.
Qed.

(** X2.  [sanitize] leaves a text it has given as it is. *)
Theorem sanitize_idempotent :
  forall segment : string, sanitize (sanitize segment) = sanitize segment.
Proof.
  intros segment. apply sanitize_id. apply sanitize_clean.
Qed.

(** X3.  The slug of an address is never empty, has at most 80 characters,
    all of [[a-z0-9-]], and the directory of the funnel is [results/] followed
    by it. *)
Theorem slug_is_a_file_name :
  forall parsed : ParsedUrl,
    1 <= String.length (slugFromUrl parsed) <= 80
    /\ slugText (slugFromUrl parsed) = true
    /\ funnelDir (funnelPaths parsed) = "results/" ++ slugFromUrl parsed
    /\ logPath (funnelPaths parsed) = funnelDir (funnelPaths parsed) ++ "/log.txt".
Proof.
  intros parsed.
  cut (1 <= String.length (slugFromUrl parsed) <= 80 /\ slugText (slugFromUrl parsed) = true).
  { intros [Hlen Htext]. repeat split; try reflexivity; tauto. }
  unfold slugFromUrl.
  set (parts := filter nonEmpty _).
  assert (Hparts : Forall (fun part => slugText part = true) parts).
  { apply Forall_forall. intros part Hin. apply filter_In in Hin. destruct Hin as [Hin _].
    cbn [In] in Hin. destruct Hin as [<-|[<-|[<-|[]]]]; apply slugText_sanitize. }
  pose proof (slugText_substring _ 80 (slugText_join Hparts)) as Htext.
  pose proof (length_substring (Text.join "-" parts) 80) as Hlen.
  unfold Text.slice0. set (joined := substring 0 80 _) in *.
  unfold nonEmpty. destruct (0 <? String.length joined) eqn:Hne.
  - apply Nat.ltb_lt in Hne. split; [lia | exact Htext].
  - split; [cbn; lia | reflexivity].
Qed.

Lemma ofNat_read n : readNat (Text.ofNat n) = Some n.
Proof.
  unfold readNat, Text.ofNat. rewrite NilEmpty.usu. cbn [option_map].
  f_equal. apply DecimalNat.Unsigned.of_to.
Qed.

Lemma pad2_read n : readNat (Text.pad2 n) = Some n.
Proof.
  unfold Text.pad2. destruct (String.length (Text.ofNat n) <? 2); [|apply ofNat_read].
  pose proof (ofNat_read n) as H. unfold readNat in *.
  change (NilEmpty.uint_of_string ("0" ++ Text.ofNat n))
    with (match NilEmpty.uint_of_string (Text.ofNat n) with
          | Some d => Some (Decimal.D0 d)
          | None => None
          end).
  destruct (NilEmpty.uint_of_string (Text.ofNat n)) as [d|]; [|discriminate].
  cbn [option_map] in *. injection H as H. f_equal.
  rewrite <- H. reflexivity.
Qed.

Fixpoint allDigits (s : string) : bool :=
  match s with
  | EmptyString => true
  | String c s' => Text.isDigit c && allDigits s'
  end.

Lemma allDigits_uint d : allDigits (NilEmpty.string_of_uint d) = true.
Proof. induction d; cbn; auto. Qed.

Lemma allDigits_pad2 n : allDigits (Text.pad2 n) = true.
Proof.
  unfold Text.pad2, Text.ofNat.
  destruct (_ <? 2); [cbn [append allDigits]; rewrite allDigits_uint; reflexivity|].
  apply allDigits_uint.
Qed.

(** Two texts of digits followed by an underscore and more: the digits
    and the rest are the same on both sides. *)
Lemma digits_split a : forall b x y,
  allDigits a = true -> allDigits b = true ->
  a ++ String "_" x = b ++ String "_" y -> a = b /\ x = y.
Proof.
  induction a as [|c a IH]; intros [|d b] x y Ha Hb Heq; cbn [append] in Heq.
  - injection Heq as ->. split; reflexivity.
  - injection Heq as <- _. cbn in Hb. discriminate.
  - injection Heq as -> _. cbn in Ha. discriminate.
  - injection Heq as -> Heq. cbn [allDigits] in Ha, Hb.
    apply andb_true_iff in Ha. apply andb_true_iff in Hb.
    destruct (IH b x y (proj2 Ha) (proj2 Hb) Heq) as [-> ->]. split; reflexivity.
Qed.

Lemma append_nil_r s : s ++ EmptyString = s.
Proof. induction s as [|c s IH]; [reflexivity|]. cbn. rewrite IH. reflexivity. Qed.

Lemma length_append a b : String.length (a ++ b) = String.length a + String.length b.
Proof. induction a as [|c a IH]; [reflexivity|]. cbn. rewrite IH. reflexivity. Qed.

Lemma append_same_tail a : forall b z, a ++ z = b ++ z -> a = b.
Proof.
  induction a as [|c a IH]; intros [|d b] z Heq; cbn [append] in Heq.
  - reflexivity.
  - apply (f_equal String.length) in Heq. cbn in Heq. rewrite length_append in Heq. lia.
  - apply (f_equal String.length) in Heq. cbn in Heq. rewrite length_append in Heq. lia.
  - injection Heq as -> Heq. rewrite (IH b z Heq). reflexivity.
Qed.

Lemma append_same_head a : forall x y, a ++ x = a ++ y -> x = y.
Proof.
  induction a as [|c a IH]; intros x y Heq; cbn [append] in Heq; [exact Heq|].
  injection Heq as Heq. exact (IH x y Heq).
Qed.

(** X4.  The name of the screenshot of a step tells the step and the type:
    two steps, or two types, never give the same name, nor the same name
    among the classified copies of one funnel; the number of the step can be
    read back from the name. *)
Theorem screenshot_names_differ :
  forall (step step' : nat) (type type' : string),
    (buildScreenshotFilename step type = buildScreenshotFilename step' type' ->
     step = step' /\ type = type')
    /\ (forall slug,
           buildClassifiedFilename slug step type = buildClassifiedFilename slug step' type' ->
           step = step' /\ type = type')
    /\ readNat (Text.pad2 step) = Some step.
Proof.
  intros step step' type type'.
  assert (Hkey : Text.pad2 step ++ "_" ++ type ++ ".png"
                 = Text.pad2 step' ++ "_" ++ type' ++ ".png" ->
                 step = step' /\ type = type').
  { intros Heq.
    destruct (digits_split _ _ _ _ (allDigits_pad2 step) (allDigits_pad2 step') Heq)
      as [Hpad Hrest].
    split.
    - pose proof (pad2_read step) as H. rewrite Hpad, pad2_read in H. congruence.
    - exact (append_same_tail _ _ _ Hrest). }
  split; [exact Hkey|]. split; [|apply pad2_read].
  intros slug Heq. unfold buildClassifiedFilename in Heq.
  apply append_same_head in Heq. cbn [append] in Heq. injection Heq as Heq.
  apply Hkey. exact Heq.
Qed.

End FileNames.

Lemma screenshot_names_differ_witness :
  buildScreenshotFilename 7 "question" = "07_question.png"
  /\ (7 = 7 /\ "question" = "question")
  /\ FileManager.readNat (Text.pad2 7) = Some 7.
Proof.
  destruct (screenshot_names_differ 7 7 "question" "question") as (Hnames & _ & Hread).
  split; [reflexivity|]. split; [apply Hnames; reflexivity | exact Hread].
Defined.


(** ** More on the classifier *)

Section ClassifierVerdicts.
Import Classifier.

Lemma leb_mono k a b : a <= b -> (k <=? a) = true -> (k <=? b) = true.
Proof. intros Hab H. apply Nat.leb_le in H. apply Nat.leb_le. lia. Qed.

(** The paywall signal of a page, once there at a step, is there at every
    later step. *)
Lemma strongPaywallSignal_mono content els step step' :
  step <= step' ->
  strongPaywallSignal content els step = true ->
  strongPaywallSignal content els step' = true.
Proof.
  intros Hle. unfold strongPaywallSignal, aggressivePaywall, lateStageSoftPaywall,
    lateStagePriceOfferPaywall.
  destruct (10 <=? step) eqn:H10; [rewrite (leb_mono 10 Hle H10)|];
  destruct (20 <=? step) eqn:H20; try rewrite (leb_mono 20 Hle H20);
  destruct (15 <=? step) eqn:H15; try rewrite (leb_mono 15 Hle H15);
  destruct (1 <=? priceCount content), (1 <=? paywallCtaCount els),
    (Regex.test aggressiveRe content), (Regex.test lateStageSoftRe content),
    (Regex.test lateStagePriceOfferRe content), (2 <=? priceCount content),
    (hasPaywallText content);
  cbn; intros H; try discriminate H; try reflexivity;
  rewrite ?andb_false_r, ?orb_true_r; reflexivity.
Qed.

Lemma paywall_verdict_rule pageContent els step :
  type (classify pageContent els step) = paywall -> paywallRule pageContent els step = true.
Proof.
  intros H. destruct (paywallRule pageContent els step) eqn:Hrule; [reflexivity|].
  rewrite (classify_without_paywall _ _ _ Hrule) in H.
  elim (classify_first_step pageContent els). exact H.
Qed.

(** X5.  A page classified as paywall at a step is classified as paywall at
    every later step. *)
Theorem paywall_verdict_persists :
  forall (pageContent : string) (els : list Dom.Element) (step step' : nat),
    step <= step' ->
    type (classify pageContent els step) = paywall ->
    type (classify pageContent els step') = paywall.
Proof.
  intros pageContent els step step' Hle H.
  apply paywall_verdict_rule in H. apply classify_paywall.
  unfold paywallRule in *. apply andb_true_iff in H. destruct H as [Hstep Hsignal].
  apply Nat.ltb_lt in Hstep.
  rewrite (strongPaywallSignal_mono _ _ Hle Hsignal).
  assert (Hlt : (1 <? step') = true) by (apply Nat.ltb_lt; lia).
  rewrite Hlt. reflexivity.
Qed.

Lemma paywall_verdict_persists_witness :
  let page := Examples.emailGatedOffer in
  type (classify (Page.markup page) (Page.elements page) 2) = paywall
  /\ type (classify (Page.markup page) (Page.elements page) 40) = paywall.
Proof.
  intros page.
  assert (H : type (classify (Page.markup page) (Page.elements page) 2) = paywall)
    by (vm_compute; reflexivity).
  split; [exact H|].
  apply (@paywall_verdict_persists (Page.markup page) (Page.elements page) 2 40); [lia | exact H].
Defined.

Ltac verdict H :=
  unfold classify in H;
  repeat match type of H with
         | type (if ?b then _ else _) = _ =>
             let Hb := fresh "Hrule" in
             destruct b eqn:Hb; [cbn [type] in H; try discriminate H|]
         end;
  cbn [type] in H; try discriminate H.

(** X6.  A page with an email field, by any of the four probes of the email
    rule, is classified as email wherever the paywall rule does not apply:
    whatever text inputs, radio controls, buttons or cards it has besides. *)
Theorem email_rule_wins :
  forall (pageContent : string) (els : list Dom.Element) (step : nat),
    emailRule els = true ->
    paywallRule pageContent els step = false ->
    type (classify pageContent els step) = email.
Proof.
  intros pageContent els step Hemail Hpaywall.
  unfold paywallRule in Hpaywall. unfold emailRule in Hemail. unfold classify.
  rewrite Hpaywall.
  destruct (hasEmailType els); [reflexivity|].
  destruct (hasEmailAutocomplete els); [reflexivity|].
  destruct (hasEmailName els); [reflexivity|].
  destruct (hasEmailPlaceholder els); [reflexivity|]. discriminate Hemail.
Qed.

Lemma email_rule_wins_witness :
  let page := Examples.emailWithTextField in
  emailRule (Page.elements page) = true
  /\ inputCount (Page.elements page) = 1
  /\ type (classify (Page.markup page) (Page.elements page) 7) = email.
Proof.
  intros page.
  assert (Hemail : emailRule (Page.elements page) = true) by reflexivity.
  assert (Hpaywall : paywallRule (Page.markup page) (Page.elements page) 7 = false)
    by reflexivity.
  split; [exact Hemail|]. split; [reflexivity|].
  exact (@email_rule_wins (Page.markup page) (Page.elements page) 7 Hemail Hpaywall).
Defined.

(** X7.  What a verdict tells of the page.  A page classified as input has no
    radio control and no check box; a page classified as question has two
    options at least, as radio controls and check boxes, as option-like
    buttons or as cards; a page classified as info has exactly one visible
    button and no radio control or check box.  None of them has an email
    field that the email rule finds. *)
Theorem verdict_shows_its_rule :
  forall (pageContent : string) (els : list Dom.Element) (step : nat),
    let verdict := type (classify pageContent els step) in
    (verdict = input -> radioCount els = 0 /\ checkboxCount els = 0 /\ emailRule els = false)
    /\ (verdict = question ->
        emailRule els = false
        /\ (2 <= radioCount els + checkboxCount els
            \/ 2 <= countOptionLikeButtons els
            \/ 2 <= countClickableOptionCards els))
    /\ (verdict = info ->
        emailRule els = false
        /\ radioCount els + checkboxCount els = 0
        /\ count els (Loc visibleButtons) = 1).
Proof.
  intros pageContent els step verdict. subst verdict. unfold emailRule.
  split; [|split]; intros H; verdict H;
    repeat match goal with
           | |- _ /\ _ => split
           | Hb : (_ && _) = true |- _ => apply andb_true_iff in Hb; destruct Hb
           | Hb : (_ || _) = false |- _ => apply orb_false_iff in Hb; destruct Hb
           | Hb : (_ || _) = true |- _ => apply orb_true_iff in Hb; destruct Hb
           | Hb : negb _ = true |- _ => apply negb_true_iff in Hb
           | Hb : (_ <=? _) = true |- _ => apply Nat.leb_le in Hb
           | Hb : (_ <=? _) = false |- _ => apply Nat.leb_gt in Hb
           | Hb : (_ =? _) = true |- _ => apply Nat.eqb_eq in Hb
           end;
    try reflexivity; try lia;
    first [left; lia | right; left; lia | right; right; lia].
Qed.

End ClassifierVerdicts.

Lemma verdict_shows_its_rule_witness :
  let page := Examples.radiosAndInputs in
  type (Classifier.classify (Page.markup page) (Page.elements page) 3) = question
  /\ emailRule (Page.elements page) = false
  /\ (2 <= Classifier.radioCount (Page.elements page) + Classifier.checkboxCount (Page.elements page)
      \/ 2 <= Classifier.countOptionLikeButtons (Page.elements page)
      \/ 2 <= Classifier.countClickableOptionCards (Page.elements page)).
Proof.
  intros page.
  assert (Hverdict : type (Classifier.classify (Page.markup page) (Page.elements page) 3)
                     = question) by reflexivity.
  destruct (verdict_shows_its_rule (Page.markup page) (Page.elements page) 3)
    as (_ & Hquestion & _).
  split; [exact Hverdict | exact (Hquestion Hverdict)].
Defined.

(** ** The option-like buttons *)

Section OptionButtons.
Import Classifier.

Lemma countOptionLoop_bound texts : forall optionCount languageCount,
  fst (countOptionLoop texts optionCount languageCount)
  + snd (countOptionLoop texts optionCount languageCount)
  <= optionCount + languageCount + List.length texts.
Proof.
  induction texts as [|raw texts IH]; intros optionCount languageCount;
    cbn [countOptionLoop List.length fst snd]; [lia|].
  repeat match goal with
         | |- context [if ?b then _ else _] => destruct b
         end.
  - specialize (IH optionCount (languageCount + 1)). lia.
  - specialize (IH (optionCount + 1) languageCount). lia.
  - specialize (IH optionCount languageCount). lia.
Qed.

(** X8.  The classifier looks at the first 20 visible buttons only: it
    counts 20 option-like buttons at most, and none more than the page has
    visible buttons. *)
Theorem option_buttons_are_bounded :
  forall els : list Dom.Element,
    countOptionLikeButtons els <= 20
    /\ countOptionLikeButtons els <= count els (Loc visibleButtons).
Proof.
  intros els. unfold countOptionLikeButtons, count.
  set (buttons := resolve els (Loc visibleButtons)).
  pose proof (countOptionLoop_bound
                (map (fun e => Dom.innerText (Dom.node e)) (firstn 20 buttons)) 0 0) as Hbound.
  rewrite length_map, length_firstn in Hbound.
  destruct (countOptionLoop _ 0 0) as [optionCount languageCount]. cbn [fst snd] in Hbound.
  destruct ((4 <=? languageCount) && (optionCount <=? 2)); lia.
Qed.

End OptionButtons.


(** ** The option cards *)

Section Cards.
Variable E : Env.
Import Classifier Dom.

(** The text by which the scan tells cards apart. *)
Definition cardText (e : Element) : string := Text.trim (textContent (node e)).

(** What the scan asks of a card. *)
Definition isCard (e : Element) : bool :=
  let n := node e in
  isHTMLElement n
  && String.eqb (cursor n) "pointer"
  && negb (existsb (String.eqb (tagName n)) ["BUTTON"; "A"; "INPUT"; "SELECT"; "LABEL"])
  && (0 <? String.length (cardText e)) && (String.length (cardText e) <? 60)
  && Qgt_bool (width n) (inject_Z 40) && Qgt_bool (height n) (inject_Z 30).

Lemma scanCards_spec els : forall seen,
  Forall (fun e => isCard e = true /\ In e els
                   /\ existsb (String.eqb (cardText e)) seen = false)
         (scanCards seen els)
  /\ NoDup (map cardText (scanCards seen els)).
Proof.
  induction els as [|e els IH]; intros seen; cbn [scanCards].
  - split; constructor.
  - assert (Hskip : Forall (fun e0 => isCard e0 = true /\ In e0 (e :: els)
                                     /\ existsb (String.eqb (cardText e0)) seen = false)
                           (scanCards seen els)
                    /\ NoDup (map cardText (scanCards seen els))).
    { destruct (IH seen) as [Hall Hnodup]. split; [|exact Hnodup].
      eapply Forall_impl; [|exact Hall]. cbn. intros a (H1 & H2 & H3). auto. }
    destruct (isHTMLElement (node e) && String.eqb (cursor (node e)) "pointer"
              && negb (existsb (String.eqb (tagName (node e)))
                               ["BUTTON"; "A"; "INPUT"; "SELECT"; "LABEL"])) eqn:Hkind;
      [|exact Hskip].
    fold (cardText e).
    destruct ((0 <? String.length (cardText e)) && (String.length (cardText e) <? 60)
              && negb (existsb (String.eqb (cardText e)) seen)) eqn:Htext; [|exact Hskip].
    destruct (Qgt_bool (width (node e)) (inject_Z 40)
              && Qgt_bool (height (node e)) (inject_Z 30)) eqn:Hbox; [|exact Hskip].
    apply andb_true_iff in Htext. destruct Htext as [Hlen Hnew].
    apply negb_true_iff in Hnew.
    apply andb_true_iff in Hbox. destruct Hbox as [Hw Hh].
    destruct (IH (cardText e :: seen)) as [Hall Hnodup]. split.
    + constructor.
      * split; [|split; [left; reflexivity | exact Hnew]].
        apply andb_true_iff in Hlen. destruct Hlen as [Hlow Hhigh].
        unfold isCard. cbv zeta. rewrite Hkind, Hlow, Hhigh, Hw, Hh. reflexivity.
      * eapply Forall_impl; [|exact Hall]. cbn. intros a (H1 & H2 & H3).
        split; [exact H1|]. split; [right; exact H2|].
        apply orb_false_iff in H3. apply H3.
    + cbn [map]. constructor; [|exact Hnodup].
      intros Hin. apply in_map_iff in Hin. destruct Hin as [a [Heq Ha]].
      rewrite Forall_forall in Hall. destruct (Hall a Ha) as (_ & _ & Hseen).
      cbn [existsb] in Hseen. apply orb_false_iff in Hseen. destruct Hseen as [Hseen _].
      rewrite Heq, String.eqb_refl in Hseen. discriminate.
Qed.

(** X9.  The cards that the classifier counts and that the card strategy
    chooses among are elements of the page with a pointer cursor, a box
    above 40 by 30 and a text of 1 to 59 characters, none of them a button,
    link, input, select or label; no two of them have the same text. *)
Theorem cards_are_distinct_options :
  forall els : list Element,
    Forall (fun e => isCard e = true /\ In e els) (scanCards [] els)
    /\ NoDup (map cardText (scanCards [] els))
    /\ countClickableOptionCards els <= List.length els.
Proof.
  intros els. destruct (scanCards_spec els []) as [Hall Hnodup].
  split; [|split; [exact Hnodup|]].
  - eapply Forall_impl; [|exact Hall]. cbn. tauto.
  - unfold countClickableOptionCards.
    assert (Hlen : forall seen, List.length (scanCards seen els) <= List.length els).
    { clear. induction els as [|e els IH]; intros seen; cbn [scanCards List.length]; [lia|].
      repeat match goal with
             | |- context [if ?b then _ else _] => destruct b
             end; cbn [List.length]; try (specialize (IH seen); lia).
      specialize (IH (Text.trim (textContent (node e)) :: seen)). lia. }
    apply Hlen.
Qed.

Lemma indexed_nth cards : forall k i,
  i < List.length cards ->
  exists e, nth_error cards i = Some e
            /\ nth_error (indexed k cards) i = Some (cardText e, k + i).
Proof.
  induction cards as [|e cards IH]; intros k i Hi; cbn [List.length] in Hi; [lia|].
  destruct i as [|i].
  - exists e. cbn. rewrite Nat.add_0_r. split; reflexivity.
  - destruct (IH (k + 1) i ltac:(lia)) as [e' [H1 H2]].
    exists e'. cbn [nth_error indexed]. split; [exact H1|].
    rewrite H2. f_equal. f_equal. lia.
Qed.

Lemma indexed_In cards : forall k c,
  In c (indexed k cards) -> exists e, nth_error cards (snd c - k) = Some e /\ k <= snd c
                                      /\ fst c = cardText e.
Proof.
  induction cards as [|e cards IH]; intros k c Hin; cbn [indexed] in Hin; [destruct Hin|].
  destruct Hin as [<- | Hin].
  - exists e. cbn [snd fst]. rewrite Nat.sub_diag. repeat split; auto.
  - destruct (IH (k + 1) c Hin) as [e' (H1 & H2 & H3)].
    exists e'. replace (snd c - k) with (S (snd c - (k + 1))) by lia.
    cbn [nth_error]. repeat split; auto. lia.
Qed.

Lemma length_indexed cards : forall k, List.length (indexed k cards) = List.length cards.
Proof. induction cards as [|e cards IH]; intros k; cbn; [reflexivity|]. rewrite IH. reflexivity. Qed.

(** The card that [chooseCard] gives is one of the cards. *)
Lemma chooseCard_nth kws cards :
  1 <= List.length cards ->
  exists c e, chooseCard kws (indexed 0 cards) = Some c
              /\ nth_error cards (snd c) = Some e /\ fst c = cardText e.
Proof.
  intros Hlen. unfold chooseCard.
  destruct (find _ (indexed 0 cards)) as [c|] eqn:Hfind.
  - apply find_some in Hfind. destruct Hfind as [Hin _].
    destruct (indexed_In _ _ _ Hin) as [e (H1 & H2 & H3)].
    rewrite Nat.sub_0_r in H1. exists c, e. auto.
  - rewrite length_indexed.
    destruct (2 <=? List.length cards) eqn:H2.
    + apply Nat.leb_le in H2. destruct (@indexed_nth cards 0 1 ltac:(lia)) as [e [H1 H3]].
      exists (cardText e, 1), e. cbn in H3. auto.
    + assert (H1 : (1 <=? List.length cards) = true) by (apply Nat.leb_le; exact Hlen).
      rewrite H1. destruct (@indexed_nth cards 0 0 ltac:(lia)) as [e [H0 H3]].
      exists (cardText e, 0), e. cbn in H3. auto.
Qed.


End Cards.


(** ** The choice among options with a smart keyword *)

Section KeywordChoice.
Variable E : Env.

Lemma find_first A (f : A -> bool) before c after :
  Forall (fun x => f x = false) before -> f c = true ->
  find f (before ++ c :: after) = Some c.
Proof.
  induction 1 as [|x before Hx _ IH]; intros Hc; cbn [app find].
  - rewrite Hc. reflexivity.
  - rewrite Hx. exact (IH Hc).
Qed.

(** X11.  A candidate with a smart keyword is chosen before any rotation: the
    first such candidate, among radio controls, check boxes, buttons or
    cards, and the cursor stays where it is; so it does when there is a
    single candidate. *)
Theorem keyword_match_is_chosen_first :
  forall (s : Sys E) (sel : Selection) (before after : list (nat * string)) (c : nat * string),
    (candidatesOf sel = (before ++ c :: after)%list ->
     Forall (fun b => isSmart (keywordText sel (snd b)) = false) before ->
     isSmart (keywordText sel (snd c)) = true ->
     select E sel s = (Ok (Some (fst c)), s))
    /\ (candidatesOf sel = [c] -> select E sel s = (Ok (Some (fst c)), s))
    /\ (forall (cards cardsAfter : list (string * nat)) (card : string * nat),
           Forall (fun b => isSmart (Text.toLowerCase (fst b)) = false) cards ->
           isSmart (Text.toLowerCase (fst card)) = true ->
           chooseCard SMART_KEYWORDS (cards ++ card :: cardsAfter) = Some card).
Proof.
  intros s sel before after c. split; [|split].
  - intros Hcands Hbefore Hc. destruct sel as [cands|cands]; cbn [candidatesOf keywordText] in *;
      subst cands; unfold select, bind.
    + unfold chooseOptionIndex.
      rewrite (find_first (fun c => isSmart (snd c)) _ after Hbefore Hc).
      destruct c as [index text]. reflexivity.
    + unfold chooseButton.
      rewrite (find_first (fun c => isSmart (Text.toLowerCase (snd c))) _ after Hbefore Hc).
      reflexivity.
  - intros Hcands. destruct sel as [cands|cands]; cbn [candidatesOf] in *;
      subst cands; unfold select, bind.
    + unfold chooseOptionIndex. cbn [find]. destruct c as [index text]. cbn [snd].
      destruct (isSmart text); reflexivity.
    + unfold chooseButton. cbn [find].
      destruct (isSmart (Text.toLowerCase (snd c))); reflexivity.
  - intros cards cardsAfter card Hcards Hcard. unfold chooseCard.
    rewrite (find_first (fun c => existsb (fun k => Text.includes k (Text.toLowerCase (fst c)))
                                          SMART_KEYWORDS) _ cardsAfter Hcards Hcard).
    reflexivity.
Qed.

End KeywordChoice.

Lemma keyword_match_is_chosen_first_witness :
  let E := Page.static Examples.site Examples.maleFemale in
  let s := mkSys E [] 5 in
  let options := [(0, "a quick overview"); (1, "my personal plan"); (2, "see my results")] in
  select E (AmongRadios options) s = (Ok (Some 1), s)
  /\ select E (AmongButtons [(3, "Only one")]) s = (Ok (Some 3), s)
  /\ chooseCard SMART_KEYWORDS [("Overview", 0); ("My Plan", 1)] = Some ("My Plan", 1).
Proof.
  intros E s options.
  destruct (@keyword_match_is_chosen_first E s (AmongRadios options)
              [(0, "a quick overview")] [(2, "see my results")] (1, "my personal plan"))
    as (Hfirst & _ & _).
  destruct (@keyword_match_is_chosen_first E s (AmongButtons [(3, "Only one")])
              [] [] (3, "Only one")) as (_ & Hsingle & Hcards).
  split; [apply Hfirst; [reflexivity | repeat constructor | reflexivity]|].
  split; [apply Hsingle; reflexivity|].
  apply (Hcards [("Overview", 0)] [] ("My Plan", 1)); [repeat constructor | reflexivity].
Defined.


(** ** How far a dispatch moves the cursor *)

Section CursorAdvance.
Variable E : Env.

(** The computation advances the cursor by [k] at most, and never lowers it. *)
Definition advances {A} (k : nat) (m : M (Sys E) A) : Prop :=
  forall s, fallbackOptionShift s <= fallbackOptionShift (snd (m s)) <= fallbackOptionShift s + k.

Lemma advances_same A (m : M (Sys E) A) : keeps shiftSame m -> advances 0 m.
Proof. intros H s. specialize (H s). unfold shiftSame in H. lia. Qed.

Lemma advances_weaken A (m : M (Sys E) A) a b : a <= b -> advances a m -> advances b m.
Proof. intros Hab H s. specialize (H s). lia. Qed.

Lemma advances_bind A B (m : M (Sys E) A) (f : A -> M (Sys E) B) a b :
  advances a m -> (forall x, advances b (f x)) -> advances (a + b) (bind m f).
Proof.
  intros Hm Hf s. unfold bind. specialize (Hm s).
  destruct (m s) as [[x|msg] s1]; cbn [snd] in *; [|lia].
  specialize (Hf x s1). lia.
Qed.

Lemma advances_then A B (m : M (Sys E) A) (f : A -> M (Sys E) B) k :
  keeps shiftSame m -> (forall x, advances k (f x)) -> advances k (bind m f).
Proof.
  intros Hm Hf. apply (@advances_bind _ _ _ _ 0 k); [apply advances_same; exact Hm | exact Hf].
Qed.

Lemma advances_first A B (m : M (Sys E) A) (f : A -> M (Sys E) B) k :
  advances k m -> (forall x, keeps shiftSame (f x)) -> advances k (bind m f).
Proof.
  intros Hm Hf. replace k with (k + 0) by lia.
  apply advances_bind; [exact Hm | intros x; apply advances_same; apply Hf].
Qed.

Lemma advances_bumpShift : advances 1 (bumpShift (E:=E)).
Proof. intros s. cbn. lia. Qed.

Lemma advances_chooseOptionIndex cands : advances 1 (chooseOptionIndex (E:=E) cands).
Proof.
  unfold chooseOptionIndex.
  destruct (find _ cands) as [[index text]|]; [apply (@advances_weaken _ _ 0); [lia|];
    apply advances_same; keeps_auto|].
  destruct (2 <=? List.length cands).
  - apply advances_then; [keeps_auto|]. intros shift.
    destruct (nth_error cands _) as [[chosen text]|].
    + apply advances_first; [apply advances_bumpShift | intros; keeps_auto].
    + apply (@advances_weaken _ _ 0); [lia|]. apply advances_same. keeps_auto.
  - apply (@advances_weaken _ _ 0); [lia|]. apply advances_same. keeps_auto.
Qed.

Lemma advances_chooseButton cands : advances 1 (chooseButton (E:=E) cands).
Proof.
  unfold chooseButton.
  destruct (find _ cands) as [c|]; [apply (@advances_weaken _ _ 0); [lia|];
    apply advances_same; keeps_auto|].
  destruct (2 <=? List.length cands).
  - apply advances_then; [keeps_auto|]. intros shift.
    apply advances_first; [apply advances_bumpShift | intros; keeps_auto].
  - apply (@advances_weaken _ _ 0); [lia|]. apply advances_same. keeps_auto.
Qed.

Lemma advances_clickOptionWithLabel : advances 1 (clickOptionWithLabel (E:=E)).
Proof.
  unfold clickOptionWithLabel.
  apply advances_then; [keeps_auto|]. intros total.
  destruct (total =? 0); [apply (@advances_weaken _ _ 0); [lia|]; apply advances_same; keeps_auto|].
  apply advances_then; [keeps_auto|]. intros candidates.
  apply advances_first; [apply advances_chooseOptionIndex|].
  intros [chosen messages]. keeps_auto.
Qed.

Lemma advances_clickFirstOptionButton : advances 1 (clickFirstOptionButton (E:=E)).
Proof.
  unfold clickFirstOptionButton.
  apply advances_then; [keeps_auto|]. intros c.
  apply advances_then; [keeps_auto|]. intros [candidates languageOnlyCount].
  destruct (_ && _); [apply (@advances_weaken _ _ 0); [lia|]; apply advances_same; keeps_auto|].
  destruct (_ =? 0); [apply (@advances_weaken _ _ 0); [lia|]; apply advances_same; keeps_auto|].
  apply advances_first; [apply advances_chooseButton|].
  intros [chosen messages]. keeps_auto.
Qed.

Lemma advances_clickOtherCta : advances 1 (clickOtherCta (E:=E)).
Proof.
  unfold clickOtherCta.
  apply advances_then; [keeps_auto|]. intros clickedByText.
  destruct clickedByText; [apply (@advances_weaken _ _ 0); [lia|]; apply advances_same; keeps_auto|].
  apply advances_then; [keeps_auto|]. intros clickedAnyText.
  destruct clickedAnyText;
    [apply (@advances_weaken _ _ 0); [lia|]; apply advances_same; keeps_auto|].
  apply advances_first; [apply advances_clickFirstOptionButton|].
  intros optBtn. keeps_auto.
Qed.

Lemma advances_handleQuestion ms : advances 2 (handleQuestion (E:=E) ms).
Proof.
  unfold handleQuestion.
  apply advances_then; [keeps_auto|]. intros radioOrCheckboxCount.
  apply (@advances_bind _ _ _ _ 1 1); [apply advances_clickOptionWithLabel|].
  intros optionResult.
  apply advances_first.
  - destruct (_ && _).
    + apply advances_first; [apply advances_clickFirstOptionButton | intros; keeps_auto].
    + apply (@advances_weaken _ _ 0); [lia|]. apply advances_same. keeps_auto.
  - intros [clickedOption messages]. keeps_auto.
Qed.

(** X12.  A dispatch never lowers the rotation cursor and advances it by two
    at most; by one at most on a screen of type other; not at all on a
    screen of type input, email, info or paywall. *)
Theorem cursor_advance_is_bounded :
  forall (t : ScreenType) (s : Sys E),
    let before := fallbackOptionShift s in
    let after := fallbackOptionShift (snd (handleStepAction E t s)) in
    before <= after <= before + 2
    /\ (t = other -> after <= before + 1)
    /\ (t <> question -> t <> other -> after = before).
Proof.
  intros t s before after.
  assert (Hpopups : keeps shiftSame (closeCommonPopups (E:=E))) by auto with keeps typeclass_instances.
  assert (Hbound : forall k, (forall ms, advances k (match t with
                                     | question => handleQuestion ms
                                     | input => handleInput ms
                                     | email => handleEmail ms
                                     | info => handleInfo ms
                                     | other => handleOther ms
                                     | paywall => ret (mkActionResult false ms)
                                     end)) ->
                   before <= after <= before + k).
  { intros k Hk. exact (@advances_then _ _ (closeCommonPopups (E:=E)) _ k Hpopups Hk s). }
  assert (Hsame : forall ms, t <> question -> t <> other ->
                    advances 0 (match t with
                                | question => handleQuestion ms
                                | input => handleInput ms
                                | email => handleEmail ms
                                | info => handleInfo ms
                                | other => handleOther ms
                                | paywall => ret (mkActionResult false ms)
                                end)).
  { intros ms Hq Ho. apply advances_same.
    destruct t; try contradiction; auto with keeps typeclass_instances. keeps_auto. }
  assert (Hother : forall ms, advances 1 (handleOther (E:=E) ms)).
  { intros ms. unfold handleOther.
    apply advances_first; [apply advances_clickOtherCta | intros; keeps_auto]. }
  split; [|split].
  - apply Hbound. intros ms.
    destruct t; try (apply (@advances_weaken _ _ 0); [lia|]; apply Hsame; discriminate).
    + apply advances_handleQuestion.
    + apply (@advances_weaken _ _ 1); [lia | apply Hother].
  - intros ->. apply Hbound. exact Hother.
  - intros Hq Ho. assert (H := Hbound 0 (fun ms => Hsame ms Hq Ho)). lia.
Qed.

End CursorAdvance.

Lemma cursor_advance_is_bounded_witness :
  let E := Page.static Examples.site Examples.maleFemale in
  let s := mkSys E [] 3 in
  fallbackOptionShift (snd (handleStepAction E question s)) = 4
  /\ fallbackOptionShift (snd (handleStepAction E other s)) <= 3 + 1
  /\ fallbackOptionShift (snd (handleStepAction E info s)) = 3.
Proof.
  intros E s.
  destruct (@cursor_advance_is_bounded E other s) as (_ & Hother & _).
  destruct (@cursor_advance_is_bounded E info s) as (_ & _ & Hinfo).
  split; [vm_compute; reflexivity|].
  split; [exact (Hother eq_refl) | apply Hinfo; discriminate].
Defined.


(** ** What the strategies of the dispatcher give *)

Section Strategies.
Variable E : Env.
Import Classifier.

(** X13.  [clickLocator] never raises: whatever the three attempts do, it
    returns whether one of them went through; it returns [true] whenever
    the forced click goes through. *)
Theorem clickLocator_never_raises :
  forall (l : Locator) (s : Sys E),
    (exists clicked, fst (clickLocator l s) = Ok clicked)
    /\ ((forall w, fst (act E (Click l true) w) = Ok tt) -> fst (clickLocator l s) = Ok true).
Proof.
  intros l s. split.
  - cut (wp (clickLocator l) (fun res _ => exists clicked, res = Ok clicked) s); [unfold wp; auto|].
    unfold clickLocator.
    repeat first [ wp_step | wp_skip ]; eexists; reflexivity.
  - intros Hforce.
    cut (wp (clickLocator l) (fun res _ => res = Ok true) s); [unfold wp; auto|].
    assert (Hclick : forall (Q : Res unit -> Sys E -> Prop) s0,
              (forall s1, Q (Ok tt) s1) -> wp (perform E (Click l true)) Q s0).
    { intros Q s0 HQ. unfold wp, perform. pose proof (Hforce (world s0)) as Hok.
      destruct (act E (Click l true) (world s0)) as [res w']. cbn [fst snd] in *.
      subst res. apply HQ. }
    unfold clickLocator.
    repeat first
      [ lazymatch goal with
        | |- wp (perform _ (Click _ true)) _ _ => apply Hclick; intros ?
        end
      | wp_step | wp_skip ].
    all: reflexivity.
Qed.

(** The messages hold no note of a transition but, possibly, the last. *)
Definition transitionOnlyLast (ms : list string) : bool :=
  match rev ms with
  | [] => true
  | _ :: before => forallb (fun m => negb (notesTransition m)) before
  end.

(** X14.  The submit chain of the email step stops at the first transition it
    observes: a message that notes a transition is the last message of the
    chain, so there is one at most; and the chain gives five messages at
    most. *)
Theorem submit_chain_stops_at_transition :
  forall (s : Sys E) (ms : list string),
    fst (runEmailSubmitChain s) = Ok ms ->
    transitionOnlyLast ms = true /\ List.length ms <= 5.
Proof.
  intros s ms.
  cut (wp (@runEmailSubmitChain E)
          (fun res _ => forall ms, res = Ok ms ->
                                   transitionOnlyLast ms = true /\ List.length ms <= 5) s);
    [unfold wp; auto|].
  unfold runEmailSubmitChain, submitAttempt.
  repeat first [ wp_step | wp_skip ].
  all: intros out Hout; try discriminate; injection Hout as <-.
  all: split; [reflexivity | cbn; lia].
Qed.

End Strategies.

Lemma clickLocator_never_raises_witness :
  let E := Page.static Examples.site Examples.continuePage in
  let button := LFirst (Loc (Dom.self (Dom.tag "BUTTON"))) in
  fst (clickLocator button (processStart E [])) = Ok true.
Proof.
  intros E button.
  destruct (@clickLocator_never_raises E button (processStart E [])) as [_ Hforce].
  apply Hforce. intros w. reflexivity.
Defined.

Lemma submit_chain_stops_at_transition_witness :
  let E := Page.static Examples.site Examples.sendEmailPage in
  let ms := ["Filled email=test@example.com"; "Triggered blur + Enter.";
             "Clicked email submit button."] in
  fst (runEmailSubmitChain (processStart E [])) = Ok ms
  /\ transitionOnlyLast ms = true /\ List.length ms <= 5.
Proof.
  intros E ms.
  assert (Hrun : fst (runEmailSubmitChain (processStart E [])) = Ok ms)
    by (vm_compute; reflexivity).
  split; [exact Hrun|].
  exact (@submit_chain_stops_at_transition E (processStart E []) ms Hrun).
Defined.

(** ** Dispatches that report no action *)

Section NoAction.
Variable E : Env.

(** Find a message among the alternatives of a membership in a trace. *)
Ltac pick_message :=
  lazymatch goal with
  | |- _ \/ _ => first [ left; pick_message | right; pick_message ]
  | |- _ = _ => reflexivity
  end.

Definition stillDisabled : string := "Continue button still disabled after fill.".


(** X16.  On a screen of type info or other a dispatch that reports no action
    adds no message to those of the closing of the popups; on a screen of
    type paywall the dispatcher does nothing and reports no action. *)
Theorem no_action_leaves_no_trace :
  forall (popups : list string) (s : Sys E) (result : ActionResult),
    (fst (handleInfo popups s) = Ok result -> performed result = false ->
     messages result = popups)
    /\ (fst (handleOther popups s) = Ok result -> performed result = false ->
        messages result = popups)
    /\ (forall afterPopups,
           closeCommonPopups s = (Ok popups, afterPopups) ->
           handleStepAction E paywall s = (Ok (mkActionResult false popups), afterPopups)).
Proof.
  intros popups s result. split; [|split].
  - cut (wp (handleInfo popups)
            (fun res _ => forall result, res = Ok result -> performed result = false ->
                                         messages result = popups) s); [unfold wp; auto|].
    unfold handleInfo. repeat first [ wp_step | wp_skip ].
    all: intros r Hres Hperformed; try discriminate Hres; injection Hres as <-.
    all: cbn [performed messages] in *; try discriminate Hperformed; reflexivity.
  - cut (wp (handleOther popups)
            (fun res _ => forall result, res = Ok result -> performed result = false ->
                                         messages result = popups) s); [unfold wp; auto|].
    unfold handleOther, clickOtherCta.
    repeat first
      [ lazymatch goal with
        | |- wp (clickFirstOptionButton) _ _ => wp_skip
        | |- wp (clickFirstOptionCard) _ _ => wp_skip
        end
      | wp_step | wp_skip ].
    all: intros r Hres Hperformed; try discriminate Hres; injection Hres as <-.
    all: cbn [performed messages] in *; try discriminate Hperformed.
    all: apply app_nil_r.
  - intros afterPopups Hpopups. unfold handleStepAction, bind. rewrite Hpopups. reflexivity.
Qed.

End NoAction.


Lemma no_action_leaves_no_trace_witness :
  let E := Page.static Examples.site Examples.radiosAndInputs in
  let s := processStart E [] in
  let result := mkActionResult false ["Closed consent banner via framework selector."] in
  fst (handleInfo ["Closed consent banner via framework selector."] s) = Ok result
  /\ messages result = ["Closed consent banner via framework selector."].
Proof.
  intros E s result.
  assert (Hrun : fst (handleInfo ["Closed consent banner via framework selector."] s)
                 = Ok result) by (vm_compute; reflexivity).
  split; [exact Hrun|].
  destruct (@no_action_leaves_no_trace E ["Closed consent banner via framework selector."]
              s result) as (Hinfo & _ & _).
  exact (Hinfo Hrun eq_refl).
Defined.


(** ** The record of a run *)

(** What every part of a step but the record of its screen maintains: the
    counts of the passes and of the recorded steps, the detected types and
    the paywall flag. *)
Definition ledger {E : Env} (r r' : Run E) : Prop :=
  iterations r' = iterations r
  /\ totalSteps r' = totalSteps r
  /\ detectedTypes r' = detectedTypes r
  /\ reachedPaywall r' = reachedPaywall r.

(** What one step does to the record: nothing, or one more step with its
    type among the detected types, and the paywall flag raised on a paywall
    only. *)
Definition recordsOnce {E : Env} (r r' : Run E) : Prop :=
  iterations r' = iterations r
  /\ (ledger r r'
      \/ exists t, totalSteps r' = totalSteps r + 1
                   /\ detectedTypes r' = setAdd t (detectedTypes r)
                   /\ (reachedPaywall r' = reachedPaywall r
                       \/ (t = paywall /\ reachedPaywall r' = true))).

(** What holds of the record throughout a run. *)
Definition consistent {E : Env} (r : Run E) : Prop :=
  totalSteps r <= iterations r
  /\ List.length (detectedTypes r) <= totalSteps r
  /\ (detectedTypes r = [] -> totalSteps r = 0)
  /\ (reachedPaywall r = true -> In paywall (detectedTypes r)).

#[global] Instance ledger_preorder (E : Env) : PreOrder (@ledger E).
Proof.
  split.
  - intros r. unfold ledger. auto.
  - intros a b c (H1 & H2 & H3 & H4) (H1' & H2' & H3' & H4'). unfold ledger.
    repeat split; congruence.
Qed.

#[global] Instance ledger_ignores_page (E : Env) : IgnoresPage (@ledger E).
Proof. intros r s H. unfold ledger. simpl. auto. Qed.

Lemma wp_conj S A (m : M S A) (Q1 Q2 : Res A -> S -> Prop) s :
  wp m Q1 s -> wp m Q2 s -> wp m (fun res s' => Q1 res s' /\ Q2 res s') s.
Proof. unfold wp. auto. Qed.

Section Ledger.
Variable E : Env.
Variable paths : FunnelPaths.

Ltac ledger_setter := apply keeps_modify; intros ?; unfold ledger; simpl; auto.

Lemma ledger_say ms : keeps ledger (say (E:=E) ms).
Proof. unfold say. ledger_setter. Qed.
Lemma ledger_setStepMessages ms : keeps ledger (setStepMessages (E:=E) ms).
Proof. unfold setStepMessages. ledger_setter. Qed.
Lemma ledger_setHash h n : keeps ledger (setHash (E:=E) h n).
Proof. unfold setHash. ledger_setter. Qed.
Lemma ledger_setNoActionCount n : keeps ledger (setNoActionCount (E:=E) n).
Proof. unfold setNoActionCount. ledger_setter. Qed.
Lemma ledger_loggerStep step t : keeps ledger (loggerStep (E:=E) step t).
Proof. unfold loggerStep. keeps_auto. Qed.
Lemma ledger_loggerEventJoined : keeps ledger (loggerEventJoined (E:=E)).
Proof. unfold loggerEventJoined. keeps_auto. Qed.

Local Hint Resolve ledger_say ledger_setStepMessages ledger_setHash ledger_setNoActionCount
  ledger_loggerStep ledger_loggerEventJoined : keeps.

Lemma ledger_fingerprint t : keeps ledger (fingerprint (E:=E) t).
Proof. unfold fingerprint. keeps_run. Qed.
Lemma ledger_loopRescueOrStop step t h : keeps ledger (loopRescueOrStop (E:=E) step t h).
Proof. unfold loopRescueOrStop. keeps_run. Qed.
Lemma ledger_dispatch step t : keeps ledger (dispatch (E:=E) step t).
Proof. unfold dispatch. keeps_run. Qed.
Local Hint Resolve ledger_fingerprint ledger_loopRescueOrStop ledger_dispatch : keeps.
Lemma ledger_actionPhase step t : keeps ledger (actionPhase (E:=E) step t).
Proof. unfold actionPhase. keeps_run. Qed.
Lemma ledger_stepCatch step msg : keeps ledger (stepCatch (E:=E) step msg).
Proof. unfold stepCatch. keeps_run. Qed.
Local Hint Resolve ledger_actionPhase ledger_stepCatch : keeps.

Lemma ledger_recordsOnce (a b : Run E) : ledger a b -> recordsOnce a b.
Proof. intros H. split; [apply H | left; exact H]. Qed.

Lemma recordsOnce_after (a b c : Run E) : recordsOnce a b -> ledger b c -> recordsOnce a c.
Proof.
  intros [Hit Hrec] (H1 & H2 & H3 & H4). split; [congruence|].
  destruct Hrec as [Hl | [t (R1 & R2 & R3)]].
  - left. transitivity b; [exact Hl | repeat split; assumption].
  - right. exists t. split; [congruence|]. split; [congruence|].
    destruct R3 as [R3 | [R3 R4]]; [left | right; split]; congruence.
Qed.

Lemma recordsOnce_before (a b c : Run E) : ledger a b -> recordsOnce b c -> recordsOnce a c.
Proof.
  intros (H1 & H2 & H3 & H4) [Hit Hrec]. split; [congruence|].
  destruct Hrec as [Hl | [t (R1 & R2 & R3)]].
  - left. transitivity b; [repeat split; assumption | exact Hl].
  - right. exists t. split; [congruence|]. split; [congruence|].
    destruct R3 as [R3 | [R3 R4]]; [left | right; split]; congruence.
Qed.

(** The end of a step that is no paywall keeps the record and does not
    stop for a paywall. *)
Lemma afterRecord_ledger step t domHash (r : Run E) :
  wp (same <- gets (@sameHashCount E) ;;
      noAction <- gets (@noActionCount E) ;;
      if (RUN_CONFIG.sameDomHashLimit <=? same) && (2 <=? noAction)
      then loopRescueOrStop step t domHash
      else actionPhase step t)
     (fun res r' => ledger r r' /\ res <> Ok (Break PaywallReached)) r.
Proof.
  apply wp_conj.
  - eapply (keeps_wp (R:=@ledger E)); [keeps_run | auto].
  - repeat first
      [ lazymatch goal with
        | |- wp (actionPhase _ _) _ _ =>
            eapply wp_weaken; [apply actionPhase_flow|];
            cbv beta; intros ? ? Hflow Hres; destruct (Hflow _ Hres); discriminate
        | |- wp (loopRescueOrStop _ _ _) _ _ =>
            unfold loopRescueOrStop
        end
      | wp_step | wp_skip ].
    all: intros; discriminate.
Qed.

Lemma paywallStop_records step t (r : Run E) :
  wp (paywallStop step t)
     (fun res r' =>
        iterations r' = iterations r /\ totalSteps r' = totalSteps r
        /\ detectedTypes r' = detectedTypes r
        /\ (reachedPaywall r' = reachedPaywall r \/ reachedPaywall r' = true)
        /\ (res = Ok (Break PaywallReached) -> reachedPaywall r' = true)) r.
Proof.
  unfold paywallStop, setReachedPaywall.
  repeat first [ wp_keeps (@ledger E) | wp_step ].
  all: unfold ledger in *; cbn [iterations totalSteps detectedTypes reachedPaywall] in *.
  all: repeat match goal with H : _ /\ _ |- _ => destruct H end.
  all: repeat split; try congruence; try (intros; discriminate); auto.
  all: try (left; congruence); try (right; congruence).
Qed.

Lemma stepBody_records step (r : Run E) :
  wp (stepBody paths step)
     (fun res r' => recordsOnce r r'
                    /\ (res = Ok (Break PaywallReached) -> reachedPaywall r' = true)) r.
Proof.
  unfold stepBody, recordStep.
  repeat first
    [ lazymatch goal with
      | |- wp (paywallStop _ _) _ _ =>
          eapply wp_weaken; [apply paywallStop_records|];
          cbv beta; intros ? ? (P1 & P2 & P3 & P4 & P5)
      | |- wp (bind (fingerprint _) _) _ _ =>
          apply wp_bind; wp_keeps (@ledger E);
          [eapply wp_weaken; [apply afterRecord_ledger|];
           cbv beta; intros ? ? [Hafter Hflow] |]
      | |- wp (modify _) _ _ => apply wp_modify
      end
    | wp_keeps (@ledger E) | wp_step ].
  all: unfold recordsOnce, ledger in *;
    cbn [iterations totalSteps detectedTypes reachedPaywall] in *.
  all: repeat match goal with H : _ /\ _ |- _ => destruct H end.
  all: try solve [split; [split; [congruence | left; repeat split; congruence]
                         | intros; first [discriminate | contradiction | auto]]].
  all: (split; [split; [congruence|]; right;
                match goal with
                | H : detectedTypes _ = setAdd ?t _ |- _ => exists t
                end; split; [congruence|]; split; [congruence|]
              | intros; first [discriminate | contradiction | auto]]).
  all: try (left; congruence).
  all: destruct P4; [left; congruence | right; split; [|assumption]].
  all: match goal with
       | H : ScreenType_eqb ?t paywall = true |- _ => destruct t; try discriminate H; reflexivity
       end.
Qed.

Lemma iteration_records step (r : Run E) :
  wp (iteration paths step)
     (fun res r' => recordsOnce r r'
                    /\ (res = Ok (Break PaywallReached) -> reachedPaywall r' = true)) r.
Proof.
  unfold iteration.
  repeat first
    [ lazymatch goal with
      | |- wp (stepBody _ _) _ _ =>
          eapply wp_weaken; [apply stepBody_records|];
          cbv beta; intros [?|?] ? [Hbody Hflag];
          [|apply wp_conj;
            [eapply (keeps_wp (R:=@ledger E)); [auto with keeps|]; intros ? ? Hcatch
            |eapply wp_weaken; [apply stepCatch_flow|];
             cbv beta; intros ? ? Hflow Hres;
             assert (Hno := Hflow _ Hres); discriminate Hno]]
      end
    | wp_step | wp_keeps (@ledger E) ].
  all: try (split; [|intros; discriminate]).
  all: try (apply ledger_recordsOnce; repeat (etransitivity; [eassumption|]); reflexivity).
  - split; [|exact Hflag]. eapply recordsOnce_before; [|exact Hbody]. assumption.
  - eapply recordsOnce_before; [eassumption|]. eapply recordsOnce_after; eassumption.
Qed.

Lemma length_setAdd t l : List.length (setAdd t l) <= List.length l + 1.
Proof.
  unfold setAdd. destruct (existsb (ScreenType_eqb t) l); [lia|].
  rewrite length_app. simpl. lia.
Qed.

Lemma setAdd_nonempty t l : setAdd t l <> [].
Proof.
  unfold setAdd. destruct (existsb (ScreenType_eqb t) l) eqn:Hex.
  - destruct l; [discriminate Hex | discriminate].
  - destruct l; discriminate.
Qed.

Lemma ledger_consistent (a b : Run E) : ledger a b -> consistent a -> consistent b.
Proof.
  intros (H1 & H2 & H3 & H4) (C1 & C2 & C3 & C4). unfold consistent.
  rewrite H1, H2, H3, H4. auto.
Qed.

Lemma loop_consistent remaining : forall step (r : Run E),
  consistent r ->
  wp (loop paths remaining step)
     (fun res r' => consistent r'
                    /\ (res = Ok PaywallReached -> reachedPaywall r' = true)) r.
Proof.
  induction remaining as [|remaining IH]; intros step r Hr; cbn [loop].
  - wp_step. split; [exact Hr | discriminate].
  - wp_step. wp_step. wp_step; [wp_step; split; [exact Hr | discriminate]|].
    wp_step; [wp_step; split; [exact Hr | discriminate]|].
    wp_step. unfold countIteration. wp_step. wp_step.
    eapply wp_weaken; [apply iteration_records|].
    cbv beta. intros res r2 [[Hit Hrec] Hflag].
    cbn [iterations totalSteps detectedTypes reachedPaywall] in Hit, Hrec.
    assert (Hr2 : consistent r2).
    { destruct Hr as (C1 & C2 & C3 & C4). unfold consistent.
      destruct Hrec as [(L1 & L2 & L3 & L4) | [t (R1 & R2 & R3)]];
        cbn [iterations totalSteps detectedTypes reachedPaywall] in *.
      - rewrite L1, L2, L3, L4. repeat split; auto. lia.
      - rewrite Hit, R1, R2. repeat split.
        + lia.
        + pose proof (length_setAdd t (detectedTypes r)). lia.
        + intros Hnil. elim (setAdd_nonempty _ _ Hnil).
        + intros Hflagged. apply In_setAdd.
          destruct R3 as [R3 | [R3 R4]]; [left; apply C4; congruence | right; congruence]. }
    destruct res as [[|reason]|msg].
    + apply IH. exact Hr2.
    + wp_step. split; [exact Hr2|]. intros Heq. apply Hflag. congruence.
    + split; [exact Hr2 | discriminate].
Qed.

Lemma openAndRun_consistent address (r : Run E) :
  consistent r ->
  wp (openAndRun paths address)
     (fun res r' => consistent r'
                    /\ (res = Ok PaywallReached -> reachedPaywall r' = true)) r.
Proof.
  intros Hr. unfold openAndRun, runLoop.
  repeat first
    [ lazymatch goal with
      | |- wp (loop _ _ _) _ _ => apply loop_consistent
      end
    | wp_step | wp_keeps (@ledger E) ].
  all: try (split; [|discriminate]).
  all: repeat match goal with
              | H : ledger ?a ?b, Ha : consistent ?a |- _ =>
                  pose proof (ledger_consistent H Ha); clear H
              end; assumption.
Qed.

Lemma runFunnel_consistent address (r : Run E) :
  consistent r ->
  wp (runFunnel paths address)
     (fun res r' =>
        consistent r'
        /\ forall summary, res = Ok summary ->
             summary = mkSummary address (totalSteps r') (detectedTypes r') (reachedPaywall r')) r.
Proof.
  intros Hr. unfold runFunnel.
  wp_step. wp_step. wp_step. wp_step.
  eapply wp_weaken; [apply (openAndRun_consistent address Hr)|].
  cbv beta. intros res r1 [Hr1 _].
  assert (Hend : forall r2 : Run E, consistent r2 ->
            wp (r0 <- get ;;
                do (E:=E) (WriteSummary (funnelDir paths ++ "/summary.json") address
                                 (totalSteps r0) (map typeName (detectedTypes r0))
                                 (reachedPaywall r0)) ;;
                do CloseSession ;;
                ret (mkSummary address (totalSteps r0) (detectedTypes r0) (reachedPaywall r0)))
               (fun res r' =>
                  consistent r'
                  /\ forall summary, res = Ok summary ->
                       summary = mkSummary address (totalSteps r') (detectedTypes r')
                                           (reachedPaywall r')) r2).
  { intros r2 Hr2.
    repeat first [ wp_step | wp_keeps (@ledger E) ].
    all: match goal with
         | |- consistent ?x /\ _ =>
             assert (Hl : ledger r2 x) by (repeat (etransitivity; [eassumption|]); reflexivity)
         end.
    all: split; [exact (ledger_consistent Hl Hr2)|]; intros summary Heq; try discriminate.
    injection Heq as <-. destruct Hl as (_ & L2 & L3 & L4). rewrite L2, L3, L4. reflexivity. }
  destruct res as [reason|msg].
  - wp_step. cbv beta. apply Hend. exact Hr1.
  - wp_keeps (@ledger E); cbv beta; apply Hend; eapply ledger_consistent; eassumption.
Qed.

End Ledger.

(** X17.  The summary of a run, whenever [runFunnel] returns it, counts at
    most 75 steps, and at most 60 when no email screen is among the
    detected types. *)
Theorem summary_within_budget :
  forall (E : Env) (paths : FunnelPaths) (address : string) (s : Sys E)
         (summary : FunnelRunSummary),
    fst (runFunnel paths address (initialRun s)) = Ok summary ->
    summaryTotalSteps summary <= RUN_CONFIG.maxSteps + 15
    /\ (~ In email (summaryDetectedTypes summary) ->
        summaryTotalSteps summary <= RUN_CONFIG.maxSteps).
Proof.
  intros E paths address s summary Hrun.
  assert (Hstart : consistent (initialRun s)).
  { unfold consistent. cbn. repeat split; auto; discriminate. }
  pose proof (runFunnel_consistent paths address Hstart) as Hsummary.
  pose proof (runFunnel_withinBudget paths address (initialRun s)) as Hbudget.
  unfold wp in Hsummary. destruct Hsummary as [(C1 & _) Hsum].
  specialize (Hsum summary Hrun). subst summary.
  cbn [summaryTotalSteps summaryDetectedTypes].
  destruct Hbudget as (B1 & B2 & B3 & _). cbn [iterations initialRun] in B1, B2.
  split; [lia|]. intros Hnever.
  assert (Hfalse : emailReached (snd (runFunnel paths address (initialRun s))) = false).
  { destruct (emailReached _) eqn:Hreached; [|reflexivity].
    elim Hnever. apply B3; [|exact Hreached]. unfold emailRecorded. cbn. discriminate. }
  specialize (B2 Hfalse). lia.
Qed.

Lemma summary_within_budget_witness :
  let E := Page.static Examples.site Examples.emailGatedOffer in
  let summary := mkSummary Examples.site 2 [email; paywall] true in
  fst (runFunnel Examples.paths Examples.site (initialRun (processStart E []))) = Ok summary
  /\ summaryTotalSteps summary <= RUN_CONFIG.maxSteps + 15.
Proof.
  intros E summary.
  assert (Hrun : fst (runFunnel Examples.paths Examples.site (initialRun (processStart E [])))
                 = Ok summary) by (vm_compute; reflexivity).
  split; [exact Hrun|].
  exact (proj1 (@summary_within_budget E Examples.paths Examples.site (processStart E [])
                  summary Hrun)).
Defined.

(** X18.  The summary of a run is for the address of the run; it lists no
    more detected types than it counts steps, none when it counts no
    step, and it tells of a reached paywall only with the paywall type
    among the detected types. *)
Theorem summary_is_consistent :
  forall (E : Env) (paths : FunnelPaths) (address : string) (s : Sys E)
         (summary : FunnelRunSummary),
    fst (runFunnel paths address (initialRun s)) = Ok summary ->
    summaryUrl summary = address
    /\ List.length (summaryDetectedTypes summary) <= summaryTotalSteps summary
    /\ (summaryTotalSteps summary = 0 <-> summaryDetectedTypes summary = [])
    /\ (summaryReachedPaywall summary = true -> In paywall (summaryDetectedTypes summary)).
Proof.
  intros E paths address s summary Hrun.
  assert (Hstart : consistent (initialRun s)).
  { unfold consistent. cbn. repeat split; auto; discriminate. }
  pose proof (runFunnel_consistent paths address Hstart) as Hsummary.
  unfold wp in Hsummary. destruct Hsummary as [(C1 & C2 & C3 & C4) Hsum].
  specialize (Hsum summary Hrun). subst summary.
  cbn [summaryUrl summaryTotalSteps summaryDetectedTypes summaryReachedPaywall].
  repeat split; auto.
  intros Hzero. rewrite Hzero in C2.
  destruct (detectedTypes _); [reflexivity | cbn in C2; lia].
Qed.

Lemma summary_is_consistent_witness :
  let E := Page.static Examples.site Examples.emailGatedOffer in
  let summary := mkSummary Examples.site 2 [email; paywall] true in
  fst (runFunnel Examples.paths Examples.site (initialRun (processStart E []))) = Ok summary
  /\ In paywall (summaryDetectedTypes summary).
Proof.
  intros E summary.
  assert (Hrun : fst (runFunnel Examples.paths Examples.site (initialRun (processStart E [])))
                 = Ok summary) by (vm_compute; reflexivity).
  split; [exact Hrun|].
  destruct (@summary_is_consistent E Examples.paths Examples.site (processStart E [])
              summary Hrun) as (_ & _ & _ & Hflag).
  apply Hflag. reflexivity.
Defined.

(** X19.  When the loop stops for a paywall, the paywall flag is set, the
    paywall type is among the detected types and a step at least was
    recorded. *)
Theorem paywall_stop_is_recorded :
  forall (E : Env) (paths : FunnelPaths) (s : Sys E) (final : Run E),
    runLoop paths (initialRun s) = (Ok PaywallReached, final) ->
    reachedPaywall final = true
    /\ In paywall (detectedTypes final)
    /\ 1 <= totalSteps final <= iterations final.
Proof.
  intros E paths s final Hrun.
  assert (Hstart : consistent (initialRun s)).
  { unfold consistent. cbn. repeat split; auto; discriminate. }
  pose proof (loop_consistent paths (RUN_CONFIG.maxSteps + 15) 1 Hstart) as Hloop.
  unfold wp in Hloop. unfold runLoop in Hrun. rewrite Hrun in Hloop. cbn [fst snd] in Hloop.
  destruct Hloop as [(C1 & C2 & C3 & C4) Hflag]. specialize (Hflag eq_refl).
  specialize (C4 Hflag). repeat split; auto.
  destruct (totalSteps final); [|lia].
  destruct (detectedTypes final); [destruct C4 | cbn in C2; lia].
Qed.

Lemma paywall_stop_is_recorded_witness :
  let E := Page.static Examples.site Examples.emailGatedOffer in
  let start := initialRun (processStart E []) in
  fst (runLoop Examples.paths start) = Ok PaywallReached
  /\ reachedPaywall (snd (runLoop Examples.paths start)) = true.
Proof.
  intros E start.
  assert (Hstop : fst (runLoop Examples.paths start) = Ok PaywallReached)
    by (vm_compute; reflexivity).
  split; [exact Hstop|].
  assert (Hrun : runLoop Examples.paths start
                 = (Ok PaywallReached, snd (runLoop Examples.paths start))).
  { rewrite <- Hstop. apply surjective_pairing. }
  exact (proj1 (@paywall_stop_is_recorded E Examples.paths (processStart E []) _ Hrun)).
Defined.

(** ** Errors in a run *)

Section RunErrors.
Variable E : Env.
Variable paths : FunnelPaths.

(** An action that raises in every world, or in none. *)
Definition alwaysRaises (a : Action) : Prop :=
  forall w, exists msg, fst (act E a w) = Throw msg.

Definition neverRaises (a : Action) : Prop :=
  forall w, fst (act E a w) = Ok tt.

Lemma do_raises a (r : Run E) :
  alwaysRaises a ->
  wp (do a) (fun res r' => ledger r r' /\ exists msg, res = Throw msg) r.
Proof.
  intros Ha. apply wp_conj.
  - eapply (keeps_wp (R:=@ledger E)); [auto with keeps typeclass_instances | auto].
  - unfold wp, do, onPage, zoom, perform.
    destruct (Ha (world (sys r))) as [msg Hmsg].
    destruct (act E a (world (sys r))) as [res w']. cbn [fst] in *. subst res.
    exists msg. reflexivity.
Qed.

Lemma do_returns a (r : Run E) :
  neverRaises a ->
  wp (do a) (fun res r' => ledger r r' /\ res = Ok tt) r.
Proof.
  intros Ha. apply wp_conj.
  - eapply (keeps_wp (R:=@ledger E)); [auto with keeps typeclass_instances | auto].
  - unfold wp, do, onPage, zoom, perform.
    pose proof (Ha (world (sys r))) as Hok.
    destruct (act E a (world (sys r))) as [res w']. cbn [fst] in *. subst res. reflexivity.
Qed.

(** X20.  An error in the opening of the address or in the loop never leaves
    [runFunnel]: it returns the summary whenever the summary can be written
    and the session closed. *)
Theorem run_errors_are_contained :
  forall (address : string) (r : Run E),
    (forall path url steps types flag, neverRaises (WriteSummary path url steps types flag)) ->
    neverRaises CloseSession ->
    exists summary, fst (runFunnel paths address r) = Ok summary
                    /\ summaryUrl summary = address.
Proof.
  intros address r Hwrite Hclose.
  cut (wp (runFunnel paths address)
          (fun res _ => exists summary, res = Ok summary /\ summaryUrl summary = address) r).
  { unfold wp. auto. }
  unfold runFunnel. wp_step. wp_step. wp_skip.
  all: wp_step; wp_step; wp_step;
    (eapply wp_weaken; [apply (do_returns _ (Hwrite _ _ _ _ _))|]);
    cbv beta; intros ? ? [_ ->]; wp_step;
    (eapply wp_weaken; [apply (do_returns _ Hclose)|]);
    cbv beta; intros ? ? [_ ->]; wp_step;
    eexists; split; reflexivity.
Qed.

(** X21.  When the address cannot be opened, neither at the first attempt
    nor at the retry, the loop is not entered: no pass is made and no step
    recorded, and the summary that [runFunnel] returns is empty. *)
Theorem unreachable_address_gives_empty_summary :
  forall (address : string) (s : Sys E),
    alwaysRaises (Goto address "domcontentloaded" RUN_CONFIG.defaultTimeoutMs) ->
    alwaysRaises (Goto address "networkidle" 25000%N) ->
    let final := snd (runFunnel paths address (initialRun s)) in
    iterations final = 0
    /\ totalSteps final = 0
    /\ (forall summary,
           fst (runFunnel paths address (initialRun s)) = Ok summary ->
           summary = mkSummary address 0 [] false).
Proof.
  intros address s Hfirst Hretry final.
  cut (wp (runFunnel paths address)
          (fun res r' => ledger (initialRun s) r'
                         /\ forall summary, res = Ok summary ->
                                            summary = mkSummary address 0 [] false)
          (initialRun s)).
  { unfold wp. fold final. intros [(L1 & L2 & _) Hsum]. auto. }
  unfold runFunnel, openAndRun.
  assert (Hend : forall r2 : Run E, ledger (initialRun s) r2 ->
            wp (r0 <- get ;;
                do (E:=E) (WriteSummary (funnelDir paths ++ "/summary.json") address
                                 (totalSteps r0) (map typeName (detectedTypes r0))
                                 (reachedPaywall r0)) ;;
                do CloseSession ;;
                ret (mkSummary address (totalSteps r0) (detectedTypes r0) (reachedPaywall r0)))
               (fun res r' =>
                  ledger (initialRun s) r'
                  /\ forall summary, res = Ok summary ->
                       summary = mkSummary address 0 [] false) r2).
  { intros r2 Hr2.
    repeat first [ wp_step | wp_keeps (@ledger E) ].
    all: match goal with
         | |- ledger _ ?x /\ _ =>
             assert (Hl : ledger (initialRun s) x)
               by (repeat (etransitivity; [eassumption|]); reflexivity)
         end.
    all: split; [exact Hl|]; intros summary Heq; try discriminate.
    injection Heq as <-. destruct Hr2 as (_ & L2 & L3 & L4). rewrite L2, L3, L4. reflexivity. }
  wp_step. wp_step. wp_step. wp_step. wp_step. wp_step.
  eapply wp_weaken; [apply (do_raises _ Hfirst)|].
  cbv beta. intros res r1 [H1 [msg ->]].
  wp_step. wp_keeps (@ledger E).
  - wp_step. eapply wp_weaken; [apply (do_raises _ Hretry)|].
    cbv beta. intros res r3 [H3 [msg3 ->]].
    wp_step. wp_keeps (@ledger E).
    + wp_step. wp_keeps (@ledger E); apply Hend;
        repeat (etransitivity; [eassumption|]); reflexivity.
    + wp_keeps (@ledger E); apply Hend;
        repeat (etransitivity; [eassumption|]); reflexivity.
  - wp_keeps (@ledger E); apply Hend; repeat (etransitivity; [eassumption|]); reflexivity.
Qed.

End RunErrors.

Lemma run_errors_are_contained_witness :
  let E := Offline.unreachable Examples.continuePage in
  exists summary,
    fst (runFunnel Examples.paths Examples.site (initialRun (processStart E []))) = Ok summary
    /\ summaryUrl summary = Examples.site.
Proof.
  intros E.
  apply (@run_errors_are_contained E Examples.paths Examples.site);
    repeat intro; reflexivity.
Defined.

Lemma unreachable_address_gives_empty_summary_witness :
  let E := Offline.unreachable Examples.continuePage in
  let s := processStart E [] in
  fst (runFunnel Examples.paths Examples.site (initialRun s))
  = Ok (mkSummary Examples.site 0 [] false).
Proof.
  intros E s.
  assert (Hfirst : alwaysRaises E (Goto Examples.site "domcontentloaded"
                                        RUN_CONFIG.defaultTimeoutMs))
    by (intros w; exists Offline.connectionError; reflexivity).
  assert (Hretry : alwaysRaises E (Goto Examples.site "networkidle" 25000%N))
    by (intros w; exists Offline.connectionError; reflexivity).
  destruct (@unreachable_address_gives_empty_summary E Examples.paths Examples.site s
              Hfirst Hretry) as (_ & _ & Hsum).
  destruct (fst (runFunnel Examples.paths Examples.site (initialRun s))) as [summary|msg] eqn:Hrun.
  - rewrite (Hsum summary eq_refl). reflexivity.
  - vm_compute in Hrun. discriminate Hrun.
Defined.

(** ** Errors that tell of a closed page *)

(** X22.  The driver takes an error for the sign of a closed page exactly
    when its message contains [closed], in lower case: the two other texts
    it looks for contain that one. *)
Theorem closed_page_errors :
  forall msg : string, saysClosed msg = Text.includes "closed" msg.
Proof.
  intros msg. unfold saysClosed.
  destruct (Text.includes "closed" msg) eqn:Hclosed; [reflexivity|].
  destruct (Text.includes "Target closed" msg) eqn:Htarget.
  { rewrite (includes_part "Target " "closed" EmptyString msg Htarget) in Hclosed.
    discriminate. }
  destruct (Text.includes "has been closed" msg) eqn:Hbeen; [|reflexivity].
  rewrite (includes_part "has been " "closed" EmptyString msg Hbeen) in Hclosed.
  discriminate.
Qed.


(** ** The addresses of a session *)

Lemma in_firstn A (l : list A) : forall n x, In x (firstn n l) -> In x l.
Proof.
  induction l as [|a l IH]; intros [|n] x H; cbn in *; try contradiction.
  destruct H as [H|H]; [left; exact H | right; exact (IH n x H)].
Qed.

(** X23.  A session runs five funnels at most.  The addresses given on the
    command line, those arguments that start with [http], are run in the
    order given and in place of the configured ones; without any, the
    configured addresses are run. *)
Theorem session_runs_five_funnels_at_most :
  forall cliArgs : list string,
    List.length (Index.urls cliArgs) <= 5
    /\ (filter Index.startsWithHttp cliArgs = [] -> Index.urls cliArgs = Index.FUNNEL_URLS)
    /\ (filter Index.startsWithHttp cliArgs <> [] ->
        Index.urls cliArgs = firstn 5 (filter Index.startsWithHttp cliArgs)
        /\ forall u, In u (Index.urls cliArgs) -> In u cliArgs /\ Index.startsWithHttp u = true).
Proof.
  intros cliArgs. unfold Index.urls. split; [|split].
  - rewrite length_firstn. lia.
  - intros ->. reflexivity.
  - intros Hsome. destruct (filter Index.startsWithHttp cliArgs) as [|u0 rest] eqn:Hfilter;
      [contradiction|].
    cbn [List.length Nat.ltb Nat.leb]. split; [reflexivity|].
    intros u Hin. apply in_firstn in Hin.
    rewrite <- Hfilter in Hin. apply filter_In in Hin. exact Hin.
Qed.

Lemma session_runs_five_funnels_at_most_witness :
  let cliArgs := ["--headful"; "https://a.example/quiz"; "--safari"; "http://b.example/start"] in
  Index.urls cliArgs = ["https://a.example/quiz"; "http://b.example/start"]
  /\ Index.urls ["--headful"] = Index.FUNNEL_URLS.
Proof.
  intros cliArgs.
  destruct (session_runs_five_funnels_at_most cliArgs) as (_ & _ & Hcli).
  destruct (session_runs_five_funnels_at_most ["--headful"]) as (_ & Hnone & _).
  split; [|apply Hnone; reflexivity].
  destruct Hcli as [Heq _]; [discriminate|]. exact Heq.
Defined.
